(** * Operator regression in the primal (feature-space) formulation

    A shallow embedding of [kooplearn/_src/operator_regression/primal.py]:
    the rank-revealing truncation, the four fitting routines, the multi-step
    predictor and the spectral analysis of the fitted operator.

    Conventions of the embedding.
    - A two-dimensional array is a [matrix]: its shape together with an
      entry function; only the entries inside the shape are meaningful, and
      two arrays are compared with [mat_eq].  A one-dimensional array is a
      list.
    - Double precision numbers are idealised as real numbers ([R]); rounding
      is not modelled, so an equality "up to numerical tolerance" is an exact
      equality here.  The truncation and the sorting routines only compare
      their scalars and are written over an arbitrary ordered scalar type, so
      that they also run on rationals.
    - The routines of numpy, scipy and scikit-learn that the module calls
      (eigensolvers, linear solver, random generators) are parameters of the
      functions that call them.
    - numpy rejects operands of incompatible shapes; the array operations
      below are the mathematical ones, meant for operands of the shapes numpy
      accepts, and the statements carry the shapes they rely on.  Indexing
      with computed indices is checked ([take_cols]).
    - Division by zero and roots of negative numbers, which numpy answers
      with inf or nan, follow the conventions of [R] (the inverse of 0 and
      the root of a negative number are 0); the statements that divide say
      which divisors they take to be non-zero.
    - Logging and exceptions are threaded through the monad [comp].
    - Ranks, counts and sizes are natural numbers; a negative rank is outside
      the embedding. *)

(** The context windows of [kooplearn/_src/context_window_utils.py] are
    embedded as well.  An array of any number of dimensions is an [ndarray]:
    its shape together with an item function, compared with [arr_eq]; the
    integers of Python are integers ([Z]); the warnings and exceptions of
    that module are threaded through the monad [wcomp]. *)

From Stdlib Require Import String.
From Stdlib Require Import List Arith Lia Bool Permutation Sorted.
From Stdlib Require Import QArith Reals Lra.
Import ListNotations.

Set Implicit Arguments.
Local Open Scope nat_scope.

(** ** Exceptions, log records and the computation monad *)

Inductive assertion : Type :=
| RankTooHigh (dim : nat)      (* "Rank too high. The maximum value for this problem is {dim}" *)
| WidthIsRank.                 (* assert V.shape[1] == rank *)

Inductive exn : Type :=
| AssertionError (a : assertion)
| IndexError
| ValueError
| ZeroDivisionError
| LinAlgError.

(** The one warning of the module: "The numerical rank of the projector
    ({numerical}) is smaller than the selected rank ({selected}).
    {ignored} degrees of freedom will be ignored." *)
Record log_record : Type := Warning {
  numerical_rank : nat;
  selected_rank : nat;
  ignored_dof : nat
}.

Definition comp (X : Type) : Type := (list log_record * (exn + X))%type.

Definition ret {X} (x : X) : comp X := ([], inr x).

Definition raise {X} (e : exn) : comp X := ([], inl e).

Definition bind {X Y} (c : comp X) (k : X -> comp Y) : comp Y :=
  match c with
  | (w, inl e) => (w, inl e)
  | (w, inr x) => let (w', r) := k x in (w ++ w', r)
  end.

Definition lift {X} (r : exn + X) : comp X := ([], r).

Definition logging_warning (w : log_record) : comp unit := ([w], inr tt).

Definition assert_ (b : bool) (a : assertion) : comp unit :=
  if b then ret tt else raise (AssertionError a).

Declare Scope comp_scope.
Delimit Scope comp_scope with comp.
Notation "x <- c ;; k" := (bind c (fun x => k))
  (at level 61, c at next level, right associativity) : comp_scope.
Notation "' pat <- c ;; k" := (bind c (fun x => let 'pat := x in k))
  (at level 61, pat pattern, c at next level, right associativity) : comp_scope.
Notation "c ;;; k" := (bind c (fun _ => k))
  (at level 61, right associativity) : comp_scope.
Local Open Scope comp_scope.

(** ** Arrays *)

Record matrix (A : Type) : Type := Matrix {
  nrows : nat;
  ncols : nat;
  entry : nat -> nat -> A
}.

Definition mat_eq {A} (M N : matrix A) : Prop :=
  nrows M = nrows N /\ ncols M = ncols N /\
  forall i j, i < nrows M -> j < ncols M -> entry M i j = entry N i j.

(** Reading an array row by row, and building one from its rows. *)
Definition to_rows {A} (M : matrix A) : list (list A) :=
  map (fun i => map (fun j => entry M i j) (seq 0 (ncols M))) (seq 0 (nrows M)).

Definition of_rows {A} (d : A) (n : nat) (rows : list (list A)) : matrix A :=
  Matrix (length rows) n (fun i j => nth j (nth i rows []) d).

(** [M[:, idx]]: an index outside the columns of [M] raises. *)
Definition take_cols {A} (M : matrix A) (idx : list nat) : exn + matrix A :=
  if forallb (fun j => j <? ncols M) idx
  then inr (Matrix (nrows M) (length idx) (fun i j => entry M i (nth j idx 0)))
  else inl IndexError.

(** The positions at which a boolean mask holds ([np.nonzero]). *)
Definition true_positions (mask : list bool) : list nat :=
  map fst (filter snd (combine (seq 0 (length mask)) mask)).

(** [S[mask]] for a one-dimensional array. *)
Definition mask_select {A} (mask : list bool) (l : list A) : list A :=
  map snd (filter fst (combine mask l)).

(** [V[:, mask]]. *)
Definition mask_cols {A} (mask : list bool) (V : matrix A) : matrix A :=
  let pos := true_positions mask in
  Matrix (nrows V) (length pos) (fun i j => entry V i (nth j pos 0)).

(** [np.c_[V, Z]]: the columns of [Z] appended to those of [V]. *)
Definition c_ {A} (V Z : matrix A) : matrix A :=
  Matrix (nrows V) (ncols V + ncols Z)
         (fun i j => if j <? ncols V then entry V i j else entry Z i (j - ncols V)).

(** Python's [all] on a boolean array. *)
Definition all (l : list bool) : bool := forallb (fun b => b) l.

(** ** Sorting, top-k selection and the rank-revealing truncation *)

Section Truncation.

Variable A : Type.
Variable zero : A.                 (* the scalar 0.0 *)
Variable leb : A -> A -> bool.     (* x <= y *)

(** [x > y] *)
Definition gtb (x y : A) : bool := negb (leb x y).

Definition zeros (n m : nat) : matrix A := Matrix n m (fun _ _ => zero).

(** [np.argsort]: the indices that sort the array in ascending order.  The
    order among equal keys is not fixed by numpy's default sort; the model
    keeps equal keys in their original order. *)
Fixpoint insert_key (p : nat * A) (l : list (nat * A)) : list (nat * A) :=
  match l with
  | [] => [p]
  | q :: l' => if leb (snd p) (snd q) then p :: l else q :: insert_key p l'
  end.

Definition sort_keys (l : list (nat * A)) : list (nat * A) :=
  fold_right insert_key [] l.

Definition argsort (vec : list A) : list nat :=
  map fst (sort_keys (combine (seq 0 (length vec)) vec)).

Record TopKReturnType : Type := TopK {
  tk_values : list A;
  tk_indices : list nat
}.

(** Modelled from the spec: [topk] of [kooplearn._src.utils], which is not
    among the source files.  It "selects the [rank] largest values (ties
    broken by the underlying selection order, not specified further)" and
    reports them with their indices; the selection is taken from the
    array sorted in descending order, and asking for more values than
    there are returns them all. *)
Definition topk (vec : list A) (k : nat) : TopKReturnType :=
  let sort_perm := rev (argsort vec) in
  let indices := firstn k sort_perm in
  TopK (map (fun i => nth i vec zero) indices) indices.

(** [i] comes before [j] in ascending order of the keys of [vec]. *)
Definition idx_le (vec : list A) (i j : nat) : Prop :=
  leb (nth i vec zero) (nth j vec zero) = true.

Definition _rank_reveal (values : list A) (vectors : matrix A)
           (rank : nat) (rcond : A) : comp (list A * matrix A) :=
  let top_vals := topk values rank in
  V <- lift (take_cols vectors (tk_indices top_vals)) ;;
  let S := tk_values top_vals in
  let _test := map (fun s => gtb s rcond) S in
  if all _test then ret (S, V)
  else
    let S := mask_select _test S in
    let V := mask_cols _test V in
    logging_warning (Warning (ncols V) rank (rank - ncols V)) ;;;
    _zeroes <- (if rank <? ncols V then raise ValueError
                else ret (zeros (nrows V) (rank - ncols V))) ;;
    let V := c_ V _zeroes in
    assert_ (ncols V =? rank) WidthIsRank ;;;
    ret (S, V).

End Truncation.

(** ** Linear algebra over a ring of scalars *)

Section LinearAlgebra.

Variable A : Type.
Variables (rO rI : A) (radd rmul : A -> A -> A).

(** [bigsum n f] is [f 0 + ... + f (n-1)]. *)
Fixpoint bigsum (n : nat) (f : nat -> A) : A :=
  match n with
  | 0 => rO
  | S m => radd (bigsum m f) (f m)
  end.

(** [M @ N] *)
Definition matmul (M N : matrix A) : matrix A :=
  Matrix (nrows M) (ncols N)
         (fun i j => bigsum (ncols M) (fun k => rmul (entry M i k) (entry N k j))).

(** [M.T] *)
Definition transpose (M : matrix A) : matrix A :=
  Matrix (ncols M) (nrows M) (fun i j => entry M j i).

(** [np.identity(n)] *)
Definition identity (n : nat) : matrix A :=
  Matrix n n (fun i j => if i =? j then rI else rO).

(** [np.diag(v)] for a one-dimensional [v] *)
Definition diag (v : list A) : matrix A :=
  Matrix (length v) (length v) (fun i j => if i =? j then nth i v rO else rO).

(** [M + N], [c * M], [M * c] and the entrywise product [M * N] *)
Definition madd (M N : matrix A) : matrix A :=
  Matrix (nrows M) (ncols M) (fun i j => radd (entry M i j) (entry N i j)).

Definition smul (c : A) (M : matrix A) : matrix A :=
  Matrix (nrows M) (ncols M) (fun i j => rmul c (entry M i j)).

Definition mscale (M : matrix A) (c : A) : matrix A :=
  Matrix (nrows M) (ncols M) (fun i j => rmul (entry M i j) c).

Definition hadamard (M N : matrix A) : matrix A :=
  Matrix (nrows M) (ncols M) (fun i j => rmul (entry M i j) (entry N i j)).

(** [np.sum(M, axis=0)]: the sum of every column. *)
Definition sum_axis0 (M : matrix A) : list A :=
  map (fun j => bigsum (nrows M) (fun i => entry M i j)) (seq 0 (ncols M)).

(** [np.linalg.multi_dot([A, B, C])]: numpy multiplies in the order that
    costs fewer scalar multiplications. *)
Definition multi_dot3 (M N P : matrix A) : matrix A :=
  let a0 := nrows M in
  let a1b0 := ncols M in
  let b1c0 := nrows P in
  let c1 := ncols P in
  let cost1 := a0 * b1c0 * (a1b0 + c1) in
  let cost2 := a1b0 * c1 * (a0 + b1c0) in
  if cost1 <? cost2 then matmul (matmul M N) P else matmul M (matmul N P).

(** [np.linalg.matrix_power(M, n)]: the identity for [n = 0], binary powering
    for [n > 0], and the power of the inverse for [n < 0]. *)
Definition times_result (result : option (matrix A)) (z : matrix A) : matrix A :=
  match result with
  | None => z
  | Some r => matmul r z
  end.

Fixpoint binary_power (z : matrix A) (result : option (matrix A)) (n : positive)
  : matrix A :=
  match n with
  | xH => times_result result z
  | xO q => binary_power (matmul z z) result q
  | xI q => binary_power (matmul z z) (Some (times_result result z)) q
  end.

Definition positive_power (M : matrix A) (n : positive) : matrix A :=
  match n with
  | 1%positive => M
  | 2%positive => matmul M M
  | 3%positive => matmul (matmul M M) M
  | _ => binary_power M None n
  end.

Definition matrix_power (inv : matrix A -> exn + matrix A) (M : matrix A) (n : Z)
  : exn + matrix A :=
  if negb (nrows M =? ncols M) then inl LinAlgError
  else match n with
       | Z0 => inr (identity (nrows M))
       | Zpos p => inr (positive_power M p)
       | Zneg p => match inv M with
                   | inl e => inl e
                   | inr M' => inr (positive_power M' p)
                   end
       end.

(** [v[idx]] for a one-dimensional array and in-range indices. *)
Definition index_list (v : list A) (idx : list nat) : list A :=
  map (fun i => nth i v rO) idx.

End LinearAlgebra.

(** ** Real and complex scalars *)

Definition Rleb (x y : R) : bool := if Rle_dec x y then true else false.

(** [x ** (-0.5)] and [x ** (-1.0)] *)
Definition rsqrt (x : R) : R := (/ sqrt x)%R.

Definition rinv (x : R) : R := (/ x)%R.

(** The default of the [rcond] arguments. *)
Definition default_rcond : R := 2.2e-16%R.

Record complex : Type := Cplx { re : R; im : R }.

Definition C0 : complex := Cplx 0 0.
Definition C1 : complex := Cplx 1 0.
Definition RtoC (x : R) : complex := Cplx x 0.

Definition Cadd (x y : complex) : complex :=
  Cplx (re x + re y) (im x + im y).

Definition Cmul (x y : complex) : complex :=
  Cplx (re x * re y - im x * im y) (re x * im y + im x * re y).

Definition Cdiv (x y : complex) : complex :=
  let n := (re y * re y + im y * im y)%R in
  Cplx ((re x * re y + im x * im y) / n) ((im x * re y - re x * im y) / n).

Definition Cconj (x : complex) : complex := Cplx (re x) (- im x).

(** [|x|^2] *)
Definition Cabs2 (x : complex) : R := (re x * re x + im x * im x)%R.

(** The order numpy sorts complex numbers by: the real part first, then the
    imaginary part. *)
Definition Cleb (x y : complex) : bool :=
  if Rlt_dec (re x) (re y) then true
  else if Rlt_dec (re y) (re x) then false
  else Rleb (im x) (im y).

(** A real array used where a complex one is expected. *)
Definition to_complex (M : matrix R) : matrix complex :=
  Matrix (nrows M) (ncols M) (fun i j => RtoC (entry M i j)).

Abbreviation Rmatmul := (matmul 0%R Rplus Rmult).
Abbreviation Rtranspose := (@transpose R).
Abbreviation Ridentity := (identity 0%R 1%R).
Abbreviation Rdiag := (diag 0%R).
Abbreviation Rmadd := (madd Rplus).
Abbreviation Rsmul := (smul Rmult).
Abbreviation Rmscale := (mscale Rmult).
Abbreviation Rmulti_dot3 := (multi_dot3 0%R Rplus Rmult).
Abbreviation Rbigsum := (bigsum 0%R Rplus).
Abbreviation Cmatmul := (matmul C0 Cadd Cmul).
Abbreviation Cmulti_dot3 := (multi_dot3 C0 Cadd Cmul).
Abbreviation Cbigsum := (bigsum C0 Cadd).

(** [np.linalg.norm(M, axis=0)] of a complex array: the Euclidean norm of
    every column. *)
Definition norm_axis0 (M : matrix complex) : list R :=
  map (fun j => sqrt (Rbigsum (nrows M) (fun i => Cabs2 (entry M i j))))
      (seq 0 (ncols M)).

(** [M / v]: column [j] of [M] divided by [v[j]] (broadcasting over rows). *)
Definition div_cols (M : matrix complex) (v : list complex) : matrix complex :=
  Matrix (nrows M) (ncols M) (fun i j => Cdiv (entry M i j) (nth j v C0)).

(** Modelled from the spec: [weighted_norm] of [kooplearn._src.linalg], which
    is not among the source files: the "weighted norm under" a matrix [M] of
    every column [v] of [vectors], that is the square root of [v.T @ M @ v]. *)
Definition weighted_norm (vectors M : matrix R) : list R :=
  map (fun j => sqrt (entry (Rmatmul (Rmatmul (Rtranspose vectors) M) vectors) j j))
      (seq 0 (ncols vectors)).

(** ** The fitting routines *)

Section Fitters.

(** scipy: [eigh(a, b)] and [eigsh(A, k, M=M)] return eigenvalues and
    eigenvectors, [solve(a, b, assume_a='pos')] the solution of a linear
    system; each may fail. *)
Variable eigh : matrix R -> option (matrix R) -> exn + (list R * matrix R).
Variable eigsh : matrix R -> nat -> option (matrix R) -> exn + (list R * matrix R).
Variable solve : matrix R -> matrix R -> exn + matrix R.

(** [spd_neg_pow] of [kooplearn._src.linalg] is not among the source files;
    no statement below depends on what it computes. *)
Variable spd_neg_pow : matrix R -> R -> exn + matrix R.

(** Randomness.  [ambient] stands for the sources of randomness that a run
    finds in its environment: the entropy of the operating system and the
    state of numpy's global generator.  [np.random.default_rng(seed)] builds
    a generator from the seed, or from fresh entropy when the seed is
    [None]; scikit-learn's [check_random_state(seed)] builds a generator from
    the seed, or returns the global one when the seed is [None]. *)
Variable ambient : Type.
Variable generator : Type.
Variable seeded_generator : Z -> generator.
Variable fresh_entropy : ambient -> Z.
Variable standard_normal : generator -> nat * nat -> matrix R.
Variable random_state : Type.
Variable seeded_random_state : Z -> random_state.
Variable global_random_state : ambient -> random_state.
Variable randomized_svd_from :
  random_state -> matrix R -> nat -> nat -> nat ->
  exn + (matrix R * list R * matrix R).

Definition default_rng (env : ambient) (seed : option Z) : generator :=
  match seed with
  | Some s => seeded_generator s
  | None => seeded_generator (fresh_entropy env)
  end.

Definition check_random_state (env : ambient) (seed : option Z) : random_state :=
  match seed with
  | Some s => seeded_random_state s
  | None => global_random_state env
  end.

(** [randomized_svd(M, n_components, n_oversamples=, n_iter=, random_state=)] *)
Definition randomized_svd (env : ambient) (M : matrix R)
           (n_components n_oversamples n_iter : nat) (seed : option Z)
  : exn + (matrix R * list R * matrix R) :=
  randomized_svd_from (check_random_state env seed) M
                      n_components n_oversamples n_iter.

Definition _fit_reduced_rank_regression_noreg (C_X C_XY : matrix R) (rank : nat)
           (svd_solver : string) (rcond : R) : comp (matrix R) :=
  rsqrt_C_X <- lift (spd_neg_pow C_X (-0.5)) ;;
  let B := Rmatmul rsqrt_C_X C_XY in
  let _crcov := Rmatmul B (Rtranspose B) in
  '(values, vectors) <- lift (if String.eqb svd_solver "arnoldi"
                              then eigsh _crcov (rank + 3) None
                              else eigh _crcov None) ;;
  '(values, vectors) <- _rank_reveal 0%R Rleb values vectors rank rcond ;;
  ret (Rmatmul rsqrt_C_X vectors).

Definition fit_reduced_rank_regression (C_X C_XY : matrix R) (tikhonov_reg : R)
           (rank : nat) (svd_solver : string) : comp (matrix R) :=
  if Req_dec_T tikhonov_reg 0 then
    _fit_reduced_rank_regression_noreg C_X C_XY rank svd_solver default_rcond
  else
    let dim := nrows C_X in
    let reg_input_covariance := Rmadd C_X (Rsmul tikhonov_reg (Ridentity dim)) in
    let _crcov := Rmatmul C_XY (Rtranspose C_XY) in
    '(values, vectors) <- lift (if String.eqb svd_solver "arnoldi"
                                then eigsh _crcov (rank + 3) (Some reg_input_covariance)
                                else eigh _crcov (Some reg_input_covariance)) ;;
    let top_eigs := topk 0%R Rleb values rank in
    vectors <- lift (take_cols vectors (tk_indices top_eigs)) ;;
    let _norms := weighted_norm vectors reg_input_covariance in
    let vectors := Rmatmul vectors (Rdiag (map rinv _norms)) in
    ret vectors.

(** The loop [for _ in range(iterated_power)] of the randomized fit. *)
Fixpoint power_iterations (iterated_power : nat)
         (reg_input_covariance _crcov sketch : matrix R) : exn + matrix R :=
  match iterated_power with
  | 0 => inr sketch
  | S n =>
      match solve reg_input_covariance sketch with
      | inl e => inl e
      | inr _tmp_sketch =>
          power_iterations n reg_input_covariance _crcov (Rmatmul _crcov _tmp_sketch)
      end
  end.

Definition fit_rand_reduced_rank_regression (env : ambient) (C_X C_XY : matrix R)
           (tikhonov_reg : R) (rank n_oversamples iterated_power : nat)
           (rng_seed : option Z) : comp (matrix R) :=
  let dim := nrows C_X in
  let reg_input_covariance := Rmadd C_X (Rsmul tikhonov_reg (Ridentity dim)) in
  let _crcov := Rmatmul C_XY (Rtranspose C_XY) in
  let rng := default_rng env rng_seed in
  let sketch := standard_normal rng (nrows reg_input_covariance, rank + n_oversamples) in
  sketch <- lift (power_iterations iterated_power reg_input_covariance _crcov sketch) ;;
  sketch_p <- lift (solve reg_input_covariance sketch) ;;
  let F_0 := Rmatmul (Rtranspose sketch_p) sketch in
  let F_1 := Rmatmul (Rmatmul (Rtranspose sketch_p) _crcov) sketch_p in
  '(values, vectors) <- lift (eigh F_1 (Some F_0)) ;;
  let _norms := weighted_norm vectors F_0 in
  let vectors := Rmatmul vectors (Rdiag (map rinv _norms)) in
  selected <- lift (take_cols vectors (tk_indices (topk 0%R Rleb values rank))) ;;
  ret (Rmatmul sketch_p selected).

Definition fit_principal_component_regression (C_X : matrix R) (tikhonov_reg : R)
           (rank : option nat) (svd_solver : string) (rcond : R) : comp (matrix R) :=
  let dim := nrows C_X in
  let rank := match rank with None => dim | Some r => r end in
  assert_ (rank <=? dim) (RankTooHigh dim) ;;;
  let reg_input_covariance := Rmadd C_X (Rsmul tikhonov_reg (Ridentity dim)) in
  '(values, vectors) <- lift (if String.eqb svd_solver "arnoldi"
                              then eigsh reg_input_covariance rank None
                              else eigh reg_input_covariance None) ;;
  '(values, vectors) <- _rank_reveal 0%R Rleb values vectors rank rcond ;;
  let rsqrt_evals :=
    Rdiag (map rsqrt values ++ repeat 0%R (rank - length values)) in
  ret (Rmatmul vectors rsqrt_evals).

Definition fit_rand_principal_component_regression (env : ambient) (C_X : matrix R)
           (tikhonov_reg : R) (rank : option nat) (n_oversamples iterated_power : nat)
           (rcond : R) (rng_seed : option Z) : comp (matrix R) :=
  let dim := nrows C_X in
  let rank := match rank with None => dim | Some r => r end in
  assert_ (rank <=? dim) (RankTooHigh dim) ;;;
  let reg_input_covariance := Rmadd C_X (Rsmul tikhonov_reg (Ridentity dim)) in
  '(vectors, values, _) <- lift (randomized_svd env reg_input_covariance rank
                                                n_oversamples iterated_power rng_seed) ;;
  '(values, vectors) <- _rank_reveal 0%R Rleb values vectors rank rcond ;;
  let rsqrt_evals :=
    Rdiag (map rsqrt values ++ repeat 0%R (rank - length values)) in
  ret (Rmatmul vectors rsqrt_evals).

End Fitters.

(** ** Prediction and spectral analysis *)

Section Spectral.

(** numpy/scipy: the inverse used by [matrix_power] for negative exponents,
    and [eig(M, left=True, right=True)], which returns the eigenvalues with
    the left and the right eigenvectors. *)
Variable inv : matrix R -> exn + matrix R.
Variable eig : matrix R -> exn + (list complex * matrix complex * matrix complex).

Definition predict (num_steps : Z) (U C_XY phi_Xin phi_X obs_train_Y : matrix R)
  : comp (matrix R) :=
  let num_train := nrows phi_X in
  let phi_Xin_dot_U := Rmatmul phi_Xin U in
  let U_C_XY_U := Rmulti_dot3 (Rtranspose U) C_XY U in
  r_train <- (if num_train =? 0 then raise ZeroDivisionError
              else ret (/ INR num_train)%R) ;;
  let U_phi_X_obs_Y :=
    Rmscale (Rmulti_dot3 (Rtranspose U) (Rtranspose phi_X) obs_train_Y) r_train in
  M <- lift (matrix_power 0%R 1%R Rplus Rmult inv U_C_XY_U (num_steps - 1)) ;;
  ret (Rmulti_dot3 phi_Xin_dot_U M U_phi_X_obs_Y).

Definition estimator_eig (U C_XY : matrix R)
  : comp (list complex * matrix complex * matrix complex) :=
  let M := Rmulti_dot3 (Rtranspose U) C_XY U in
  '(values, lv, rv) <- lift (eig M) ;;
  let r_perm := argsort Cleb values in
  let l_perm := argsort Cleb (map Cconj values) in
  let values := index_list C0 values r_perm in
  let rv := Cmatmul (to_complex U) rv in
  rv <- lift (take_cols rv r_perm) ;;
  let rv := div_cols rv (map RtoC (norm_axis0 rv)) in
  let lv := Cmulti_dot3 (to_complex (Rtranspose C_XY)) (to_complex U) lv in
  lv <- lift (take_cols lv l_perm) ;;
  let l_norm := sum_axis0 C0 Cadd (hadamard Cmul lv rv) in
  let lv := div_cols lv l_norm in
  ret (values, lv, rv).

End Spectral.

(** ** The quantities the properties are stated with *)

(** [M / c] for a scalar [c] *)
Definition Rdiv_scalar (M : matrix R) (c : R) : matrix R :=
  Matrix (nrows M) (ncols M) (fun i j => (entry M i j / c)%R).

(** The direct linear readout [phi_Xin @ U @ (U.T @ phi_X.T @ obs / n)]. *)
Definition direct_linear_readout (U phi_Xin phi_X obs_train_Y : matrix R) : matrix R :=
  Rmatmul (Rmatmul phi_Xin U)
          (Rdiv_scalar
             (Rmatmul (Rmatmul (Rtranspose U) (Rtranspose phi_X)) obs_train_Y)
             (INR (nrows phi_X))).

(** The shapes [predict] is called with: [d] features, rank [r], [m] initial
    conditions, [n] training points and [p] observables. *)
Definition predict_shapes (d r m n p : nat)
           (U C_XY phi_Xin phi_X obs_train_Y : matrix R) : Prop :=
  nrows U = d /\ ncols U = r /\ nrows C_XY = d /\ ncols C_XY = d /\
  nrows phi_Xin = m /\ ncols phi_Xin = d /\ nrows phi_X = n /\ ncols phi_X = d /\
  nrows obs_train_Y = n /\ ncols obs_train_Y = p.

(** [x <= y] in the order numpy sorts complex numbers by. *)
Definition Cle (x y : complex) : Prop :=
  (re x < re y \/ (re x = re y /\ im x <= im y))%R.

(** The regularized reduced-rank fit as the specification words it:
    "truncate to [rank] via RankTruncator; rescale each eigenvector so its
    weighted norm under the regularized covariance is 1".  It differs from
    [fit_reduced_rank_regression] in the truncation only. *)
Definition fit_reduced_rank_regression_with_truncator
           (eigh : matrix R -> option (matrix R) -> exn + (list R * matrix R))
           (eigsh : matrix R -> nat -> option (matrix R) -> exn + (list R * matrix R))
           (C_X C_XY : matrix R) (tikhonov_reg : R) (rank : nat)
           (svd_solver : string) (rcond : R) : comp (matrix R) :=
  let dim := nrows C_X in
  let reg_input_covariance := Rmadd C_X (Rsmul tikhonov_reg (Ridentity dim)) in
  let _crcov := Rmatmul C_XY (Rtranspose C_XY) in
  '(values, vectors) <- lift (if String.eqb svd_solver "arnoldi"
                              then eigsh _crcov (rank + 3) (Some reg_input_covariance)
                              else eigh _crcov (Some reg_input_covariance)) ;;
  '(values, vectors) <- _rank_reveal 0%R Rleb values vectors rank rcond ;;
  let _norms := weighted_norm vectors reg_input_covariance in
  ret (Rmatmul vectors (Rdiag (map rinv _norms))).

(** The shapes [estimator_eig] works with: [d] features, rank [r], and the
    [r] eigenvalues with their left and right eigenvectors returned by the
    eigensolver. *)
Definition eig_shapes (d r : nat) (U C_XY : matrix R)
           (w : list complex) (lv0 rv0 : matrix complex) : Prop :=
  nrows U = d /\ ncols U = r /\ nrows C_XY = d /\ ncols C_XY = d /\
  length w = r /\ nrows lv0 = r /\ ncols lv0 = r /\ nrows rv0 = r /\ ncols rv0 = r.

(** What the symmetric eigensolvers return: eigenvalues [w] and a matrix [V]
    whose columns are orthonormal eigenvectors of [M] for them. *)
Definition eigenpairs (M : matrix R) (w : list R) (V : matrix R) : Prop :=
  nrows V = nrows M /\ ncols V = length w /\
  (forall a i, a < nrows M -> i < length w ->
     Rbigsum (ncols M) (fun b => (entry M a b * entry V b i)%R)
     = (nth i w 0 * entry V a i)%R) /\
  (forall i j, i < length w -> j < length w ->
     Rbigsum (nrows V) (fun a => (entry V a i * entry V a j)%R)
     = if i =? j then 1%R else 0%R).

(** The Euclidean norm of column [j] of a real matrix. *)
Definition column_norm (M : matrix R) (j : nat) : R :=
  sqrt (Rbigsum (nrows M) (fun i => (entry M i j * entry M i j)%R)).

(** ** Context windows ([kooplearn/_src/context_window_utils.py]) *)

(** An array of any number of dimensions: its shape and the item at every
    multi-index; only the items inside the shape are meaningful, and two
    arrays are compared with [arr_eq]. *)
Record ndarray (A : Type) : Type := NdArray {
  shape : list nat;
  item : list nat -> A
}.

Definition ndim {A} (a : ndarray A) : nat := length (shape a).

Definition in_bounds (idx sh : list nat) : Prop := Forall2 lt idx sh.

Definition arr_eq {A} (a b : ndarray A) : Prop :=
  shape a = shape b /\
  forall idx, in_bounds idx (shape a) -> item a idx = item b idx.

(** The [ValueError]s of the module, one per message. *)
Inductive value_error : Type :=
| TooFewDimensions                     (* contexts must have at least two dimensions *)
| LookforwardNotOne (lookforward : Z)  (* the lookforward window ... should be of length 1 *)
| LookbackTooLong (lookback_len : Z)   (* Invalid lookback_len=... for contexts of shape ... *)
| LookbackTooShort (lookback_len : Z)  (* Invalid lookback_len=... *)
| WindowLenTooSmall (context_window_len : Z)  (* context_window_len must be >= 2 *)
| TimeLagTooSmall (time_lag : Z)       (* time_lag must be >= 1 *)
| WindowExceedsTrajectory              (* Invalid combination of context_window_len and time_lag *)
| SecondAxisNotTwo.                    (* The second axis must have length 2 to be unstacked *)

Inductive window_exn : Type :=
| WindowValueError (e : value_error)
| WindowAttributeError
| WindowIndexError.

(** The warnings of the module's logger. *)
Inductive window_warning : Type :=
| TimeAxisAssumed (sh : list nat)
| SnapshotsDiscarded (lookforward discarded : Z).

Definition wcomp (X : Type) : Type := (list window_warning * (window_exn + X))%type.

Definition wret {X} (x : X) : wcomp X := ([], inr x).

Definition wraise {X} (e : window_exn) : wcomp X := ([], inl e).

Definition wbind {X Y} (c : wcomp X) (k : X -> wcomp Y) : wcomp Y :=
  match c with
  | (w, inl e) => (w, inl e)
  | (w, inr x) => let (w', r) := k x in (w ++ w', r)
  end.

Definition logger_warn (w : window_warning) : wcomp unit := ([w], inr tt).

Declare Scope window_scope.
Delimit Scope window_scope with window.
Notation "x <- c ;; k" := (wbind c (fun x => k))
  (at level 61, c at next level, right associativity) : window_scope.
Notation "c ;;; k" := (wbind c (fun _ => k))
  (at level 61, right associativity) : window_scope.

(** numpy's indexing and reshaping, as far as the module uses it.  The
    operations are written for the numbers of dimensions the module calls
    them with. *)

(** [a[..., np.newaxis]] *)
Definition newaxis_last {A} (a : ndarray A) : ndarray A :=
  NdArray (shape a ++ [1]) (fun idx => item a (firstn (ndim a) idx)).

(** [a[np.newaxis, ...]] *)
Definition newaxis_first {A} (a : ndarray A) : ndarray A :=
  NdArray (1 :: shape a) (fun idx => item a (tl idx)).

(** [a[:, np.newaxis, ...]] *)
Definition newaxis_second {A} (a : ndarray A) : ndarray A :=
  NdArray (match shape a with
           | [] => []
           | n :: rest => n :: 1 :: rest
           end)
          (fun idx => match idx with
                      | i :: _ :: rest => item a (i :: rest)
                      | _ => item a idx
                      end).

(** [a.reshape(1, 1)] of an array without dimensions *)
Definition reshape_1_1 {A} (a : ndarray A) : ndarray A :=
  NdArray [1; 1] (fun _ => item a []).

(** [np.atleast_2d(a)] *)
Definition atleast_2d {A} (a : ndarray A) : ndarray A :=
  match shape a with
  | [] => reshape_1_1 a
  | [_] => newaxis_first a
  | _ => a
  end.

(** [a.shape[k]], where it exists *)
Definition shape_at {A} (a : ndarray A) (k : nat) : nat := nth k (shape a) 0.

(** [np.lib.stride_tricks.sliding_window_view(a, w, axis=0)]: the windows of
    length [w] along the first axis, the window axis coming last. *)
Definition sliding_window_view {A} (a : ndarray A) (w : nat) : ndarray A :=
  match shape a with
  | [] => a
  | n :: rest =>
      NdArray ((n - w + 1) :: rest ++ [w])
              (fun idx => match idx with
                          | [] => item a []
                          | i :: tail => item a ((i + last tail 0) :: removelast tail)
                          end)
  end.

(** [np.moveaxis(a, -1, 1)] *)
Definition moveaxis_last_to_second {A} (a : ndarray A) : ndarray A :=
  match shape a with
  | n :: (_ :: _) as mid =>
      NdArray (n :: last mid 0 :: removelast mid)
              (fun idx => match idx with
                          | i :: k :: rest => item a (i :: rest ++ [k])
                          | _ => item a idx
                          end)
  | _ => a
  end.

(** [a[:, ::step, ...]] *)
Definition stride_second {A} (a : ndarray A) (step : nat) : ndarray A :=
  match shape a with
  | n :: s1 :: rest =>
      NdArray (n :: (s1 + step - 1) / step :: rest)
              (fun idx => match idx with
                          | i :: j :: r => item a (i :: j * step :: r)
                          | _ => item a idx
                          end)
  | _ => a
  end.

(** A bound of a Python slice over an axis of length [n]: a negative bound
    counts from the end, and bounds are clipped to the axis. *)
Definition slice_bound (n : nat) (default : nat) (b : option Z) : nat :=
  match b with
  | None => default
  | Some b => if (b <? 0)%Z then Z.to_nat (Z.max (b + Z.of_nat n) 0)
              else Z.to_nat (Z.min b (Z.of_nat n))
  end.

(** [a[:, start:stop, ...]] *)
Definition slice_second {A} (a : ndarray A) (start stop : option Z) : ndarray A :=
  match shape a with
  | n :: s1 :: rest =>
      let lo := slice_bound s1 0 start in
      let hi := slice_bound s1 s1 stop in
      NdArray (n :: (hi - lo) :: rest)
              (fun idx => match idx with
                          | i :: j :: r => item a (i :: lo + j :: r)
                          | _ => item a idx
                          end)
  | _ => a
  end.

(** [a[:, k, ...]]: an integer index removes the axis; it counts from the
    end when negative and raises outside the axis, or when there is no such
    axis. *)
Definition take_second {A} (a : ndarray A) (k : Z) : window_exn + ndarray A :=
  match shape a with
  | n :: s1 :: rest =>
      let k' := if (k <? 0)%Z then (k + Z.of_nat s1)%Z else k in
      if ((0 <=? k') && (k' <? Z.of_nat s1))%Z
      then inr (NdArray (n :: rest)
                        (fun idx => match idx with
                                    | i :: r => item a (i :: Z.to_nat k' :: r)
                                    | [] => item a []
                                    end))
      else inl WindowIndexError
  | _ => inl WindowIndexError
  end.

(** [np.stack((a, b), axis=1)] of two arrays of one shape *)
Definition stack_second {A} (a b : ndarray A) : ndarray A :=
  match shape a with
  | n :: rest =>
      NdArray (n :: 2 :: rest)
              (fun idx => match idx with
                          | i :: c :: r => if c =? 0 then item a (i :: r)
                                           else item b (i :: r)
                          | _ => item a idx
                          end)
  | [] => a
  end.

(** [np.concatenate((a, b), axis=1)] of two arrays whose shapes agree
    outside the second axis *)
Definition concatenate_second {A} (a b : ndarray A) : ndarray A :=
  match shape a with
  | n :: a1 :: rest =>
      NdArray (n :: a1 + shape_at b 1 :: rest)
              (fun idx => match idx with
                          | i :: j :: r => if j <? a1 then item a (i :: j :: r)
                                           else item b (i :: j - a1 :: r)
                          | _ => item a idx
                          end)
  | _ => a
  end.

Local Open Scope window_scope.

Section ContextWindows.

Variable A : Type.

(** What [check_contexts] returns: [True], or the contexts. *)
Inductive checked : Type :=
| ReturnedTrue
| ReturnedContexts (contexts : ndarray A).

Definition check_contexts (contexts : ndarray A) (lookback_len : option Z)
           (enforce_len1_lookforward : bool) : wcomp checked :=
  if ndim contexts <? 2 then wraise (WindowValueError TooFewDimensions)
  else
    contexts <- (if ndim contexts =? 2
                 then logger_warn (TimeAxisAssumed (shape contexts)) ;;;
                      wret (newaxis_last contexts)
                 else wret contexts) ;;
    match lookback_len with
    | None => wret ReturnedTrue
    | Some lookback_len =>
        let context_len := Z.of_nat (shape_at contexts 1) in
        if (enforce_len1_lookforward && (lookback_len <? context_len - 1)%Z)%bool
        then wraise (WindowValueError (LookforwardNotOne (context_len - lookback_len)))
        else if (lookback_len >=? context_len)%Z
        then wraise (WindowValueError (LookbackTooLong lookback_len))
        else if (lookback_len <? 1)%Z
        then wraise (WindowValueError (LookbackTooShort lookback_len))
        else wret (ReturnedContexts contexts)
    end.

(** What [pad_lookforward] returns: the class [NotImplementedError]. *)
Inductive not_implemented : Type := NotImplementedError.

(** [contexts.shape[1]] on what [check_contexts] returned: [True] has no
    shape. *)
Definition checked_shape_at (contexts : checked) (k : nat) : wcomp nat :=
  match contexts with
  | ReturnedTrue => wraise WindowAttributeError
  | ReturnedContexts c =>
      if k <? ndim c then wret (shape_at c k) else wraise WindowIndexError
  end.

Definition pad_lookforward (contexts : ndarray A) (lookback_len : option Z)
  : wcomp not_implemented :=
  contexts <- check_contexts contexts lookback_len false ;;
  lookback_len <- match lookback_len with
                  | None => context_len <- checked_shape_at contexts 1 ;;
                            wret (Z.of_nat context_len - 1)%Z
                  | Some lookback_len => wret lookback_len
                  end ;;
  wret NotImplementedError.

Definition trajectory_to_contexts (trajectory : ndarray A)
           (context_window_len time_lag : Z) : wcomp (ndarray A) :=
  if (context_window_len <? 2)%Z
  then wraise (WindowValueError (WindowLenTooSmall context_window_len))
  else if (time_lag <? 1)%Z
  then wraise (WindowValueError (TimeLagTooSmall time_lag))
  else
    let trajectory := match ndim trajectory with
                      | 0 => reshape_1_1 trajectory
                      | 1 => newaxis_last trajectory
                      | _ => trajectory
                      end in
    let _context_window_len := (1 + (context_window_len - 1) * time_lag)%Z in
    if (_context_window_len >? Z.of_nat (shape_at trajectory 0))%Z
    then wraise (WindowValueError WindowExceedsTrajectory)
    else
      let _res := sliding_window_view trajectory (Z.to_nat _context_window_len) in
      let _res := stride_second (moveaxis_last_to_second _res) (Z.to_nat time_lag) in
      wret _res.

Definition stack_lookback (contexts : ndarray A) (lookback_len : option Z)
  : wcomp (ndarray A) :=
  let contexts := atleast_2d contexts in
  let lookback_len := match lookback_len with
                      | None => (Z.of_nat (shape_at contexts 1) - 1)%Z
                      | Some l => l
                      end in
  let context_len := Z.of_nat (shape_at contexts 1) in
  (if (lookback_len >=? context_len)%Z
   then wraise (WindowValueError (LookbackTooLong lookback_len))
   else if (lookback_len <? 1)%Z
   then wraise (WindowValueError (LookbackTooShort lookback_len))
   else if (lookback_len <? context_len - 1)%Z
   then logger_warn (SnapshotsDiscarded (context_len - lookback_len)
                                        (context_len - lookback_len - 1))
   else wret tt) ;;;
  let _ctx := slice_second contexts None (Some (lookback_len + 1)%Z) in
  let _in := slice_second _ctx None (Some (-1)%Z) in
  let _out := slice_second _ctx (Some 1%Z) None in
  wret (stack_second _in _out).

Definition unstack_lookback (contexts : ndarray A) : wcomp (ndarray A) :=
  let contexts := if ndim contexts =? 2 then newaxis_first contexts else contexts in
  if ndim contexts <? 2 then wraise WindowIndexError
  else if negb (shape_at contexts 1 =? 2)
  then wraise (WindowValueError SecondAxisNotTwo)
  else
    _in <- (match take_second contexts 0 with
            | inl e => wraise e
            | inr a => wret a
            end) ;;
    _out <- (match take_second contexts 1 with
             | inl e => wraise e
             | inr a => match take_second a (-1) with
                        | inl e => wraise e
                        | inr b => wret b
                        end
             end) ;;
    wret (concatenate_second _in (newaxis_second _out)).

End ContextWindows.

Local Close Scope window_scope.

(** ** Modes and eigenfunctions *)

(** [estimator_modes]: the modes as an array of shape
    [(rank, num_init_conditions, num_training_points)], the product of
    [rv_in[:, :, None]] and [lv_obs[:, None, :]]. *)
Definition estimator_modes
           (eig : matrix R -> exn + (list complex * matrix complex * matrix complex))
           (U C_XY phi_X phi_Xin : matrix R) : comp (ndarray complex) :=
  let M := Rmulti_dot3 (Rtranspose U) C_XY U in
  '(values, lv, rv) <- lift (eig M) ;;
  let r_perm := argsort Cleb values in
  let l_perm := argsort Cleb (map Cconj values) in
  let rv := Cmatmul (to_complex U) rv in
  rv <- lift (take_cols rv r_perm) ;;
  let rv := div_cols rv (map RtoC (norm_axis0 rv)) in
  let lv_full := Cmulti_dot3 (to_complex (Rtranspose C_XY)) (to_complex U) lv in
  lv_full <- lift (take_cols lv_full l_perm) ;;
  lv <- lift (take_cols lv l_perm) ;;
  let l_norm := sum_axis0 C0 Cadd (hadamard Cmul lv_full rv) in
  let lv := div_cols lv l_norm in
  r_dim <- (if nrows phi_X =? 0 then raise ZeroDivisionError
            else ret (/ INR (nrows phi_X))%R) ;;
  let rv_in := transpose (Cmatmul (to_complex phi_Xin) rv) in
  let lv_obs :=
    transpose (Cmulti_dot3 (to_complex (Rsmul r_dim phi_X)) (to_complex U) lv) in
  ret (NdArray [nrows rv_in; ncols rv_in; ncols lv_obs]
               (fun idx => Cmul (entry rv_in (nth 0 idx 0) (nth 1 idx 0))
                                (entry lv_obs (nth 0 idx 0) (nth 2 idx 0)))).

(** [evaluate_eigenfunction]: [phi_Xin @ lv_or_rv] *)
Definition evaluate_eigenfunction (phi_Xin : matrix R) (lv_or_rv : matrix complex)
  : matrix complex :=
  Cmatmul (to_complex phi_Xin) lv_or_rv.

(** ** More quantities the properties are stated with *)

(** The number of snapshots of a trajectory: the length of its first axis, a
    trajectory without axes being one snapshot. *)
Definition time_steps {A : Type} (trajectory : ndarray A) : nat :=
  match ndim trajectory with
  | 0 => 1
  | _ => shape_at trajectory 0
  end.

(** The length of the contexts as [stack_lookback] sees them, after
    [np.atleast_2d]. *)
Definition context_len {A : Type} (contexts : ndarray A) : Z :=
  Z.of_nat (shape_at (atleast_2d contexts) 1).

(** [M] multiplied [k] times by itself, one factor after the other: the power
    that [matrix_power] computes by repeated squaring. *)
Fixpoint iterated_product {A : Type} (rO rI : A) (radd rmul : A -> A -> A)
         (M : matrix A) (k : nat) : matrix A :=
  match k with
  | 0 => identity rO rI (nrows M)
  | S k' => matmul rO radd rmul (iterated_product rO rI radd rmul M k') M
  end.

Abbreviation Riterated_product := (iterated_product 0%R 1%R Rplus Rmult).

(** The plain products that [predict] is made of: the small operator
    [U.T @ C_XY @ U], the readout weights [U.T @ phi_X.T @ obs / n], and one
    step of the estimator [G = U U.T C_XY] on feature rows, [phi @ G]. *)
Definition projected_operator (U C_XY : matrix R) : matrix R :=
  Rmatmul (Rmatmul (Rtranspose U) C_XY) U.

Definition readout_weights (U phi_X obs_train_Y : matrix R) : matrix R :=
  Rdiv_scalar (Rmatmul (Rmatmul (Rtranspose U) (Rtranspose phi_X)) obs_train_Y)
              (INR (nrows phi_X)).

Definition estimator_step (U C_XY phi : matrix R) : matrix R :=
  Rmatmul (Rmatmul (Rmatmul phi U) (Rtranspose U)) C_XY.

(** The identity on the first [k] of [n] coordinates and zero on the rest. *)
Definition partial_identity (k n : nat) : matrix R :=
  Matrix n n (fun i j => if ((i =? j) && (i <? k))%bool then 1%R else 0%R).

(** ** Concrete data for the worked examples *)

Definition Qzero : Q := 0%Q.

Definition example_values : list Q := [5; 4; 3; 0; - (1 # 10)]%Q.

Definition example_unsorted : list Q := [0; 3; 5; - (1 # 10); - 2]%Q.

Definition example_vectors : matrix Q :=
  Matrix 5 5 (fun i j => inject_Z (Z.of_nat (10 * (i + 1) + (j + 1)))).

Definition example_rcond : Q := (1 # 1000000)%Q.

(** One by one arrays, and solvers for the examples: one that fails, and
    one that returns a given eigenpair. *)
Definition one_by_one (x : R) : matrix R := Matrix 1 1 (fun _ _ => x).

Definition failing_eigh (_ : matrix R) (_ : option (matrix R))
  : exn + (list R * matrix R) := inl LinAlgError.

Definition failing_eigsh (_ : matrix R) (_ : nat) (_ : option (matrix R))
  : exn + (list R * matrix R) := inl LinAlgError.

Definition failing_spd_neg_pow (_ : matrix R) (_ : R) : exn + matrix R :=
  inl LinAlgError.

Definition eigenpair_eigh (w v : R) (_ : matrix R) (_ : option (matrix R))
  : exn + (list R * matrix R) := inr ([w], one_by_one v).

(** Inputs of a prediction with two features, rank one, one initial
    condition, two training points and one observable. *)
Definition example_U : matrix R := of_rows 0%R 1 [[1]; [2]]%R.
Definition example_C_XY : matrix R := of_rows 0%R 2 [[1; 2]; [3; 4]]%R.
Definition example_phi_Xin : matrix R := of_rows 0%R 2 [[5; 6]]%R.
Definition example_phi_X : matrix R := of_rows 0%R 2 [[1; 0]; [1; 1]]%R.
Definition example_obs : matrix R := of_rows 0%R 1 [[7]; [8]]%R.

(** An eigensolver for the examples, on a one by one operator. *)
Definition one_by_one_complex (x : complex) : matrix complex :=
  Matrix 1 1 (fun _ _ => x).

Definition eigentriple_eig (w : complex) (_ : matrix R)
  : exn + (list complex * matrix complex * matrix complex) :=
  inr ([w], one_by_one_complex C1, one_by_one_complex C1).

(** A covariance with eigenvalues 1 and 3, and the answer of the dense
    eigensolver on it once regularized with [lambda = 1]. *)
Definition example_C_X : matrix R := of_rows 0%R 2 [[1; 0]; [0; 3]]%R.

Definition example_eigh (_ : matrix R) (_ : option (matrix R))
  : exn + (list R * matrix R) := inr ([2; 4]%R, Ridentity 2).

(** A random source for the examples: the environment decides the fresh
    seed, a generator is its seed, and a "normal" sample repeats the seed. *)
Definition example_fresh_entropy (env : bool) : Z := if env then 1%Z else (-1)%Z.

Definition example_standard_normal (g : Z) (shape : nat * nat) : matrix R :=
  Matrix (fst shape) (snd shape) (fun _ _ => IZR g).

Definition example_solve (_ b : matrix R) : exn + matrix R := inr b.

(** A covariance of rank one, and the answer of the dense eigensolver on
    it. *)
Definition deficient_C_X : matrix R := of_rows 0%R 2 [[1; 0]; [0; 0]]%R.

Definition deficient_eigh (_ : matrix R) (_ : option (matrix R))
  : exn + (list R * matrix R) := inr ([1; 0]%R, Ridentity 2).

(** On the identity every power is the identity: a stand-in for
    [spd_neg_pow] in the examples on the one by one identity. *)
Definition identity_spd_neg_pow (M : matrix R) (_ : R) : exn + matrix R := inr M.

(** A solver for the examples on one by one systems with the coefficient 2. *)
Definition halving_solve (_ b : matrix R) : exn + matrix R :=
  inr (Rmscale b (/ 2)%R).

(** A randomized decomposition for the examples: it returns the exact
    eigenpairs of the rank-one covariance. *)
Definition deficient_randomized_svd (_ : unit) (_ : matrix R) (_ _ _ : nat)
  : exn + (matrix R * list R * matrix R) :=
  inr (Ridentity 2, [1; 0]%R, Ridentity 2).

Unset Implicit Arguments.

(** ** Facts about the computation monad *)

Lemma bind_ret {X Y} (x : X) (k : X -> comp Y) : bind (ret x) k = k x.
Proof. unfold bind, ret. destruct (k x). reflexivity. Qed.

Lemma bind_lift_inr {X Y} (x : X) (k : X -> comp Y) : bind (lift (inr x)) k = k x.
Proof. apply bind_ret. Qed.

(** ** Facts about masks *)

Lemma true_positions_prefix_from (k m s : nat) :
  map fst (filter snd (combine (seq s (k + m)) (repeat true k ++ repeat false m)))
  = seq s k.
Proof.
  revert s. induction k as [|k IH]; intros s; simpl.
  - revert s. induction m as [|m IHm]; intros s; simpl; auto.
  - f_equal. apply IH.
Qed.

Lemma true_positions_prefix (k m : nat) :
  true_positions (repeat true k ++ repeat false m) = seq 0 k.
Proof.
  unfold true_positions.
  rewrite length_app, !repeat_length. apply true_positions_prefix_from.
Qed.

Lemma mask_select_filter {A} (f : A -> bool) (l : list A) :
  mask_select (map f l) l = filter f l.
Proof.
  unfold mask_select. induction l as [|x l IH]; simpl; auto.
  destruct (f x); simpl; rewrite IH; reflexivity.
Qed.

Lemma filter_length_le {A} (f : A -> bool) (l : list A) :
  length (filter f l) <= length l.
Proof. induction l as [|x l IH]; simpl; [|destruct (f x); simpl]; lia. Qed.

Lemma filter_negb_length {A} (f : A -> bool) (l : list A) :
  length (filter f l) + length (filter (fun x => negb (f x)) l) = length l.
Proof. induction l as [|x l IH]; simpl; auto. destruct (f x); simpl; lia. Qed.

Lemma filter_none {A} (f : A -> bool) (l : list A) :
  Forall (fun x => f x = false) l -> filter f l = [].
Proof. induction 1 as [|x l Hx _ IH]; simpl; [|rewrite Hx]; auto. Qed.

Lemma In_firstn {A} (k : nat) (l : list A) (x : A) : In x (firstn k l) -> In x l.
Proof.
  intros H. rewrite <- (firstn_skipn k l). apply in_or_app. now left.
Qed.

Lemma filter_all_true {A} (f : A -> bool) (l : list A) :
  map f l = repeat true (length (filter f l)) -> filter f l = l.
Proof.
  induction l as [|x l IH]; simpl; auto.
  destruct (f x) eqn:E; simpl; intros H.
  - injection H as H. f_equal. auto.
  - exfalso. apply (f_equal (@length bool)) in H.
    rewrite repeat_length in H. simpl in H. rewrite length_map in H.
    pose proof (filter_length_le f l). lia.
Qed.

(** ** Correctness of the sort and of the selection *)

Section TruncationFacts.

Variable A : Type.
Variable zero : A.
Variable leb : A -> A -> bool.
Hypothesis leb_total : forall x y, leb x y = true \/ leb y x = true.
Hypothesis leb_trans : forall x y z, leb x y = true -> leb y z = true -> leb x z = true.

Let key_le (p q : nat * A) : Prop := leb (snd p) (snd q) = true.

Lemma insert_key_perm p l : Permutation (insert_key leb p l) (p :: l).
Proof.
  induction l as [|q l IH]; simpl; auto.
  destruct (leb (snd p) (snd q)); auto.
  rewrite IH. apply perm_swap.
Qed.

Lemma sort_keys_perm l : Permutation (sort_keys leb l) l.
Proof.
  induction l as [|p l IH]; simpl; auto.
  rewrite insert_key_perm. auto.
Qed.

Lemma insert_key_sorted p l :
  StronglySorted key_le l -> StronglySorted key_le (insert_key leb p l).
Proof.
  induction 1 as [|q l Hs IH Hq]; simpl.
  - repeat constructor.
  - destruct (leb (snd p) (snd q)) eqn:E.
    + constructor; [constructor; assumption|].
      constructor; [exact E|].
      eapply Forall_impl; [|exact Hq].
      intros r Hr. unfold key_le in *. eapply leb_trans; eauto.
    + constructor; [exact IH|].
      assert (Hqp : key_le q p).
      { unfold key_le. destruct (leb_total (snd p) (snd q)); congruence. }
      eapply Permutation_Forall; [symmetry; apply insert_key_perm|].
      constructor; assumption.
Qed.

Lemma sort_keys_sorted l : StronglySorted key_le (sort_keys leb l).
Proof.
  induction l as [|p l IH]; simpl; [constructor|].
  apply insert_key_sorted, IH.
Qed.

Lemma combine_seq_nth (vec : list A) s p :
  In p (combine (seq s (length vec)) vec) ->
  s <= fst p < s + length vec /\ snd p = nth (fst p - s) vec zero.
Proof.
  revert s. induction vec as [|x vec IH]; simpl; intros s H; [contradiction|].
  destruct H as [<-|H]; simpl.
  - rewrite Nat.sub_diag. split; [lia|reflexivity].
  - apply IH in H. destruct H as [H1 H2]. split; [lia|].
    rewrite H2. replace (fst p - s) with (S (fst p - S s)) by lia. reflexivity.
Qed.

Lemma map_fst_combine_seq (vec : list A) s :
  map fst (combine (seq s (length vec)) vec) = seq s (length vec).
Proof.
  revert s. induction vec as [|x vec IH]; simpl; intros s; auto.
  f_equal. apply IH.
Qed.

Lemma argsort_perm vec : Permutation (argsort leb vec) (seq 0 (length vec)).
Proof.
  unfold argsort.
  transitivity (map fst (combine (seq 0 (length vec)) vec)).
  - apply Permutation_map, sort_keys_perm.
  - now rewrite map_fst_combine_seq.
Qed.

Lemma StronglySorted_map_in {X Y} (R : X -> X -> Prop) (R' : Y -> Y -> Prop)
      (f : X -> Y) (l : list X) :
  (forall x y, In x l -> In y l -> R x y -> R' (f x) (f y)) ->
  StronglySorted R l -> StronglySorted R' (map f l).
Proof.
  intros Hf Hs. induction Hs as [|x l Hs IH Hx]; simpl; constructor.
  - apply IH. intros; apply Hf; simpl; auto.
  - rewrite Forall_forall in *. intros y Hy.
    apply in_map_iff in Hy. destruct Hy as [z [<- Hz]].
    apply Hf; simpl; auto.
Qed.

Lemma argsort_sorted vec : StronglySorted (idx_le zero leb vec) (argsort leb vec).
Proof.
  unfold argsort.
  apply StronglySorted_map_in with (R := key_le); [|apply sort_keys_sorted].
  intros p q Hp Hq Hpq.
  pose proof (sort_keys_perm (combine (seq 0 (length vec)) vec)) as P.
  apply (Permutation_in _ P) in Hp. apply (Permutation_in _ P) in Hq.
  apply combine_seq_nth in Hp. apply combine_seq_nth in Hq.
  destruct Hp as [_ Hp], Hq as [_ Hq].
  unfold idx_le, key_le in *. rewrite !Nat.sub_0_r in *. congruence.
Qed.

Lemma StronglySorted_app_inv {X} (R : X -> X -> Prop) l1 l2 :
  StronglySorted R (l1 ++ l2) ->
  StronglySorted R l1 /\ StronglySorted R l2 /\
  forall x y, In x l1 -> In y l2 -> R x y.
Proof.
  induction l1 as [|a l1 IH]; simpl; intros H.
  - repeat split; [constructor|assumption|contradiction].
  - inversion H as [|? ? Hs Ha]; subst.
    destruct (IH Hs) as [H1 [H2 H3]].
    rewrite Forall_app in Ha. destruct Ha as [Ha1 Ha2].
    repeat split; auto.
    + constructor; assumption.
    + intros x y [<-|Hx] Hy; [|auto].
      rewrite Forall_forall in Ha2. auto.
Qed.

Lemma StronglySorted_app {X} (R : X -> X -> Prop) l1 l2 :
  StronglySorted R l1 -> StronglySorted R l2 ->
  (forall x y, In x l1 -> In y l2 -> R x y) ->
  StronglySorted R (l1 ++ l2).
Proof.
  induction 1 as [|a l1 Hs IH Ha]; simpl; intros H2 H; auto.
  constructor.
  - apply IH; [assumption|]. intros; apply H; simpl; auto.
  - rewrite Forall_app. split; [assumption|].
    rewrite Forall_forall. intros y Hy. apply H; simpl; auto.
Qed.

Lemma StronglySorted_rev {X} (R : X -> X -> Prop) l :
  StronglySorted R l -> StronglySorted (fun x y => R y x) (rev l).
Proof.
  induction 1 as [|a l Hs IH Ha]; simpl; [constructor|].
  apply StronglySorted_app; auto.
  - repeat constructor.
  - intros x y Hx [<-|[]]. rewrite Forall_forall in Ha.
    apply Ha. now apply in_rev.
Qed.

(** The indices in descending order of their keys. *)
Lemma sort_perm_sorted vec :
  StronglySorted (fun i j => idx_le zero leb vec j i) (rev (argsort leb vec)).
Proof. apply StronglySorted_rev, argsort_sorted. Qed.

Lemma sort_perm_perm vec :
  Permutation (rev (argsort leb vec)) (seq 0 (length vec)).
Proof. rewrite <- Permutation_rev. apply argsort_perm. Qed.

Lemma topk_indices_length vec k :
  length (tk_indices (topk zero leb vec k)) = Nat.min k (length vec).
Proof.
  simpl. rewrite length_firstn.
  rewrite (Permutation_length (sort_perm_perm vec)), length_seq. reflexivity.
Qed.

Lemma topk_indices_NoDup vec k : NoDup (tk_indices (topk zero leb vec k)).
Proof.
  simpl.
  assert (N : NoDup (rev (argsort leb vec))).
  { eapply Permutation_NoDup; [symmetry; apply sort_perm_perm|apply seq_NoDup]. }
  rewrite <- (firstn_skipn k) in N. now apply NoDup_app_remove_r in N.
Qed.

Lemma topk_indices_range vec k i :
  In i (tk_indices (topk zero leb vec k)) -> i < length vec.
Proof.
  simpl. intros H. apply In_firstn in H.
  apply (Permutation_in _ (sort_perm_perm vec)) in H.
  apply in_seq in H. lia.
Qed.

Lemma topk_values_eq vec k :
  tk_values (topk zero leb vec k)
  = map (fun i => nth i vec zero) (tk_indices (topk zero leb vec k)).
Proof. reflexivity. Qed.

(** Every value left out is at most every value selected. *)
Lemma topk_largest vec k i j :
  In i (tk_indices (topk zero leb vec k)) ->
  j < length vec -> ~ In j (tk_indices (topk zero leb vec k)) ->
  leb (nth j vec zero) (nth i vec zero) = true.
Proof.
  simpl. intros Hi Hj Hn.
  pose proof (sort_perm_sorted vec) as Hs.
  rewrite <- (firstn_skipn k) in Hs.
  apply StronglySorted_app_inv in Hs. destruct Hs as [_ [_ Hs]].
  apply (Hs i j Hi).
  assert (In j (rev (argsort leb vec))) as Hin.
  { apply (Permutation_in _ (Permutation_sym (sort_perm_perm vec))).
    apply in_seq. lia. }
  rewrite <- (firstn_skipn k) in Hin.
  apply in_app_or in Hin. tauto.
Qed.

(** The selected values come in descending order. *)
Lemma topk_values_sorted vec k :
  StronglySorted (fun x y => leb y x = true) (tk_values (topk zero leb vec k)).
Proof.
  simpl.
  apply StronglySorted_map_in with (R := fun i j => idx_le zero leb vec j i).
  - intros; assumption.
  - pose proof (sort_perm_sorted vec) as Hs.
    rewrite <- (firstn_skipn k) in Hs.
    now apply StronglySorted_app_inv in Hs.
Qed.

(** On a descending array the test [> rcond] holds on a prefix. *)
Lemma descending_mask rcond l :
  StronglySorted (fun x y => leb y x = true) l ->
  let k := length (filter (fun s => gtb leb s rcond) l) in
  map (fun s => gtb leb s rcond) l = repeat true k ++ repeat false (length l - k).
Proof.
  induction 1 as [|x l Hs IH Hx]; simpl; auto.
  destruct (gtb leb x rcond) eqn:E; simpl.
  - f_equal. exact IH.
  - assert (F : filter (fun s => gtb leb s rcond) l = []).
    { apply filter_none.
      eapply Forall_impl; [|exact Hx]. intros y Hy. simpl.
      unfold gtb in *. apply negb_false_iff in E.
      now rewrite (leb_trans _ _ _ Hy E). }
    rewrite F in *. simpl in *. rewrite Nat.sub_0_r in IH. rewrite IH. reflexivity.
Qed.

Lemma take_cols_topk values (vectors : matrix A) rank :
  ncols vectors = length values ->
  take_cols vectors (tk_indices (topk zero leb values rank))
  = inr (Matrix (nrows vectors) (length (tk_indices (topk zero leb values rank)))
                (fun i j => entry vectors i
                                  (nth j (tk_indices (topk zero leb values rank)) 0))).
Proof.
  intros Hc. unfold take_cols.
  replace (forallb _ _) with true; [reflexivity|].
  symmetry. apply forallb_forall. intros j Hj.
  apply topk_indices_range in Hj. apply Nat.ltb_lt. lia.
Qed.

Lemma nth_prefix_mask k m p :
  nth p (repeat true k ++ repeat false m) false = (p <? k).
Proof.
  destruct (Nat.ltb_spec p k) as [H|H].
  - rewrite app_nth1 by (rewrite repeat_length; lia).
    now apply nth_repeat_lt.
  - rewrite app_nth2 by (rewrite repeat_length; lia).
    apply nth_repeat.
Qed.

Lemma all_prefix_mask k m : all (repeat true k ++ repeat false m) = (m =? 0).
Proof.
  unfold all. induction k as [|k IH]; simpl; auto.
  destruct m; reflexivity.
Qed.

(** What one call of the truncation does, when at least [rank] values are
    supplied together with one vector column per value. *)
Lemma rank_reveal_run values (vectors : matrix A) rank rcond :
  rank <= length values -> ncols vectors = length values ->
  let top := topk zero leb values rank in
  let kept := filter (fun s => gtb leb s rcond) (tk_values top) in
  exists V,
    _rank_reveal zero leb values vectors rank rcond
    = ((if length kept =? rank then []
        else [Warning (length kept) rank (rank - length kept)]),
       inr (kept, V))
    /\ nrows V = nrows vectors /\ ncols V = rank
    /\ (forall i p, p < length kept ->
                    entry V i p = entry vectors i (nth p (tk_indices top) 0))
    /\ (forall i p, length kept <= p < rank -> entry V i p = zero)
    /\ (forall p, p < rank ->
                  gtb leb (nth p (tk_values top) zero) rcond = (p <? length kept)).
Proof.
  intros Hr Hc top kept.
  assert (Hlen : length (tk_indices top) = rank).
  { unfold top. rewrite topk_indices_length. lia. }
  assert (HlenS : length (tk_values top) = rank).
  { unfold top. rewrite topk_values_eq, length_map. exact Hlen. }
  pose proof (descending_mask rcond _ (topk_values_sorted values rank)) as Hmask.
  fold top in Hmask. cbv zeta in Hmask. fold kept in Hmask. rewrite HlenS in Hmask.
  assert (Hk : length kept <= rank).
  { unfold kept. rewrite <- HlenS. apply filter_length_le. }
  assert (Hpos : forall p, p < rank ->
            gtb leb (nth p (tk_values top) zero) rcond = (p <? length kept)).
  { intros p Hp. rewrite <- (nth_prefix_mask (length kept) (rank - length kept) p).
    rewrite <- Hmask.
    rewrite (nth_indep _ false (gtb leb zero rcond)) by (rewrite length_map; lia).
    symmetry. apply (map_nth (fun s => gtb leb s rcond)). }
  unfold _rank_reveal. fold top.
  unfold top at 1. rewrite (@take_cols_topk values vectors rank Hc). fold top.
  rewrite bind_lift_inr. rewrite Hmask, all_prefix_mask.
  destruct (Nat.eqb_spec (rank - length kept) 0) as [E|E].
  - assert (Ek : length kept = rank) by lia.
    assert (Ekept : kept = tk_values top).
    { unfold kept. apply filter_all_true. fold kept.
      rewrite Hmask, E, Ek, app_nil_r. reflexivity. }
    replace (length kept =? rank) with true by (symmetry; apply Nat.eqb_eq; lia).
    eexists. split; [rewrite Ekept; reflexivity|]. simpl.
    split; [reflexivity|]. split; [exact Hlen|].
    split; [reflexivity|]. split; [intros; lia|exact Hpos].
  - assert (Ek : length kept <> rank) by lia.
    apply Nat.eqb_neq in Ek. rewrite Ek.
    rewrite <- Hmask. rewrite mask_select_filter. fold kept. rewrite Hmask.
    unfold mask_cols. rewrite true_positions_prefix, length_seq. simpl nrows. simpl ncols.
    unfold logging_warning, bind at 1.
    replace (rank <? length kept) with false by (symmetry; apply Nat.ltb_ge; lia).
    rewrite bind_ret. unfold c_ at 1. simpl ncols at 1.
    replace (length kept + (rank - length kept) =? rank) with true
      by (symmetry; apply Nat.eqb_eq; lia).
    simpl. eexists. split; [reflexivity|]. simpl.
    split; [reflexivity|]. split; [lia|].
    split; [|split; [|exact Hpos]].
    + intros i p Hp. replace (p <? length kept) with true
        by (symmetry; apply Nat.ltb_lt; lia).
      rewrite seq_nth by lia. reflexivity.
    + intros i p Hp. replace (p <? length kept) with false
        by (symmetry; apply Nat.ltb_ge; lia).
      reflexivity.
Qed.

Lemma dropped_count rcond (l : list A) :
  length (filter (fun s => gtb leb s rcond) l)
  + length (filter (fun s => leb s rcond) l) = length l.
Proof.
  rewrite <- (filter_negb_length (fun s => gtb leb s rcond) l). f_equal. f_equal.
  apply filter_ext. intros x. unfold gtb. now rewrite negb_involutive.
Qed.

(** C1, amended: when at least [rank] values are supplied (with one vector
    column per value), the truncation selects the [rank] largest values with
    their columns, keeps exactly the selected values above [rcond], warns
    once with the number of discarded degrees of freedom when some value is
    dropped (and not at all otherwise), and returns a matrix of exactly
    [rank] columns in which the column of every kept value is its vector
    column and the column of every dropped value is zero. *)
Theorem rank_reveal_truncation values (vectors : matrix A) rank rcond :
  rank <= length values -> ncols vectors = length values ->
  let top := topk zero leb values rank in
  let kept := filter (fun s => gtb leb s rcond) (tk_values top) in
  let dropped := filter (fun s => leb s rcond) (tk_values top) in
  (length (tk_indices top) = rank /\ NoDup (tk_indices top) /\
   (forall i, In i (tk_indices top) -> i < length values) /\
   tk_values top = map (fun i => nth i values zero) (tk_indices top) /\
   (forall i j, In i (tk_indices top) -> j < length values ->
                ~ In j (tk_indices top) ->
                leb (nth j values zero) (nth i values zero) = true)) /\
  exists V,
    _rank_reveal zero leb values vectors rank rcond
    = ((if length dropped =? 0 then []
        else [Warning (length kept) rank (length dropped)]),
       inr (kept, V))
    /\ length kept + length dropped = rank
    /\ nrows V = nrows vectors /\ ncols V = rank
    /\ forall p, p < rank ->
         if gtb leb (nth p (tk_values top) zero) rcond
         then forall i, entry V i p = entry vectors i (nth p (tk_indices top) 0)
         else forall i, entry V i p = zero.
Proof.
  intros Hr Hc top kept dropped.
  assert (Hlen : length (tk_indices top) = rank).
  { unfold top. rewrite topk_indices_length. lia. }
  split.
  { split; [exact Hlen|]. split; [apply topk_indices_NoDup|].
    split; [intros i; apply topk_indices_range|].
    split; [reflexivity|]. intros i j. apply topk_largest. }
  destruct (@rank_reveal_run values vectors rank rcond Hr Hc) as (V & Hrun & Hn & Hm & Hkept & Hzero & Hpos).
  fold top in Hrun, Hkept, Hzero, Hpos. fold kept in Hrun, Hkept, Hzero, Hpos.
  assert (Hsum : length kept + length dropped = rank).
  { unfold kept, dropped. rewrite dropped_count.
    unfold top. rewrite topk_values_eq, length_map. exact Hlen. }
  exists V. split.
  { rewrite Hrun. f_equal.
    destruct (Nat.eqb_spec (length kept) rank), (Nat.eqb_spec (length dropped) 0);
      try lia; try reflexivity.
    do 2 f_equal. lia. }
  split; [exact Hsum|]. split; [exact Hn|]. split; [exact Hm|].
  intros p Hp. rewrite (Hpos p Hp).
  destruct (Nat.ltb_spec p (length kept)); intros i; [apply Hkept|apply Hzero]; lia.
Qed.

End TruncationFacts.

(** ** The truncation on rationals *)

Lemma Qle_bool_total (x y : Q) : Qle_bool x y = true \/ Qle_bool y x = true.
Proof.
  rewrite !Qle_bool_iff. destruct (Qlt_le_dec x y) as [H|H]; [left|right]; auto.
  now apply Qlt_le_weak.
Qed.

Lemma Qle_bool_trans (x y z : Q) :
  Qle_bool x y = true -> Qle_bool y z = true -> Qle_bool x z = true.
Proof. rewrite !Qle_bool_iff. apply Qle_trans. Qed.

(** The worked example of the truncation: of the values [5, 4, 3, 0.0, -0.1]
    with [rcond = 1e-6] and rank 5, three survive; the output keeps five
    columns, the last two of them zero, and one warning reports two
    discarded degrees of freedom. *)
Lemma rank_reveal_worked_example :
  exists V,
    _rank_reveal Qzero Qle_bool example_values example_vectors 5 example_rcond
    = ([Warning 3 5 2], inr ([5; 4; 3]%Q, V))
    /\ ncols V = 5
    /\ to_rows V = [[11; 12; 13; 0; 0]; [21; 22; 23; 0; 0]; [31; 32; 33; 0; 0];
                    [41; 42; 43; 0; 0]; [51; 52; 53; 0; 0]]%Q.
Proof. eexists. split; [reflexivity|]. split; reflexivity. Qed.

(** On unsorted values the columns follow the selection: of [0, 3, 5, -0.1, -2]
    and rank 3 the values 5 and 3 survive with columns 2 and 1, and the
    third column is zero. *)
Lemma rank_reveal_unsorted_example :
  exists V,
    _rank_reveal Qzero Qle_bool example_unsorted example_vectors 3 example_rcond
    = ([Warning 2 3 1], inr ([5; 3]%Q, V))
    /\ to_rows V = [[13; 12; 0]; [23; 22; 0]; [33; 32; 0];
                    [43; 42; 0]; [53; 52; 0]]%Q.
Proof. eexists. split; reflexivity. Qed.

Lemma rank_reveal_truncation_witness :
  exists V,
    _rank_reveal Qzero Qle_bool example_values example_vectors 5 example_rcond
    = ([Warning 3 5 2], inr ([5; 4; 3]%Q, V))
    /\ ncols V = 5
    /\ (forall i, entry V i 0 = entry example_vectors i 0)
    /\ (forall i, entry V i 1 = entry example_vectors i 1)
    /\ (forall i, entry V i 2 = entry example_vectors i 2)
    /\ (forall i, entry V i 3 = 0%Q)
    /\ (forall i, entry V i 4 = 0%Q).
Proof.
  destruct (rank_reveal_truncation Q Qzero Qle_bool Qle_bool_total Qle_bool_trans
              example_values example_vectors 5 example_rcond)
    as (_ & V & Hrun & _ & _ & Hc & Hcol).
  - simpl. lia.
  - reflexivity.
  - exists V. split; [exact Hrun|]. split; [exact Hc|].
    split; [exact (Hcol 0 ltac:(lia))|].
    split; [exact (Hcol 1 ltac:(lia))|].
    split; [exact (Hcol 2 ltac:(lia))|].
    split; [exact (Hcol 3 ltac:(lia))|exact (Hcol 4 ltac:(lia))].
Defined.

(** C1 as stated fails when more values are requested than there are: the
    single value passes the test, nothing is padded, and the result has one
    column although the requested rank is two. *)
Lemma rank_reveal_rank_above_length :
  exists V,
    _rank_reveal Qzero Qle_bool [5%Q] (Matrix 1 1 (fun _ _ => 1%Q)) 2 0%Q
    = ([], inr ([5%Q], V))
    /\ ncols V = 1 /\ ncols V <> 2.
Proof.
  eexists. split; [reflexivity|]. simpl. split; [reflexivity|discriminate].
Qed.

(** ** Finite sums and products of arrays over a commutative ring *)

Lemma mat_eq_refl {A} (M : matrix A) : mat_eq M M.
Proof. repeat split; auto. Qed.

Lemma mat_eq_sym {A} (M N : matrix A) : mat_eq M N -> mat_eq N M.
Proof.
  intros (Hr & Hc & He). repeat split; auto.
  intros i j Hi Hj. symmetry. apply He; congruence.
Qed.

Lemma mat_eq_trans {A} (M N P : matrix A) : mat_eq M N -> mat_eq N P -> mat_eq M P.
Proof.
  intros (Hr & Hc & He) (Hr' & Hc' & He'). repeat split; try congruence.
  intros i j Hi Hj. rewrite He by assumption. apply He'; congruence.
Qed.

Section RingFacts.

Variable A : Type.
Variables (rO rI : A) (radd rmul rsub : A -> A -> A) (ropp : A -> A).
Hypothesis Ath : ring_theory rO rI radd rmul rsub ropp eq.

Add Ring Aring : Ath.

Local Notation "0" := rO.
Local Notation "1" := rI.
Local Infix "+" := radd.
Local Infix "*" := rmul.
Local Abbreviation sum := (bigsum rO radd).
Local Abbreviation mm := (matmul rO radd rmul).

Lemma bigsum_ext n (f g : nat -> A) :
  (forall k, (k < n)%nat -> f k = g k) -> sum n f = sum n g.
Proof.
  induction n as [|n IH]; simpl; intros H; [reflexivity|].
  rewrite IH, H by (intros; auto with arith). reflexivity.
Qed.

Lemma bigsum_zero n (f : nat -> A) :
  (forall k, (k < n)%nat -> f k = 0) -> sum n f = 0.
Proof.
  induction n as [|n IH]; simpl; intros H; [reflexivity|].
  rewrite IH, H by (intros; auto with arith). ring.
Qed.

Lemma bigsum_plus n (f g : nat -> A) :
  sum n (fun k => f k + g k) = sum n f + sum n g.
Proof. induction n as [|n IH]; simpl; [|rewrite IH]; ring. Qed.

Lemma bigsum_scale_l n c (f : nat -> A) :
  sum n (fun k => c * f k) = c * sum n f.
Proof. induction n as [|n IH]; simpl; [|rewrite IH]; ring. Qed.

Lemma bigsum_scale_r n c (f : nat -> A) :
  sum n (fun k => f k * c) = sum n f * c.
Proof. induction n as [|n IH]; simpl; [|rewrite IH]; ring. Qed.

Lemma bigsum_swap n m (f : nat -> nat -> A) :
  sum n (fun i => sum m (fun j => f i j)) = sum m (fun j => sum n (fun i => f i j)).
Proof.
  induction n as [|n IH]; simpl.
  - symmetry. apply bigsum_zero. reflexivity.
  - rewrite IH. symmetry. apply bigsum_plus.
Qed.

(** A sum with a single non-zero term. *)
Lemma bigsum_single n j (f : nat -> A) :
  (j < n)%nat -> (forall k, (k < n)%nat -> k <> j -> f k = 0) -> sum n f = f j.
Proof.
  induction n as [|n IH]; simpl; intros Hj H; [lia|].
  destruct (Nat.eq_dec j n) as [->|Hne].
  - rewrite bigsum_zero; [ring|]. intros k Hk. apply H; lia.
  - rewrite IH by (try lia; intros; apply H; lia).
    rewrite (H n) by lia. ring.
Qed.

Lemma matmul_assoc (M N P : matrix A) :
  mat_eq (mm (mm M N) P) (mm M (mm N P)).
Proof.
  repeat split. intros i j _ _. simpl.
  rewrite (bigsum_ext _ _ (fun l => sum (ncols M)
             (fun k => entry M i k * (entry N k l * entry P l j)))).
  2: { intros l _. rewrite <- bigsum_scale_r. apply bigsum_ext. intros; ring. }
  rewrite bigsum_swap. apply bigsum_ext. intros k _.
  now rewrite bigsum_scale_l.
Qed.

Lemma matmul_identity_r (M : matrix A) :
  mat_eq (mm M (identity rO rI (ncols M))) M.
Proof.
  repeat split. intros i j _ Hj. simpl in *.
  rewrite (bigsum_single _ j); auto.
  - rewrite Nat.eqb_refl. ring.
  - intros k _ Hk. apply Nat.eqb_neq in Hk. rewrite Hk. ring.
Qed.

Lemma matmul_identity_l (M : matrix A) :
  mat_eq (mm (identity rO rI (nrows M)) M) M.
Proof.
  repeat split. intros i j Hi _. simpl in *.
  rewrite (bigsum_single _ i); auto.
  - rewrite Nat.eqb_refl. ring.
  - intros k _ Hk. apply Nat.eqb_neq in Hk. rewrite Nat.eqb_sym, Hk. ring.
Qed.

(** Multiplying by a diagonal matrix on the right scales the columns. *)
Lemma matmul_diag_r (M : matrix A) (v : list A) i j :
  ncols M = length v -> (j < length v)%nat ->
  entry (mm M (diag rO v)) i j = entry M i j * nth j v 0.
Proof.
  intros Hc Hj. simpl. rewrite Hc.
  rewrite (bigsum_single _ j); auto.
  - now rewrite Nat.eqb_refl.
  - intros k _ Hk. apply Nat.eqb_neq in Hk. rewrite Hk. ring.
Qed.

(** The product only reads the entries of its operands inside their shapes. *)
Lemma matmul_ext (M M' N N' : matrix A) :
  mat_eq M M' -> mat_eq N N' -> ncols M = nrows N ->
  mat_eq (mm M N) (mm M' N').
Proof.
  intros (Hr & Hc & He) (Hr' & Hc' & He') Hs.
  repeat split; auto. simpl. intros i j Hi Hj.
  rewrite <- Hc. apply bigsum_ext. intros k Hk.
  rewrite He, He' by lia. reflexivity.
Qed.

(** Whatever order [multi_dot] picks, the product is the same. *)
Lemma multi_dot3_eq (M N P : matrix A) :
  mat_eq (multi_dot3 rO radd rmul M N P) (mm (mm M N) P).
Proof.
  unfold multi_dot3. destruct (_ <? _).
  - apply mat_eq_refl.
  - apply mat_eq_sym, matmul_assoc.
Qed.

End RingFacts.

(** ** Real scalars *)

Lemma Rleb_le (x y : R) : Rleb x y = true <-> (x <= y)%R.
Proof. unfold Rleb. destruct (Rle_dec x y); split; auto; discriminate. Qed.

Lemma Rleb_total (x y : R) : Rleb x y = true \/ Rleb y x = true.
Proof. rewrite !Rleb_le. lra. Qed.

Lemma Rleb_trans (x y z : R) : Rleb x y = true -> Rleb y z = true -> Rleb x z = true.
Proof. rewrite !Rleb_le. lra. Qed.

Lemma gtb_Rleb (x y : R) : gtb Rleb x y = true <-> (x > y)%R.
Proof.
  unfold gtb. rewrite negb_true_iff, <- not_true_iff_false, Rleb_le. lra.
Qed.

Lemma multi_dot3_nrows {A} (o : A) add mul (M N P : matrix A) :
  nrows (multi_dot3 o add mul M N P) = nrows M.
Proof. unfold multi_dot3. destruct (_ <? _); reflexivity. Qed.

Lemma multi_dot3_ncols {A} (o : A) add mul (M N P : matrix A) :
  ncols (multi_dot3 o add mul M N P) = ncols P.
Proof. unfold multi_dot3. destruct (_ <? _); reflexivity. Qed.

Lemma Rbigsum_ext n (f g : nat -> R) :
  (forall k, k < n -> f k = g k) -> Rbigsum n f = Rbigsum n g.
Proof. intros; eapply bigsum_ext; try exact RTheory; eassumption. Qed.

Lemma Rbigsum_scale_l n c (f : nat -> R) :
  Rbigsum n (fun k => (c * f k)%R) = (c * Rbigsum n f)%R.
Proof. intros; eapply bigsum_scale_l; try exact RTheory; eassumption. Qed.

Lemma Rbigsum_scale_r n c (f : nat -> R) :
  Rbigsum n (fun k => (f k * c)%R) = (Rbigsum n f * c)%R.
Proof. intros; eapply bigsum_scale_r; try exact RTheory; eassumption. Qed.

Lemma Rbigsum_swap n m (f : nat -> nat -> R) :
  Rbigsum n (fun i => Rbigsum m (fun j => f i j))
  = Rbigsum m (fun j => Rbigsum n (fun i => f i j)).
Proof. intros; eapply bigsum_swap; try exact RTheory; eassumption. Qed.

Lemma Rbigsum_single n j (f : nat -> R) :
  j < n -> (forall k, k < n -> k <> j -> f k = 0%R) -> Rbigsum n f = f j.
Proof. intros; eapply bigsum_single; try exact RTheory; eassumption. Qed.

Lemma Rmatmul_identity_r (M : matrix R) :
  mat_eq (Rmatmul M (Ridentity (ncols M))) M.
Proof. intros; eapply matmul_identity_r; try exact RTheory; eassumption. Qed.

Lemma Rmatmul_diag_r (M : matrix R) (v : list R) i j :
  ncols M = length v -> j < length v ->
  entry (Rmatmul M (Rdiag v)) i j = (entry M i j * nth j v 0)%R.
Proof. intros; eapply matmul_diag_r; try exact RTheory; eassumption. Qed.

Lemma Rmatmul_ext (M M' N N' : matrix R) :
  mat_eq M M' -> mat_eq N N' -> ncols M = nrows N ->
  mat_eq (Rmatmul M N) (Rmatmul M' N').
Proof. intros; eapply matmul_ext; try exact RTheory; eassumption. Qed.

Lemma Rmulti_dot3_eq (M N P : matrix R) :
  mat_eq (Rmulti_dot3 M N P) (Rmatmul (Rmatmul M N) P).
Proof. intros; eapply multi_dot3_eq; try exact RTheory; eassumption. Qed.

(** ** Single-step prediction *)

(** C6: with [num_steps = 1] the power of the small operator is its zeroth
    power, the identity, and the prediction is the direct linear readout
    [phi_Xin @ U @ (U.T @ phi_X.T @ obs_train_Y / n_train)]. *)
Theorem predict_single_step
        (inv : matrix R -> exn + matrix R)
        (d r m n p : nat) (U C_XY phi_Xin phi_X obs_train_Y : matrix R) :
  predict_shapes d r m n p U C_XY phi_Xin phi_X obs_train_Y ->
  0 < n ->
  matrix_power 0%R 1%R Rplus Rmult inv (Rmulti_dot3 (Rtranspose U) C_XY U) (1 - 1)
  = inr (Ridentity r)
  /\ exists Y,
      predict inv 1 U C_XY phi_Xin phi_X obs_train_Y = ret Y
      /\ mat_eq Y (direct_linear_readout U phi_Xin phi_X obs_train_Y).
Proof.
  intros (HU1 & HU2 & _ & _ & _ & _ & Hn & _) Hpos.
  assert (Hpow : matrix_power 0%R 1%R Rplus Rmult inv
                   (Rmulti_dot3 (Rtranspose U) C_XY U) (1 - 1)
                 = inr (Ridentity r)).
  { unfold matrix_power. rewrite multi_dot3_nrows, multi_dot3_ncols. simpl.
    rewrite HU2, Nat.eqb_refl. reflexivity. }
  split; [exact Hpow|].
  unfold predict. rewrite Hn.
  replace (n =? 0) with false by (symmetry; apply Nat.eqb_neq; lia).
  rewrite bind_ret, Hpow, bind_lift_inr.
  eexists. split; [reflexivity|].
  eapply mat_eq_trans; [apply Rmulti_dot3_eq|].
  unfold direct_linear_readout.
  apply Rmatmul_ext.
  - rewrite <- HU2. apply (Rmatmul_identity_r (Rmatmul phi_Xin U)).
  - destruct (Rmulti_dot3_eq (Rtranspose U) (Rtranspose phi_X) obs_train_Y)
      as (Hr & Hc & He).
    repeat split; simpl; auto.
    intros i j Hi Hj. simpl in *. rewrite He by assumption.
    rewrite Hn. reflexivity.
  - simpl. rewrite multi_dot3_nrows. simpl. congruence.
Qed.

(** ** The principal-component fits *)

Lemma bind_inr_ret {X Y} (lg : list log_record) (x : X) (f : X -> Y) :
  bind (lg, inr x) (fun x => ret (f x)) = (lg, inr (f x)).
Proof. unfold bind, ret. now rewrite app_nil_r. Qed.

Lemma assert_true (b : bool) (a : assertion) X (k : comp X) :
  b = true -> (assert_ b a ;;; k) = k.
Proof. intros ->. unfold assert_. apply bind_ret. Qed.

Lemma assert_false (b : bool) (a : assertion) X (k : comp X) :
  b = false -> (assert_ b a ;;; k) = raise (AssertionError a).
Proof. intros ->. reflexivity. Qed.

(** The scale factors of the principal-component fits, padded with zeros. *)
Lemma padded_scale_length (S : list R) (rank : nat) :
  length S <= rank ->
  length (map rsqrt S ++ repeat 0%R (rank - length S)) = rank.
Proof. intros H. rewrite length_app, length_map, repeat_length. lia. Qed.

(** What the truncation returns on real scalars. *)
Lemma rank_reveal_real (values : list R) (vectors : matrix R) rank rcond :
  rank <= length values -> ncols vectors = length values ->
  let top := topk 0%R Rleb values rank in
  let kept := filter (fun s => gtb Rleb s rcond) (tk_values top) in
  exists V,
    _rank_reveal 0%R Rleb values vectors rank rcond
    = ((if length kept =? rank then []
        else [Warning (length kept) rank (rank - length kept)]),
       inr (kept, V))
    /\ nrows V = nrows vectors /\ ncols V = rank
    /\ (forall i p, p < length kept ->
                    entry V i p = entry vectors i (nth p (tk_indices top) 0))
    /\ (forall i p, length kept <= p < rank -> entry V i p = 0%R)
    /\ (forall p, p < rank ->
                  gtb Rleb (nth p (tk_values top) 0%R) rcond = (p <? length kept)).
Proof.
  intros Hr Hc.
  exact (rank_reveal_run R 0%R Rleb Rleb_total Rleb_trans values vectors rank rcond Hr Hc).
Qed.

Section PrincipalComponentFacts.

Variable eigh : matrix R -> option (matrix R) -> exn + (list R * matrix R).
Variable eigsh : matrix R -> nat -> option (matrix R) -> exn + (list R * matrix R).

Lemma fit_pcr_rank_too_high C_X tikhonov_reg rank svd_solver rcond :
  nrows C_X < rank ->
  fit_principal_component_regression eigh eigsh C_X tikhonov_reg (Some rank)
                                     svd_solver rcond
  = raise (AssertionError (RankTooHigh (nrows C_X))).
Proof.
  intros H. unfold fit_principal_component_regression.
  apply assert_false. apply Nat.leb_gt. exact H.
Qed.

Lemma fit_pcr_after_solver C_X tikhonov_reg rank svd_solver rcond w V0 :
  rank <= nrows C_X ->
  (if String.eqb svd_solver "arnoldi"
   then eigsh (Rmadd C_X (Rsmul tikhonov_reg (Ridentity (nrows C_X)))) rank None
   else eigh (Rmadd C_X (Rsmul tikhonov_reg (Ridentity (nrows C_X)))) None)
  = inr (w, V0) ->
  fit_principal_component_regression eigh eigsh C_X tikhonov_reg (Some rank)
                                     svd_solver rcond
  = ('(values, vectors) <- _rank_reveal 0%R Rleb w V0 rank rcond ;;
     ret (Rmatmul vectors
                  (Rdiag (map rsqrt values ++ repeat 0%R (rank - length values))))).
Proof.
  intros Hr Hs. unfold fit_principal_component_regression.
  rewrite assert_true by (apply Nat.leb_le; exact Hr).
  rewrite Hs, bind_lift_inr. reflexivity.
Qed.

Lemma fit_pcr_solver_error C_X tikhonov_reg rank svd_solver rcond e :
  rank <= nrows C_X ->
  (if String.eqb svd_solver "arnoldi"
   then eigsh (Rmadd C_X (Rsmul tikhonov_reg (Ridentity (nrows C_X)))) rank None
   else eigh (Rmadd C_X (Rsmul tikhonov_reg (Ridentity (nrows C_X)))) None)
  = inl e ->
  fit_principal_component_regression eigh eigsh C_X tikhonov_reg (Some rank)
                                     svd_solver rcond
  = raise e.
Proof.
  intros Hr Hs. unfold fit_principal_component_regression.
  rewrite assert_true by (apply Nat.leb_le; exact Hr).
  rewrite Hs. reflexivity.
Qed.

(** The whole fit, once the solver has returned at least [rank] eigenpairs. *)
Lemma fit_pcr_run C_X tikhonov_reg rank svd_solver rcond w V0 :
  rank <= nrows C_X ->
  (if String.eqb svd_solver "arnoldi"
   then eigsh (Rmadd C_X (Rsmul tikhonov_reg (Ridentity (nrows C_X)))) rank None
   else eigh (Rmadd C_X (Rsmul tikhonov_reg (Ridentity (nrows C_X)))) None)
  = inr (w, V0) ->
  rank <= length w -> ncols V0 = length w ->
  let top := topk 0%R Rleb w rank in
  let kept := filter (fun s => gtb Rleb s rcond) (tk_values top) in
  exists V,
    _rank_reveal 0%R Rleb w V0 rank rcond
    = ((if length kept =? rank then []
        else [Warning (length kept) rank (rank - length kept)]),
       inr (kept, V))
    /\ fit_principal_component_regression eigh eigsh C_X tikhonov_reg (Some rank)
                                          svd_solver rcond
       = ((if length kept =? rank then []
           else [Warning (length kept) rank (rank - length kept)]),
          inr (Rmatmul V (Rdiag (map rsqrt kept
                                     ++ repeat 0%R (rank - length kept)))))
    /\ length kept <= rank
    /\ nrows V = nrows V0 /\ ncols V = rank
    /\ (forall i p, p < length kept ->
                    entry V i p = entry V0 i (nth p (tk_indices top) 0))
    /\ (forall i p, length kept <= p < rank -> entry V i p = 0%R).
Proof.
  intros Hr Hs Hw Hc top kept.
  destruct (rank_reveal_real w V0 rank rcond Hw Hc) as (V & Hrun & Hn & Hm & Hk & Hz & _).
  fold top in Hrun, Hk, Hz. fold kept in Hrun, Hk, Hz.
  exists V. split; [exact Hrun|]. split.
  { rewrite (fit_pcr_after_solver _ _ _ _ _ _ _ Hr Hs), Hrun.
    apply (bind_inr_ret _ (kept, V)
             (fun x => Rmatmul (snd x)
                         (Rdiag (map rsqrt (fst x)
                                     ++ repeat 0%R (rank - length (fst x)))))). }
  split.
  { unfold kept. etransitivity; [apply filter_length_le|].
    unfold top. rewrite topk_values_eq, length_map.
    rewrite topk_indices_length. lia. }
  auto.
Qed.

End PrincipalComponentFacts.

Section RandomizedPrincipalComponentFacts.

Variable ambient : Type.
Variable random_state : Type.
Variable seeded_random_state : Z -> random_state.
Variable global_random_state : ambient -> random_state.
Variable randomized_svd_from :
  random_state -> matrix R -> nat -> nat -> nat ->
  exn + (matrix R * list R * matrix R).

Local Abbreviation fit_rand_pcr :=
  (fit_rand_principal_component_regression
     seeded_random_state global_random_state randomized_svd_from).
Local Abbreviation rsvd :=
  (randomized_svd seeded_random_state global_random_state randomized_svd_from).

Lemma fit_rand_pcr_rank_too_high env C_X tikhonov_reg rank n_oversamples
      iterated_power rcond rng_seed :
  nrows C_X < rank ->
  fit_rand_pcr env C_X tikhonov_reg (Some rank) n_oversamples iterated_power
               rcond rng_seed
  = raise (AssertionError (RankTooHigh (nrows C_X))).
Proof.
  intros H. unfold fit_rand_principal_component_regression.
  apply assert_false. apply Nat.leb_gt. exact H.
Qed.

Lemma fit_rand_pcr_solver_error env C_X tikhonov_reg rank n_oversamples
      iterated_power rcond rng_seed e :
  rank <= nrows C_X ->
  rsvd env (Rmadd C_X (Rsmul tikhonov_reg (Ridentity (nrows C_X)))) rank
       n_oversamples iterated_power rng_seed
  = inl e ->
  fit_rand_pcr env C_X tikhonov_reg (Some rank) n_oversamples iterated_power
               rcond rng_seed
  = raise e.
Proof.
  intros Hr Hs. unfold fit_rand_principal_component_regression.
  rewrite assert_true by (apply Nat.leb_le; exact Hr).
  rewrite Hs. reflexivity.
Qed.

Lemma fit_rand_pcr_run env C_X tikhonov_reg rank n_oversamples iterated_power
      rcond rng_seed w V0 Vt :
  rank <= nrows C_X ->
  rsvd env (Rmadd C_X (Rsmul tikhonov_reg (Ridentity (nrows C_X)))) rank
       n_oversamples iterated_power rng_seed
  = inr (V0, w, Vt) ->
  rank <= length w -> ncols V0 = length w ->
  let top := topk 0%R Rleb w rank in
  let kept := filter (fun s => gtb Rleb s rcond) (tk_values top) in
  exists V,
    fit_rand_pcr env C_X tikhonov_reg (Some rank) n_oversamples iterated_power
                 rcond rng_seed
    = ((if length kept =? rank then []
        else [Warning (length kept) rank (rank - length kept)]),
       inr (Rmatmul V (Rdiag (map rsqrt kept
                                  ++ repeat 0%R (rank - length kept)))))
    /\ length kept <= rank
    /\ nrows V = nrows V0 /\ ncols V = rank.
Proof.
  intros Hr Hs Hw Hc top kept.
  destruct (rank_reveal_real w V0 rank rcond Hw Hc) as (V & Hrun & Hn & Hm & _).
  fold top in Hrun. fold kept in Hrun.
  exists V. split.
  { unfold fit_rand_principal_component_regression.
    rewrite assert_true by (apply Nat.leb_le; exact Hr).
    rewrite Hs, bind_lift_inr. cbv iota beta. rewrite Hrun.
    apply (bind_inr_ret _ (kept, V)
             (fun x => Rmatmul (snd x)
                         (Rdiag (map rsqrt (fst x)
                                     ++ repeat 0%R (rank - length (fst x)))))). }
  split; [|auto].
  unfold kept. etransitivity; [apply filter_length_le|].
  unfold top. rewrite topk_values_eq, length_map, topk_indices_length. lia.
Qed.

End RandomizedPrincipalComponentFacts.

(** ** Preconditions, defaults and reproducibility of the fits *)

Section FitterClaims.

Variable eigh : matrix R -> option (matrix R) -> exn + (list R * matrix R).
Variable eigsh : matrix R -> nat -> option (matrix R) -> exn + (list R * matrix R).
Variable solve : matrix R -> matrix R -> exn + matrix R.
Variable ambient : Type.
Variable generator : Type.
Variable seeded_generator : Z -> generator.
Variable fresh_entropy : ambient -> Z.
Variable standard_normal : generator -> nat * nat -> matrix R.
Variable random_state : Type.
Variable seeded_random_state : Z -> random_state.
Variable global_random_state : ambient -> random_state.
Variable randomized_svd_from :
  random_state -> matrix R -> nat -> nat -> nat ->
  exn + (matrix R * list R * matrix R).

Local Abbreviation fit_pcr := (fit_principal_component_regression eigh eigsh).
Local Abbreviation fit_rand_pcr :=
  (fit_rand_principal_component_regression
     seeded_random_state global_random_state randomized_svd_from).
Local Abbreviation fit_rand_rrr :=
  (fit_rand_reduced_rank_regression
     eigh solve seeded_generator fresh_entropy standard_normal).
Local Abbreviation rsvd :=
  (randomized_svd seeded_random_state global_random_state randomized_svd_from).
Local Abbreviation regularized C_X tikhonov_reg :=
  (Rmadd C_X (Rsmul tikhonov_reg (Ridentity (nrows C_X)))).

(** C3, amended: the two principal-component fits fail the assertion
    "Rank too high" as soon as the requested rank exceeds the dimension,
    whatever the solvers would do.  No check of the rank from below, and none
    of the sign of the Tikhonov parameter, comes before the solver: for
    every rank from 0 to the dimension and every parameter the solver is
    called, and its error is the error of the fit; for every rank from 1 to
    the dimension and every parameter the fit returns a matrix of [rank]
    columns once the solver has returned at least [rank] eigenpairs.  What a
    rank below 1 leads to once the solver has answered is not stated. *)
Theorem pcr_rank_is_checked_first :
  (forall C_X tikhonov_reg rank svd_solver rcond,
      nrows C_X < rank ->
      fit_pcr C_X tikhonov_reg (Some rank) svd_solver rcond
      = raise (AssertionError (RankTooHigh (nrows C_X))))
  /\ (forall env C_X tikhonov_reg rank n_oversamples iterated_power rcond rng_seed,
         nrows C_X < rank ->
         fit_rand_pcr env C_X tikhonov_reg (Some rank) n_oversamples
                      iterated_power rcond rng_seed
         = raise (AssertionError (RankTooHigh (nrows C_X))))
  /\ (forall C_X tikhonov_reg rank svd_solver rcond,
         rank <= nrows C_X ->
         (forall e,
             (if String.eqb svd_solver "arnoldi"
              then eigsh (regularized C_X tikhonov_reg) rank None
              else eigh (regularized C_X tikhonov_reg) None) = inl e ->
             fit_pcr C_X tikhonov_reg (Some rank) svd_solver rcond = raise e)
         /\ (1 <= rank ->
             forall w V0,
               (if String.eqb svd_solver "arnoldi"
                then eigsh (regularized C_X tikhonov_reg) rank None
                else eigh (regularized C_X tikhonov_reg) None) = inr (w, V0) ->
               rank <= length w -> ncols V0 = length w ->
               exists lg U,
                 fit_pcr C_X tikhonov_reg (Some rank) svd_solver rcond
                 = (lg, inr U)
                 /\ nrows U = nrows V0 /\ ncols U = rank))
  /\ (forall env C_X tikhonov_reg rank n_oversamples iterated_power rcond rng_seed,
         rank <= nrows C_X ->
         (forall e,
             rsvd env (regularized C_X tikhonov_reg) rank n_oversamples
                  iterated_power rng_seed = inl e ->
             fit_rand_pcr env C_X tikhonov_reg (Some rank) n_oversamples
                          iterated_power rcond rng_seed = raise e)
         /\ (1 <= rank ->
             forall w V0 Vt,
               rsvd env (regularized C_X tikhonov_reg) rank n_oversamples
                    iterated_power rng_seed = inr (V0, w, Vt) ->
               rank <= length w -> ncols V0 = length w ->
               exists lg U,
                 fit_rand_pcr env C_X tikhonov_reg (Some rank) n_oversamples
                              iterated_power rcond rng_seed
                 = (lg, inr U)
                 /\ nrows U = nrows V0 /\ ncols U = rank)).
Proof.
  split; [|split; [|split]].
  - intros. now apply fit_pcr_rank_too_high.
  - intros. now apply fit_rand_pcr_rank_too_high.
  - intros C_X reg rank svd_solver rcond Hr. split.
    + intros e Hs. now apply fit_pcr_solver_error.
    + intros _ w V0 Hs Hw Hc.
      destruct (fit_pcr_run eigh eigsh C_X reg rank svd_solver rcond w V0
                  Hr Hs Hw Hc) as (V & _ & Hfit & Hk & HnV & _).
      eexists. eexists. split; [exact Hfit|]. simpl.
      split; [exact HnV|]. now apply padded_scale_length.
  - intros env C_X reg rank n_oversamples iterated_power rcond rng_seed Hr. split.
    + intros e Hs. now apply fit_rand_pcr_solver_error.
    + intros _ w V0 Vt Hs Hw Hc.
      destruct (fit_rand_pcr_run _ _ _ _ _ env C_X reg rank n_oversamples
                  iterated_power rcond rng_seed w V0 Vt Hr Hs Hw Hc)
        as (V & Hfit & Hk & HnV & _).
      eexists. eexists. split; [exact Hfit|]. simpl.
      split; [exact HnV|]. now apply padded_scale_length.
Qed.

(** C9: a rank left out is the dimension of [C_X], in the exact and in the
    randomized principal-component fit, and the matrix returned is then
    square of that dimension. *)
Theorem pcr_rank_defaults_to_dimension
        (env : ambient) (C_X : matrix R) (tikhonov_reg : R) (svd_solver : string)
        (n_oversamples iterated_power : nat) (rcond : R) (rng_seed : option Z) :
  let d := nrows C_X in
  fit_pcr C_X tikhonov_reg None svd_solver rcond
  = fit_pcr C_X tikhonov_reg (Some d) svd_solver rcond
  /\ fit_rand_pcr env C_X tikhonov_reg None n_oversamples iterated_power rcond rng_seed
     = fit_rand_pcr env C_X tikhonov_reg (Some d) n_oversamples iterated_power
                    rcond rng_seed
  /\ (forall w V0,
         (if String.eqb svd_solver "arnoldi"
          then eigsh (regularized C_X tikhonov_reg) d None
          else eigh (regularized C_X tikhonov_reg) None) = inr (w, V0) ->
         nrows V0 = d -> ncols V0 = length w -> d <= length w ->
         exists lg U,
           fit_pcr C_X tikhonov_reg None svd_solver rcond = (lg, inr U)
           /\ nrows U = d /\ ncols U = d)
  /\ (forall w V0 Vt,
         rsvd env (regularized C_X tikhonov_reg) d n_oversamples iterated_power
              rng_seed = inr (V0, w, Vt) ->
         nrows V0 = d -> ncols V0 = length w -> d <= length w ->
         exists lg U,
           fit_rand_pcr env C_X tikhonov_reg None n_oversamples iterated_power
                        rcond rng_seed = (lg, inr U)
           /\ nrows U = d /\ ncols U = d).
Proof.
  intros d. split; [reflexivity|]. split; [reflexivity|]. split.
  - intros w V0 Hs Hn Hc Hw.
    destruct (fit_pcr_run eigh eigsh C_X tikhonov_reg d svd_solver rcond w V0
                (le_n _) Hs Hw Hc) as (V & _ & Hfit & Hk & HnV & _).
    eexists. eexists. split; [exact Hfit|]. simpl.
    split; [congruence|]. now apply padded_scale_length.
  - intros w V0 Vt Hs Hn Hc Hw.
    destruct (fit_rand_pcr_run _ _ _ _ _ env C_X tikhonov_reg d n_oversamples
                iterated_power rcond rng_seed w V0 Vt (le_n _) Hs Hw Hc)
      as (V & Hfit & Hk & HnV & _).
    eexists. eexists. split; [exact Hfit|]. simpl.
    split; [congruence|]. now apply padded_scale_length.
Qed.


End FitterClaims.

(** Without a seed the result of the randomized reduced-rank fit depends on
    the entropy the environment supplies. *)
Lemma unseeded_fit_depends_on_environment :
  fit_rand_reduced_rank_regression (eigenpair_eigh 1 1) example_solve
    (fun z => z) example_fresh_entropy example_standard_normal
    true (one_by_one 1) (one_by_one 1) 1 1 0 0 None
  <> fit_rand_reduced_rank_regression (eigenpair_eigh 1 1) example_solve
       (fun z => z) example_fresh_entropy example_standard_normal
       false (one_by_one 1) (one_by_one 1) 1 1 0 0 None.
Proof.
  unfold fit_rand_reduced_rank_regression. simpl power_iterations.
  unfold example_solve, eigenpair_eigh.
  unfold bind, lift, ret, take_cols. simpl.
  intros H. injection H as H.
  apply (f_equal (fun f => f 0 0)) in H. simpl in H.
  replace (0 + (0 + 1 * (0 + 1 * 1)) * 1)%R with 1%R in H by lra.
  replace (0 + (0 + 1 * (0 + -1 * -1)) * 1)%R with 1%R in H by lra.
  rewrite sqrt_1 in H. unfold rinv in H. rewrite Rinv_1 in H. lra.
Qed.

(** ** The fits on one by one arrays *)

Lemma gtb_Rleb_true (x y : R) : (y < x)%R -> gtb Rleb x y = true.
Proof. intros H. apply gtb_Rleb. lra. Qed.

Lemma Rleb_true (x y : R) : (x <= y)%R -> Rleb x y = true.
Proof. apply Rleb_le. Qed.

Lemma pcr_rank_is_checked_first_witness :
  fit_principal_component_regression failing_eigh failing_eigsh
    (one_by_one 2) 0 (Some 2) "arnoldi" default_rcond
  = raise (AssertionError (RankTooHigh 1))
  /\ fit_principal_component_regression failing_eigh failing_eigsh
       (one_by_one 2) (-1) (Some 0) "arnoldi" default_rcond
     = raise LinAlgError
  /\ exists lg U,
      fit_principal_component_regression (eigenpair_eigh 1 1) failing_eigsh
        (one_by_one 2) (-1) (Some 1) "full" default_rcond
      = (lg, inr U)
      /\ nrows U = 1 /\ ncols U = 1.
Proof.
  destruct (pcr_rank_is_checked_first failing_eigh failing_eigsh
              unit unit (fun _ => tt) (fun _ => tt)
              (fun _ _ _ _ _ => inl LinAlgError)) as (Ha & _ & Hb & _).
  destruct (pcr_rank_is_checked_first (eigenpair_eigh 1 1) failing_eigsh
              unit unit (fun _ => tt) (fun _ => tt)
              (fun _ _ _ _ _ => inl LinAlgError)) as (_ & _ & Hc & _).
  split; [|split].
  - apply (Ha (one_by_one 2) 0%R 2 "arnoldi"%string default_rcond). simpl. lia.
  - destruct (Hb (one_by_one 2) (-1)%R 0 "arnoldi"%string default_rcond)
      as [He _]; [simpl; lia|].
    apply He. reflexivity.
  - destruct (Hc (one_by_one 2) (-1)%R 1 "full"%string default_rcond)
      as [_ Hok]; [simpl; lia|].
    apply (Hok (le_n 1) [1%R] (one_by_one 1));
      [reflexivity|simpl; lia|reflexivity].
Defined.

(** C3 as stated fails: a negative Tikhonov parameter is accepted (the fit
    below returns a matrix and logs nothing); the reduced-rank fit, asked for
    a rank above the dimension, goes on to call the solver; and so does the
    principal-component fit asked for rank zero. *)
Lemma invalid_arguments_not_rejected :
  (exists U,
      fit_principal_component_regression (eigenpair_eigh 1 1) failing_eigsh
        (one_by_one 2) (-1) (Some 1) "full" default_rcond
      = ([], inr U))
  /\ fit_reduced_rank_regression failing_eigh failing_eigsh failing_spd_neg_pow
       (one_by_one 1) (one_by_one 1) 1 2 "full"
     = raise LinAlgError
  /\ fit_principal_component_regression failing_eigh failing_eigsh
       (one_by_one 1) 0 (Some 0) "full" default_rcond
     = raise LinAlgError.
Proof.
  split; [|split].
  - destruct (fit_pcr_run (eigenpair_eigh 1 1) failing_eigsh (one_by_one 2) (-1)%R
                1 "full"%string default_rcond [1%R] (one_by_one 1))
      as (V & _ & Hfit & _).
    + simpl. lia.
    + reflexivity.
    + simpl. lia.
    + reflexivity.
    + simpl in Hfit.
      rewrite (gtb_Rleb_true 1 default_rcond) in Hfit
        by (unfold default_rcond; lra).
      simpl in Hfit. eexists. exact Hfit.
  - unfold fit_reduced_rank_regression.
    destruct (Req_dec_T 1 0) as [H|_]; [lra|]. reflexivity.
  - reflexivity.
Qed.

Lemma pcr_rank_defaults_to_dimension_witness :
  exists lg U,
    fit_principal_component_regression (eigenpair_eigh 4 1) failing_eigsh
      (one_by_one 4) 0 None "full" default_rcond
    = (lg, inr U)
    /\ nrows U = 1 /\ ncols U = 1.
Proof.
  destruct (pcr_rank_defaults_to_dimension (eigenpair_eigh 4 1) failing_eigsh
              unit unit (fun _ => tt) (fun _ => tt)
              (fun _ _ _ _ _ => inl LinAlgError)
              tt (one_by_one 4) 0%R "full"%string 0 0 default_rcond None)
    as (_ & _ & H & _).
  apply (H [4%R] (one_by_one 1)).
  - reflexivity.
  - reflexivity.
  - reflexivity.
  - simpl. lia.
Defined.


Lemma predict_single_step_witness :
  exists Y,
    predict (fun _ => inl LinAlgError) 1
            example_U example_C_XY example_phi_Xin example_phi_X example_obs
    = ret Y
    /\ mat_eq Y (direct_linear_readout example_U example_phi_Xin
                                       example_phi_X example_obs).
Proof.
  apply (predict_single_step (fun _ => inl LinAlgError) 2 1 1 2 1
           example_U example_C_XY example_phi_Xin example_phi_X example_obs).
  - repeat split.
  - lia.
Defined.

(** ** Rescaling the columns of a matrix *)

Lemma nth_map_seq {X} (f : nat -> X) (n j : nat) (d : X) :
  j < n -> nth j (map f (seq 0 n)) d = f j.
Proof.
  intros H. rewrite (nth_indep _ d (f 0)) by (rewrite length_map, length_seq; lia).
  rewrite (map_nth f (seq 0 n) 0 j), seq_nth by lia. reflexivity.
Qed.

Lemma weighted_norm_length (V M : matrix R) : length (weighted_norm V M) = ncols V.
Proof. unfold weighted_norm. now rewrite length_map, length_seq. Qed.

Lemma weighted_norm_nth (V M : matrix R) (j : nat) :
  j < ncols V ->
  nth j (weighted_norm V M) 0%R
  = sqrt (entry (Rmatmul (Rmatmul (Rtranspose V) M) V) j j).
Proof. intros H. unfold weighted_norm. now rewrite nth_map_seq. Qed.

(** The quadratic form of [M] on the columns of [V @ diag(s)]. *)
Lemma quadratic_form_scaled (V M : matrix R) (s : list R) (j k : nat) :
  ncols V = length s -> j < length s -> k < length s ->
  entry (Rmatmul (Rmatmul (Rtranspose (Rmatmul V (Rdiag s))) M)
                 (Rmatmul V (Rdiag s))) j k
  = (nth j s 0 * nth k s 0
     * entry (Rmatmul (Rmatmul (Rtranspose V) M) V) j k)%R.
Proof.
  intros Hc Hj Hk.
  change (Rbigsum (ncols M)
            (fun b => (Rbigsum (nrows V)
                         (fun a => (entry (Rmatmul V (Rdiag s)) a j * entry M a b)%R)
                       * entry (Rmatmul V (Rdiag s)) b k)%R)
          = (nth j s 0 * nth k s 0
             * Rbigsum (ncols M)
                 (fun b => (Rbigsum (nrows V)
                              (fun a => (entry V a j * entry M a b)%R)
                            * entry V b k)%R))%R).
  rewrite <- Rbigsum_scale_l. apply Rbigsum_ext. intros b _.
  rewrite (Rmatmul_diag_r V s b k Hc Hk).
  rewrite (Rbigsum_ext _ _ (fun a => (nth j s 0 * (entry V a j * entry M a b))%R)).
  2: { intros a _. rewrite (Rmatmul_diag_r V s a j Hc Hj). ring. }
  rewrite Rbigsum_scale_l. ring.
Qed.

Lemma sqrt_nonzero_pos (x : R) : sqrt x <> 0%R -> (0 < x)%R.
Proof.
  intros H. destruct (Rlt_le_dec 0 x) as [Hx|Hx]; [exact Hx|].
  exfalso. apply H. now apply sqrt_neg_0.
Qed.

Lemma rinv_sqrt_normalizes (x : R) :
  (0 < x)%R -> (rinv (sqrt x) * rinv (sqrt x) * x = 1)%R.
Proof.
  intros Hx. unfold rinv.
  assert (Hs : sqrt x <> 0%R) by (apply Rgt_not_eq, sqrt_lt_R0; exact Hx).
  rewrite <- (sqrt_sqrt x) at 3 by lra. field. exact Hs.
Qed.

(** ** The regularized reduced-rank fit *)

Section ReducedRankFacts.

Variable eigh : matrix R -> option (matrix R) -> exn + (list R * matrix R).
Variable eigsh : matrix R -> nat -> option (matrix R) -> exn + (list R * matrix R).
Variable spd_neg_pow : matrix R -> R -> exn + matrix R.

Local Abbreviation fit_rrr := (fit_reduced_rank_regression eigh eigsh spd_neg_pow).
Local Abbreviation regularized C_X tikhonov_reg :=
  (Rmadd C_X (Rsmul tikhonov_reg (Ridentity (nrows C_X)))).

Lemma take_cols_topk_real (w : list R) (V0 : matrix R) (rank : nat) :
  ncols V0 = length w ->
  take_cols V0 (tk_indices (topk 0%R Rleb w rank))
  = inr (Matrix (nrows V0) (length (tk_indices (topk 0%R Rleb w rank)))
                (fun i j => entry V0 i (nth j (tk_indices (topk 0%R Rleb w rank)) 0))).
Proof. apply take_cols_topk. Qed.

Lemma fit_rrr_regularized_run C_X C_XY tikhonov_reg rank svd_solver w V0 V1 :
  tikhonov_reg <> 0%R ->
  (if String.eqb svd_solver "arnoldi"
   then eigsh (Rmatmul C_XY (Rtranspose C_XY)) (rank + 3)
              (Some (regularized C_X tikhonov_reg))
   else eigh (Rmatmul C_XY (Rtranspose C_XY))
             (Some (regularized C_X tikhonov_reg))) = inr (w, V0) ->
  take_cols V0 (tk_indices (topk 0%R Rleb w rank)) = inr V1 ->
  fit_rrr C_X C_XY tikhonov_reg rank svd_solver
  = ret (Rmatmul V1
           (Rdiag (map rinv (weighted_norm V1 (regularized C_X tikhonov_reg))))).
Proof.
  intros Hreg Hs Ht. unfold fit_reduced_rank_regression.
  destruct (Req_dec_T tikhonov_reg 0) as [E|_]; [contradiction|].
  rewrite Hs, bind_lift_inr. cbv iota beta.
  rewrite Ht, bind_lift_inr. reflexivity.
Qed.

(** C4, amended: the regularized reduced-rank fit truncates by plain top-k
    selection: it keeps the [rank] largest eigenvalues' vectors (all of them
    when fewer are available), tests no tolerance, logs nothing and pads
    nothing; it then divides every selected vector by its weighted norm under
    [C_X + tikhonov_reg * I], after which that norm is 1 wherever it was not
    zero. *)
Theorem regularized_rrr_selects_and_rescales
        C_X C_XY tikhonov_reg rank svd_solver w V0 :
  tikhonov_reg <> 0%R ->
  (if String.eqb svd_solver "arnoldi"
   then eigsh (Rmatmul C_XY (Rtranspose C_XY)) (rank + 3)
              (Some (regularized C_X tikhonov_reg))
   else eigh (Rmatmul C_XY (Rtranspose C_XY))
             (Some (regularized C_X tikhonov_reg))) = inr (w, V0) ->
  ncols V0 = length w ->
  let idx := tk_indices (topk 0%R Rleb w rank) in
  (length idx = Nat.min rank (length w) /\ NoDup idx /\
   forall i j, In i idx -> j < length w -> ~ In j idx ->
               (nth j w 0 <= nth i w 0)%R) /\
  exists V1 U,
    take_cols V0 idx = inr V1
    /\ fit_rrr C_X C_XY tikhonov_reg rank svd_solver = ([], inr U)
    /\ nrows U = nrows V0 /\ ncols U = Nat.min rank (length w)
    /\ forall j, j < ncols U ->
         let norm_j := nth j (weighted_norm V1 (regularized C_X tikhonov_reg)) 0%R in
         (forall i, entry U i j = (entry V0 i (nth j idx 0%nat) * / norm_j)%R)
         /\ (norm_j <> 0%R ->
             nth j (weighted_norm U (regularized C_X tikhonov_reg)) 0%R = 1%R).
Proof.
  intros Hreg Hs Hc idx.
  assert (Hlen : length idx = Nat.min rank (length w)).
  { unfold idx. apply topk_indices_length. }
  split.
  { split; [exact Hlen|]. split; [apply topk_indices_NoDup|].
    intros i j Hi Hj Hn. apply Rleb_le.
    now apply (topk_largest R 0%R Rleb Rleb_total Rleb_trans w rank). }
  pose proof (take_cols_topk_real w V0 rank Hc) as Ht. fold idx in Ht.
  eexists. eexists. split; [exact Ht|]. split.
  { apply (fit_rrr_regularized_run _ _ _ _ _ w V0 _ Hreg Hs Ht). }
  set (V1 := Matrix (nrows V0) (length idx) (fun i j => entry V0 i (nth j idx 0))).
  set (A := regularized C_X tikhonov_reg).
  set (s := map rinv (weighted_norm V1 A)).
  assert (Hs1 : ncols V1 = length s).
  { unfold s. now rewrite length_map, weighted_norm_length. }
  assert (Hls : length s = Nat.min rank (length w)).
  { rewrite <- Hs1. simpl. exact Hlen. }
  split; [reflexivity|]. split; [simpl; exact Hls|].
  intros j Hj. simpl in Hj. rewrite Hls in Hj.
  assert (Hjs : j < length s) by lia.
  assert (Esj : nth j s 0%R = rinv (nth j (weighted_norm V1 A) 0%R)).
  { unfold s. rewrite (nth_indep _ 0%R (rinv 0%R))
      by (rewrite length_map, weighted_norm_length; simpl; lia).
    apply (map_nth rinv). }
  cbv zeta. split.
  - intros i. rewrite (Rmatmul_diag_r V1 s i j Hs1 Hjs), Esj. reflexivity.
  - intros Hnz.
    rewrite weighted_norm_nth by (simpl; lia).
    rewrite (quadratic_form_scaled V1 A s j j Hs1 Hjs Hjs), Esj.
    rewrite weighted_norm_nth in * by (simpl; lia).
    rewrite rinv_sqrt_normalizes by (now apply sqrt_nonzero_pos).
    apply sqrt_1.
Qed.

End ReducedRankFacts.

Lemma fit_rrr_with_truncator_after_solver eigh eigsh C_X C_XY tikhonov_reg rank
      svd_solver rcond w V0 lg S V :
  (if String.eqb svd_solver "arnoldi"
   then eigsh (Rmatmul C_XY (Rtranspose C_XY)) (rank + 3)
              (Some (Rmadd C_X (Rsmul tikhonov_reg (Ridentity (nrows C_X)))))
   else eigh (Rmatmul C_XY (Rtranspose C_XY))
             (Some (Rmadd C_X (Rsmul tikhonov_reg (Ridentity (nrows C_X))))))
  = inr (w, V0) ->
  _rank_reveal 0%R Rleb w V0 rank rcond = (lg, inr (S, V)) ->
  fit_reduced_rank_regression_with_truncator eigh eigsh C_X C_XY tikhonov_reg rank
                                             svd_solver rcond
  = (lg, inr (Rmatmul V
                (Rdiag (map rinv
                          (weighted_norm V
                             (Rmadd C_X (Rsmul tikhonov_reg
                                               (Ridentity (nrows C_X))))))))).
Proof.
  intros Hs Hrun. unfold fit_reduced_rank_regression_with_truncator.
  rewrite Hs, bind_lift_inr. cbv iota beta. rewrite Hrun.
  apply (bind_inr_ret lg (S, V)
           (fun x => Rmatmul (snd x)
              (Rdiag (map rinv
                        (weighted_norm (snd x)
                           (Rmadd C_X (Rsmul tikhonov_reg
                                             (Ridentity (nrows C_X))))))))).
Qed.

(** C4 as stated fails: on an eigenvalue 0, below every tolerance, the
    regularized fit keeps the eigenvector (rescaled to weighted norm 1) and
    logs nothing, where a truncation by [_rank_reveal] warns and returns a
    zero column.  The solver's answer is an eigenpair of the problem: with
    [C_XY = 0] and [C_X + 3 I = 4] the value is 0 and the vector 1/2 has
    weighted norm 1. *)
Lemma regularized_rrr_does_not_truncate :
  (exists U,
      fit_reduced_rank_regression (eigenpair_eigh 0 (1/2)) failing_eigsh
        failing_spd_neg_pow (one_by_one 1) (one_by_one 0) 3 1 "full"
      = ([], inr U)
      /\ entry U 0 0 = (1 / 2)%R)
  /\ exists U',
      fit_reduced_rank_regression_with_truncator (eigenpair_eigh 0 (1/2))
        failing_eigsh (one_by_one 1) (one_by_one 0) 3 1 "full" default_rcond
      = ([Warning 0 1 1], inr U')
      /\ entry U' 0 0 = 0%R.
Proof.
  split.
  - eexists. split.
    + apply (fit_rrr_regularized_run (eigenpair_eigh 0 (1/2)) failing_eigsh
               failing_spd_neg_pow (one_by_one 1) (one_by_one 0) 3%R 1
               "full"%string [0%R] (one_by_one (1/2))).
      * lra.
      * reflexivity.
      * apply (take_cols_topk_real [0%R] (one_by_one (1/2)) 1). reflexivity.
    + simpl.
      replace (0 + (0 + 1 / 2 * (1 + 3 * 1)) * (1 / 2))%R with 1%R by lra.
      rewrite sqrt_1. unfold rinv. lra.
  - destruct (rank_reveal_real [0%R] (one_by_one (1/2)) 1 default_rcond)
      as (V & Hrun & _ & Hm & _ & Hz & _).
    + simpl. lia.
    + reflexivity.
    + simpl in Hrun, Hz. unfold gtb in Hrun, Hz.
      rewrite (Rleb_true 0 default_rcond) in Hrun, Hz
        by (unfold default_rcond; lra).
      simpl in Hrun, Hz.
      eexists. split.
      * apply (fit_rrr_with_truncator_after_solver (eigenpair_eigh 0 (1/2))
                 failing_eigsh (one_by_one 1) (one_by_one 0) 3%R 1 "full"%string
                 default_rcond [0%R] (one_by_one (1/2)) _ [] V);
          [reflexivity|exact Hrun].
      * simpl. rewrite Hm. simpl. rewrite (Hz 0 0) by lia. ring.
Qed.

Lemma regularized_rrr_selects_and_rescales_witness :
  exists U,
    fit_reduced_rank_regression (eigenpair_eigh 1 (1/2)) failing_eigsh
      failing_spd_neg_pow (one_by_one 1) (one_by_one 2) 3 1 "full"
    = ([], inr U)
    /\ nrows U = 1 /\ ncols U = 1.
Proof.
  destruct (regularized_rrr_selects_and_rescales (eigenpair_eigh 1 (1/2))
              failing_eigsh failing_spd_neg_pow (one_by_one 1) (one_by_one 2)
              3%R 1 "full"%string [1%R] (one_by_one (1/2)))
    as (_ & V1 & U & _ & Hfit & Hn & Hm & _).
  - lra.
  - reflexivity.
  - reflexivity.
  - exists U. auto.
Defined.

(** ** Complex scalars *)

Lemma Cleb_Cle (x y : complex) : Cleb x y = true <-> Cle x y.
Proof.
  unfold Cleb, Cle.
  destruct (Rlt_dec (re x) (re y)); [intuition|].
  destruct (Rlt_dec (re y) (re x)).
  - split; [discriminate|]. intros [H|[H _]]; lra.
  - rewrite Rleb_le. split; [intros H; right; split; [lra|exact H]|].
    intros [H|[_ H]]; [lra|exact H].
Qed.


















(** ** Spectral analysis *)

Lemma argsort_range {A} (leb : A -> A -> bool) (keys : list A) (i : nat) :
  In i (argsort leb keys) -> i < length keys.
Proof.
  intros H. apply (Permutation_in _ (argsort_perm A leb keys)) in H.
  apply in_seq in H. lia.
Qed.

Lemma argsort_length {A} (leb : A -> A -> bool) (keys : list A) :
  length (argsort leb keys) = length keys.
Proof.
  rewrite (Permutation_length (argsort_perm A leb keys)). apply length_seq.
Qed.

Lemma take_cols_argsort {A B} (leb : A -> A -> bool) (keys : list A) (M : matrix B) :
  ncols M = length keys ->
  take_cols M (argsort leb keys)
  = inr (Matrix (nrows M) (length (argsort leb keys))
                (fun i j => entry M i (nth j (argsort leb keys) 0))).
Proof.
  intros Hc. unfold take_cols.
  replace (forallb _ _) with true; [reflexivity|].
  symmetry. apply forallb_forall. intros j Hj.
  apply argsort_range in Hj. apply Nat.ltb_lt. lia.
Qed.


Section SpectralFacts.

Variable eig : matrix R -> exn + (list complex * matrix complex * matrix complex).

Lemma estimator_eig_run U C_XY w lv0 rv0 :
  eig (Rmulti_dot3 (Rtranspose U) C_XY U) = inr (w, lv0, rv0) ->
  ncols lv0 = length w -> ncols rv0 = length w ->
  let r_perm := argsort Cleb w in
  let l_perm := argsort Cleb (map Cconj w) in
  let rv_full := Cmatmul (to_complex U) rv0 in
  let X := Matrix (nrows rv_full) (length r_perm)
                  (fun i j => entry rv_full i (nth j r_perm 0)) in
  let rv := div_cols X (map RtoC (norm_axis0 X)) in
  let lv_full := Cmulti_dot3 (to_complex (Rtranspose C_XY)) (to_complex U) lv0 in
  let Y := Matrix (nrows lv_full) (length l_perm)
                  (fun i j => entry lv_full i (nth j l_perm 0)) in
  estimator_eig eig U C_XY
  = ret (index_list C0 w r_perm,
         div_cols Y (sum_axis0 C0 Cadd (hadamard Cmul Y rv)),
         rv).
Proof.
  intros He Hl Hr r_perm l_perm rv_full X rv lv_full Y.
  unfold estimator_eig. rewrite He, bind_lift_inr. cbv iota beta.
  rewrite (take_cols_argsort Cleb w (Cmatmul (to_complex U) rv0)) by exact Hr.
  rewrite bind_lift_inr.
  rewrite (take_cols_argsort Cleb (map Cconj w)
             (Cmulti_dot3 (to_complex (Rtranspose C_XY)) (to_complex U) lv0))
    by (rewrite multi_dot3_ncols, length_map; exact Hl).
  rewrite bind_lift_inr. reflexivity.
Qed.






End SpectralFacts.

(** The two permutations are not the same in general: for the eigenvalues
    [i, -i] the right eigenvectors are swapped and the left ones are not. *)
Lemma left_and_right_permutations_differ :
  argsort Cleb [Cplx 0 1; Cplx 0 (-1)] = [1; 0]
  /\ argsort Cleb (map Cconj [Cplx 0 1; Cplx 0 (-1)]) = [0; 1].
Proof.
  unfold argsort, sort_keys. simpl. split.
  - replace (Cleb (Cplx 0 1) (Cplx 0 (-1))) with false; [reflexivity|].
    symmetry. apply not_true_iff_false. rewrite Cleb_Cle. unfold Cle. simpl. lra.
  - replace (Cleb (Cconj (Cplx 0 1)) (Cconj (Cplx 0 (-1)))) with true; [reflexivity|].
    symmetry. rewrite Cleb_Cle. unfold Cle. simpl. lra.
Qed.



(** ** Weighted orthonormality of the principal-component fit *)

Lemma filter_keeps_all {X} (f : X -> bool) (l : list X) :
  (forall x, In x l -> f x = true) -> filter f l = l.
Proof.
  induction l as [|x l IH]; simpl; intros H; [reflexivity|].
  rewrite (H x) by auto. f_equal. apply IH. auto.
Qed.

Lemma rsqrt_normalizes (x : R) : (0 < x)%R -> (rsqrt x * rsqrt x * x = 1)%R.
Proof. apply rinv_sqrt_normalizes. Qed.

(** The quadratic form of [M] on two of its orthonormal eigenvectors. *)
Lemma eigen_quadratic_form (M V : matrix R) (w : list R) (p q : nat) :
  eigenpairs M w V -> p < length w -> q < length w ->
  Rbigsum (ncols M)
          (fun b => (Rbigsum (nrows V) (fun a => (entry V a p * entry M a b)%R)
                     * entry V b q)%R)
  = (nth q w 0 * (if p =? q then 1 else 0))%R.
Proof.
  intros (Hn & Hc & Heig & Hon) Hp Hq.
  rewrite (Rbigsum_ext _ _
             (fun b => Rbigsum (nrows V)
                         (fun a => (entry V a p * (entry M a b * entry V b q))%R))).
  2: { intros b _. rewrite <- Rbigsum_scale_r. apply Rbigsum_ext. intros; ring. }
  rewrite Rbigsum_swap.
  rewrite (Rbigsum_ext _ _
             (fun a => (nth q w 0 * (entry V a p * entry V a q))%R)).
  2: { intros a Ha. rewrite Rbigsum_scale_l, Heig by (try lia; exact Hq). ring. }
  rewrite Rbigsum_scale_l, Hon by assumption. reflexivity.
Qed.

Section WeightedOrthonormality.

Variable eigh : matrix R -> option (matrix R) -> exn + (list R * matrix R).
Variable eigsh : matrix R -> nat -> option (matrix R) -> exn + (list R * matrix R).

Local Abbreviation fit_pcr := (fit_principal_component_regression eigh eigsh).
Local Abbreviation regularized C_X tikhonov_reg :=
  (Rmadd C_X (Rsmul tikhonov_reg (Ridentity (nrows C_X)))).

(** C2: when the solver returns orthonormal eigenpairs of [C_X + lambda I] and
    every selected eigenvalue is above the (non-negative) tolerance, the
    principal-component fit returns [U] of shape [(d, rank)] with
    [U.T @ (C_X + lambda I) @ U] the identity; in particular its columns have
    norm 1.  This holds for every [lambda], zero or positive. *)
Theorem pcr_weighted_orthonormality
        d C_X tikhonov_reg rank svd_solver rcond w V0 :
  nrows C_X = d -> ncols C_X = d -> rank <= d -> (0 <= rcond)%R ->
  (if String.eqb svd_solver "arnoldi"
   then eigsh (regularized C_X tikhonov_reg) rank None
   else eigh (regularized C_X tikhonov_reg) None) = inr (w, V0) ->
  eigenpairs (regularized C_X tikhonov_reg) w V0 ->
  rank <= length w ->
  (forall i, In i (tk_indices (topk 0%R Rleb w rank)) -> (rcond < nth i w 0)%R) ->
  exists U,
    fit_pcr C_X tikhonov_reg (Some rank) svd_solver rcond = ([], inr U)
    /\ nrows U = d /\ ncols U = rank
    /\ mat_eq (Rmatmul (Rmatmul (Rtranspose U) (regularized C_X tikhonov_reg)) U)
              (Ridentity rank)
    /\ forall j, j < rank ->
         column_norm
           (Rmatmul (Rmatmul (Rtranspose U) (regularized C_X tikhonov_reg)) U) j
         = 1%R.
Proof.
  intros Hd1 Hd2 Hr Hrc Hs Heig Hw Habove.
  set (A := regularized C_X tikhonov_reg) in *.
  pose proof Heig as (HnV0 & HcV0 & _ & _).
  destruct (fit_pcr_run eigh eigsh C_X tikhonov_reg rank svd_solver rcond w V0
              (eq_ind_r (fun n => rank <= n) Hr Hd1) Hs Hw HcV0)
    as (V & _ & Hfit & _ & HnV & HmV & Hcols & _).
  set (idx := tk_indices (topk 0%R Rleb w rank)) in *.
  assert (Hidx : length idx = rank).
  { unfold idx. rewrite topk_indices_length. lia. }
  assert (Hkept : filter (fun s => gtb Rleb s rcond) (tk_values (topk 0%R Rleb w rank))
                  = map (fun i => nth i w 0%R) idx).
  { rewrite topk_values_eq. fold idx. apply filter_keeps_all.
    intros x Hx. apply in_map_iff in Hx. destruct Hx as (i & <- & Hi).
    apply gtb_Rleb_true. now apply Habove. }
  rewrite Hkept in Hfit, Hcols. rewrite length_map, Hidx in Hfit, Hcols.
  rewrite Nat.eqb_refl, Nat.sub_diag in Hfit. simpl repeat in Hfit.
  rewrite app_nil_r in Hfit.
  set (s := map rsqrt (map (fun i => nth i w 0%R) idx)) in *.
  assert (Hls : length s = rank) by (unfold s; now rewrite !length_map).
  assert (HVs : ncols V = length s) by congruence.
  (* the scale factor and the eigenvalue of column [j] *)
  assert (Hrange : forall j, j < rank -> nth j idx 0 < length w).
  { intros j Hj. apply (topk_indices_range R 0%R Rleb w rank).
    apply nth_In. fold idx. lia. }
  assert (Hsj : forall j, j < rank -> nth j s 0%R = rsqrt (nth (nth j idx 0) w 0%R)).
  { intros j Hj. unfold s.
    rewrite (nth_indep _ 0%R (rsqrt (nth 0 w 0%R)))
      by (rewrite !length_map; lia).
    rewrite (map_nth rsqrt). f_equal.
    apply (map_nth (fun i => nth i w 0%R) idx 0 j). }
  assert (Hpos : forall j, j < rank -> (0 < nth (nth j idx 0%nat) w 0)%R).
  { intros j Hj. apply Rle_lt_trans with rcond; [exact Hrc|].
    apply Habove. apply nth_In. fold idx. lia. }
  (* the entries of the Gram matrix *)
  assert (HG : forall j k, j < rank -> k < rank ->
             entry (Rmatmul (Rmatmul (Rtranspose (Rmatmul V (Rdiag s))) A)
                            (Rmatmul V (Rdiag s))) j k
             = if j =? k then 1%R else 0%R).
  { intros j k Hj Hk.
    rewrite (quadratic_form_scaled V A s j k HVs) by lia.
    change (entry (Rmatmul (Rmatmul (Rtranspose V) A) V) j k)
      with (Rbigsum (ncols A)
              (fun b => (Rbigsum (nrows V) (fun a => (entry V a j * entry A a b)%R)
                         * entry V b k)%R)).
    rewrite (Rbigsum_ext _ _
               (fun b => (Rbigsum (nrows V0)
                            (fun a => (entry V0 a (nth j idx 0%nat) * entry A a b)%R)
                          * entry V0 b (nth k idx 0%nat))%R)).
    2: { intros b _. rewrite HnV, (Hcols b k Hk). f_equal.
         apply Rbigsum_ext. intros a _. now rewrite (Hcols a j Hj). }
    rewrite (eigen_quadratic_form A V0 w _ _ Heig (Hrange j Hj) (Hrange k Hk)).
    rewrite !Hsj by assumption.
    destruct (Nat.eqb_spec j k) as [->|Hjk].
    - rewrite Nat.eqb_refl.
      set (x := nth (nth k idx 0) w 0%R).
      replace (rsqrt x * rsqrt x * (x * 1))%R with (rsqrt x * rsqrt x * x)%R by ring.
      apply rsqrt_normalizes. now apply Hpos.
    - replace (nth j idx 0 =? nth k idx 0) with false; [ring|].
      symmetry. apply Nat.eqb_neq. intros E. apply Hjk.
      apply (NoDup_nth idx 0); try lia; try exact E.
      apply topk_indices_NoDup. }
  eexists. split; [exact Hfit|].
  split; [simpl; rewrite HnV, HnV0; exact Hd1|]. split; [simpl; exact Hls|].
  split.
  - split; [simpl; exact Hls|]. split; [simpl; exact Hls|].
    intros j k Hj Hk. simpl nrows in Hj. simpl ncols in Hk.
    rewrite Hls in Hj, Hk. rewrite (HG j k Hj Hk). reflexivity.
  - intros j Hj. unfold column_norm. simpl nrows. rewrite Hls.
    rewrite (Rbigsum_single rank j).
    + rewrite (HG j j Hj Hj), Nat.eqb_refl.
      replace (1 * 1)%R with 1%R by ring. apply sqrt_1.
    + exact Hj.
    + intros i Hi Hij. rewrite (HG i j Hi Hj).
      replace (i =? j) with false by (symmetry; now apply Nat.eqb_neq). ring.
Qed.

End WeightedOrthonormality.

Lemma example_topk_indices : tk_indices (topk 0%R Rleb [2; 4]%R 1) = [1].
Proof.
  unfold topk, argsort, sort_keys. simpl.
  rewrite (Rleb_true 2 4) by lra. reflexivity.
Qed.

Lemma example_eigenpairs :
  eigenpairs (Rmadd example_C_X (Rsmul 1%R (Ridentity (nrows example_C_X))))
             [2; 4]%R (Ridentity 2).
Proof.
  split; [reflexivity|]. split; [reflexivity|]. split.
  - intros a i Ha Hi. simpl in Ha, Hi.
    destruct a as [|[|a]]; try lia; destruct i as [|[|i]]; try lia; simpl; lra.
  - intros i j Hi Hj. simpl in Hi, Hj.
    destruct i as [|[|i]]; try lia; destruct j as [|[|j]]; try lia; simpl; lra.
Qed.

Lemma pcr_weighted_orthonormality_witness :
  exists U,
    fit_principal_component_regression example_eigh failing_eigsh
      example_C_X 1 (Some 1) "full" default_rcond
    = ([], inr U)
    /\ nrows U = 2 /\ ncols U = 1
    /\ mat_eq (Rmatmul (Rmatmul (Rtranspose U)
                                (Rmadd example_C_X
                                       (Rsmul 1%R (Ridentity (nrows example_C_X)))))
                       U)
              (Ridentity 1).
Proof.
  destruct (pcr_weighted_orthonormality example_eigh failing_eigsh 2
              example_C_X 1%R 1 "full"%string default_rcond
              [2; 4]%R (Ridentity 2))
    as (U & Hfit & Hn & Hm & HG & _).
  - reflexivity.
  - reflexivity.
  - lia.
  - unfold default_rcond. lra.
  - reflexivity.
  - exact example_eigenpairs.
  - simpl. lia.
  - rewrite example_topk_indices. intros i [<-|[]]. simpl.
    unfold default_rcond. lra.
  - exists U. auto.
Defined.

(** ** Facts about context windows *)

Lemma wbind_wret {X Y : Type} (x : X) (k : X -> wcomp Y) :
  wbind (wret x) k = k x.
Proof. unfold wbind, wret. destruct (k x). reflexivity. Qed.

Lemma ndim_two_or_more {A : Type} (a : ndarray A) :
  2 <= ndim a -> exists n s1 rest, shape a = n :: s1 :: rest.
Proof.
  unfold ndim. destruct (shape a) as [|n [|s1 rest]]; simpl; try lia.
  intros _. exists n, s1, rest. reflexivity.
Qed.

(** What [check_contexts] hands to its length checks: contexts of at least
    three dimensions, whose first two axes are those of the argument. *)
Lemma check_contexts_run {A : Type} (contexts : ndarray A) (L : Z) (enforce : bool) :
  2 <= ndim contexts ->
  let w := if ndim contexts =? 2 then [TimeAxisAssumed (shape contexts)] else [] in
  let c := if ndim contexts =? 2 then newaxis_last contexts else contexts in
  let context_len := Z.of_nat (shape_at contexts 1) in
  check_contexts contexts (Some L) enforce =
  (w, if (enforce && (L <? context_len - 1)%Z)%bool
      then inl (WindowValueError (LookforwardNotOne (context_len - L)))
      else if (L >=? context_len)%Z
      then inl (WindowValueError (LookbackTooLong L))
      else if (L <? 1)%Z
      then inl (WindowValueError (LookbackTooShort L))
      else inr (ReturnedContexts c)).
Proof.
  intros Hdim. destruct (ndim_two_or_more contexts Hdim) as (n & s1 & rest & Hs).
  unfold check_contexts.
  destruct (Nat.ltb_spec (ndim contexts) 2) as [Hlt|_]; [lia|].
  assert (Hlen : forall c', (c' = newaxis_last contexts \/ c' = contexts) ->
                            shape_at c' 1 = shape_at contexts 1).
  { intros c' [->| ->]; [|reflexivity].
    unfold shape_at, newaxis_last. simpl. rewrite Hs. reflexivity. }
  simpl.
  destruct (ndim contexts =? 2) eqn:E2; unfold logger_warn, wbind, wret, wraise; simpl;
    rewrite ?(Hlen (newaxis_last contexts) (or_introl eq_refl));
    destruct (enforce && _)%bool; try reflexivity;
    destruct (_ >=? _)%Z; try reflexivity;
    destruct (_ <? 1)%Z; reflexivity.
Qed.

(** X1: [check_contexts] with a lookback length returns the contexts exactly
    when they have at least two dimensions, the lookback length is at least 1
    and less than the context length, and, when a lookforward window of
    length 1 is enforced, the lookback length is the context length minus 1.
    In every other case it raises [ValueError]; it never returns [True]. *)
Theorem check_contexts_accepts (A : Type) (contexts : ndarray A) (L : Z)
        (enforce : bool) :
  ((2 <= ndim contexts /\
    (1 <= L < Z.of_nat (shape_at contexts 1))%Z /\
    (enforce = true -> L = (Z.of_nat (shape_at contexts 1) - 1)%Z)) ->
   exists c, snd (check_contexts contexts (Some L) enforce) =
             inr (ReturnedContexts c)) /\
  (~ (2 <= ndim contexts /\
      (1 <= L < Z.of_nat (shape_at contexts 1))%Z /\
      (enforce = true -> L = (Z.of_nat (shape_at contexts 1) - 1)%Z)) ->
   exists e, snd (check_contexts contexts (Some L) enforce) =
             inl (WindowValueError e)).
Proof.
  destruct (Nat.ltb_spec (ndim contexts) 2) as [Hlt|Hge].
  - split; [intros [H _]; lia|]. intros _. exists TooFewDimensions.
    unfold check_contexts. destruct (Nat.ltb_spec (ndim contexts) 2); [reflexivity|lia].
  - rewrite (check_contexts_run contexts L enforce Hge). simpl.
    destruct enforce; simpl.
    + destruct (Z.ltb_spec L (Z.of_nat (shape_at contexts 1) - 1)) as [H1|H1].
      * split; [intros (_ & _ & H); specialize (H eq_refl); lia|].
        intros _. eexists. reflexivity.
      * destruct (Z.geb_spec L (Z.of_nat (shape_at contexts 1))) as [H2|H2].
        { split; [intros (_ & H & _); lia|]. intros _. eexists. reflexivity. }
        destruct (Z.ltb_spec L 1) as [H3|H3].
        { split; [intros (_ & H & _); lia|]. intros _. eexists. reflexivity. }
        split; [intros _; eexists; reflexivity|].
        intros H. exfalso. apply H. repeat split; try lia.
    + destruct (Z.geb_spec L (Z.of_nat (shape_at contexts 1))) as [H2|H2].
      { split; [intros (_ & H & _); lia|]. intros _. eexists. reflexivity. }
      destruct (Z.ltb_spec L 1) as [H3|H3].
      { split; [intros (_ & H & _); lia|]. intros _. eexists. reflexivity. }
      split; [intros _; eexists; reflexivity|].
      intros H. exfalso. apply H. repeat split; try lia; discriminate.
Qed.

(** X2: The contexts that [check_contexts] returns have at least three
    dimensions.  Contexts of two dimensions come back with a feature axis of
    length 1 appended, holding the same items, and one warning is logged;
    contexts of more dimensions come back as they are, with no warning. *)
Theorem check_contexts_adds_feature_axis (A : Type) (contexts c : ndarray A)
        (L : Z) (enforce : bool) (w : list window_warning) :
  check_contexts contexts (Some L) enforce = (w, inr (ReturnedContexts c)) ->
  3 <= ndim c /\
  (ndim contexts = 2 ->
   w = [TimeAxisAssumed (shape contexts)] /\
   shape c = shape contexts ++ [1] /\
   forall i j k, item c [i; j; k] = item contexts [i; j]) /\
  (ndim contexts <> 2 -> w = [] /\ c = contexts).
Proof.
  intros Hrun.
  destruct (Nat.ltb_spec (ndim contexts) 2) as [Hlt|Hge].
  - unfold check_contexts in Hrun.
    destruct (Nat.ltb_spec (ndim contexts) 2); [discriminate|lia].
  - rewrite (check_contexts_run contexts L enforce Hge) in Hrun. simpl in Hrun.
    destruct (enforce && _)%bool; [discriminate|].
    destruct (_ >=? _)%Z; [discriminate|].
    destruct (_ <? 1)%Z; [discriminate|].
    injection Hrun as Hw Hc.
    destruct (Nat.eqb_spec (ndim contexts) 2) as [E|E]; subst w c.
    + split; [|split; [|intros H; contradiction]].
      * unfold ndim, newaxis_last. simpl. rewrite length_app. simpl.
        unfold ndim in E. lia.
      * intros _. split; [reflexivity|]. split; [reflexivity|].
        intros i j k. unfold newaxis_last. simpl. rewrite E. reflexivity.
    + split; [lia|]. split; [intros H; contradiction|]. intros _. split; reflexivity.
Qed.

Lemma check_contexts_adds_feature_axis_witness :
  exists c : ndarray nat,
    3 <= ndim c /\ shape c = [4; 3; 1] /\ item c [2; 1; 0] = 21.
Proof.
  pose (contexts := NdArray [4; 3] (fun idx => 10 * nth 0 idx 0 + nth 1 idx 0)).
  exists (newaxis_last contexts).
  destruct (check_contexts_adds_feature_axis nat contexts (newaxis_last contexts)
              2%Z true [TimeAxisAssumed [4; 3]] eq_refl) as (H3 & H2 & _).
  destruct (H2 eq_refl) as (_ & Hs & Hi).
  split; [exact H3|]. split; [exact Hs|]. rewrite Hi. reflexivity.
Defined.

(** X3: [pad_lookforward] never pads.  Without a lookback length it always
    raises: [ValueError] for contexts of fewer than two dimensions, and
    otherwise [AttributeError], as [check_contexts] has returned [True] and
    the shape of [True] is asked for.  With a lookback length it raises what
    [check_contexts] raises or returns the class [NotImplementedError]. *)
Theorem pad_lookforward_never_pads (A : Type) (contexts : ndarray A) :
  snd (pad_lookforward contexts None) =
  inl (if ndim contexts <? 2 then WindowValueError TooFewDimensions
       else WindowAttributeError) /\
  forall L : Z,
    snd (pad_lookforward contexts (Some L)) =
    match snd (check_contexts contexts (Some L) false) with
    | inl e => inl e
    | inr _ => inr NotImplementedError
    end.
Proof.
  split.
  - unfold pad_lookforward, check_contexts.
    destruct (ndim contexts <? 2); [reflexivity|].
    destruct (ndim contexts =? 2); reflexivity.
  - intros L. unfold pad_lookforward.
    destruct (check_contexts contexts (Some L) false) as [w [e|c]]; reflexivity.
Qed.

(** The windows of [trajectory_to_contexts], once the trajectory has a time
    axis: the sliding windows with the window axis moved to the second place
    and every [lag]-th snapshot kept. *)
Lemma strided_windows {A : Type} (t : ndarray A) (n : nat) (feat : list nat)
      (W lag : nat) :
  shape t = n :: feat ->
  shape (stride_second (moveaxis_last_to_second (sliding_window_view t W)) lag) =
  (n - W + 1) :: (W + lag - 1) / lag :: feat /\
  forall i j r,
    item (stride_second (moveaxis_last_to_second (sliding_window_view t W)) lag)
         (i :: j :: r) = item t (i + j * lag :: r).
Proof.
  intros Hs. unfold sliding_window_view. rewrite Hs.
  unfold moveaxis_last_to_second. cbn [shape item].
  destruct (feat ++ [W]) as [|f mid] eqn:Hmid.
  { destruct feat; discriminate. }
  rewrite <- Hmid. unfold stride_second. cbn [shape item].
  rewrite last_last, removelast_last. split; [reflexivity|].
  intros i j r. rewrite last_last, removelast_last. reflexivity.
Qed.

Lemma window_length_nat (c lag : Z) :
  (2 <= c)%Z -> (1 <= lag)%Z ->
  Z.to_nat (1 + (c - 1) * lag) = 1 + (Z.to_nat c - 1) * Z.to_nat lag.
Proof.
  intros Hc Hl. rewrite Znat.Z2Nat.inj_add by nia. rewrite Znat.Z2Nat.inj_mul by lia.
  rewrite Znat.Z2Nat.inj_sub by lia. reflexivity.
Qed.

Lemma strided_length (c lag : nat) :
  1 <= c -> 1 <= lag -> (1 + (c - 1) * lag + lag - 1) / lag = c.
Proof.
  intros Hc Hl. replace (1 + (c - 1) * lag + lag - 1) with (c * lag) by nia.
  apply Nat.div_mul. lia.
Qed.

Lemma trajectory_to_contexts_run {A : Type} (trajectory : ndarray A)
      (c lag : Z) :
  (2 <= c)%Z -> (1 <= lag)%Z ->
  let t := match ndim trajectory with
           | 0 => reshape_1_1 trajectory
           | 1 => newaxis_last trajectory
           | _ => trajectory
           end in
  (1 + (c - 1) * lag <= Z.of_nat (shape_at t 0))%Z ->
  trajectory_to_contexts trajectory c lag =
  ([], inr (stride_second
              (moveaxis_last_to_second
                 (sliding_window_view t (Z.to_nat (1 + (c - 1) * lag))))
              (Z.to_nat lag))).
Proof.
  intros Hc Hl t Hn. unfold trajectory_to_contexts.
  destruct (Z.ltb_spec c 2) as [H|_]; [lia|].
  destruct (Z.ltb_spec lag 1) as [H|_]; [lia|].
  fold t.
  destruct (Z.gtb_spec (1 + (c - 1) * lag) (Z.of_nat (shape_at t 0))) as [H|_]; [lia|].
  reflexivity.
Qed.

Lemma time_axis_of_trajectory {A : Type} (trajectory : ndarray A) :
  exists feat,
    shape (match ndim trajectory with
           | 0 => reshape_1_1 trajectory
           | 1 => newaxis_last trajectory
           | _ => trajectory
           end) = time_steps trajectory :: feat.
Proof.
  unfold time_steps, shape_at, ndim, newaxis_last.
  destruct (shape trajectory) as [|n [|d feat]] eqn:Hs; simpl.
  - exists [1]. reflexivity.
  - exists [1]. reflexivity.
  - exists (d :: feat). exact Hs.
Qed.


(** The contexts in terms of the trajectory with its time axis. *)
Lemma contexts_of_trajectory {A : Type} (trajectory : ndarray A) (n : nat)
      (feat : list nat) (c lag : Z) :
  shape (match ndim trajectory with
         | 0 => reshape_1_1 trajectory
         | 1 => newaxis_last trajectory
         | _ => trajectory
         end) = n :: feat ->
  (2 <= c)%Z -> (1 <= lag)%Z -> (1 + (c - 1) * lag <= Z.of_nat n)%Z ->
  exists res,
    trajectory_to_contexts trajectory c lag = ([], inr res) /\
    shape res = (n - Z.to_nat ((c - 1) * lag)) :: Z.to_nat c :: feat /\
    forall i j r,
      item res (i :: j :: r) =
      item (match ndim trajectory with
            | 0 => reshape_1_1 trajectory
            | 1 => newaxis_last trajectory
            | _ => trajectory
            end) (i + j * Z.to_nat lag :: r).
Proof.
  intros Hs Hc Hl Hn.
  pose proof (trajectory_to_contexts_run trajectory c lag Hc Hl) as Hrun.
  cbv zeta in Hrun. unfold shape_at in Hrun. rewrite Hs in Hrun.
  specialize (Hrun Hn).
  destruct (strided_windows _ n feat (Z.to_nat (1 + (c - 1) * lag))
              (Z.to_nat lag) Hs) as [Hshape Hitem].
  eexists. split; [exact Hrun|]. split; [|exact Hitem].
  rewrite Hshape. rewrite (window_length_nat c lag Hc Hl).
  rewrite strided_length by lia. f_equal.
  rewrite Znat.Z2Nat.inj_mul by lia. rewrite Znat.Z2Nat.inj_sub by lia.
  change (Z.to_nat 1) with 1.
  assert (1 + (Z.to_nat c - 1) * Z.to_nat lag <= n).
  { rewrite <- (window_length_nat c lag Hc Hl). lia. }
  lia.
Qed.

(** X4: [trajectory_to_contexts] returns contexts exactly when the context
    window has at least two snapshots, the time lag is at least 1 and the
    lagged window, of [1 + (context_window_len - 1) * time_lag] time steps,
    fits in the trajectory; otherwise it raises [ValueError].  It logs
    nothing, and a trajectory without axes is always rejected. *)
Theorem trajectory_to_contexts_accepts (A : Type) (trajectory : ndarray A)
        (c lag : Z) :
  ((2 <= c)%Z /\ (1 <= lag)%Z /\
   (1 + (c - 1) * lag <= Z.of_nat (time_steps trajectory))%Z ->
   exists res, trajectory_to_contexts trajectory c lag = ([], inr res)) /\
  (~ ((2 <= c)%Z /\ (1 <= lag)%Z /\
      (1 + (c - 1) * lag <= Z.of_nat (time_steps trajectory))%Z) ->
   exists e, trajectory_to_contexts trajectory c lag =
             ([], inl (WindowValueError e))) /\
  (ndim trajectory = 0 ->
   exists e, trajectory_to_contexts trajectory c lag =
             ([], inl (WindowValueError e))).
Proof.
  assert (Hrej : ~ ((2 <= c)%Z /\ (1 <= lag)%Z /\
                    (1 + (c - 1) * lag <= Z.of_nat (time_steps trajectory))%Z) ->
                 exists e, trajectory_to_contexts trajectory c lag =
                           ([], inl (WindowValueError e))).
  { intros Hno. unfold trajectory_to_contexts.
    destruct (Z.ltb_spec c 2) as [H|Hc]; [eexists; reflexivity|].
    destruct (Z.ltb_spec lag 1) as [H|Hl]; [eexists; reflexivity|].
    destruct (time_axis_of_trajectory trajectory) as [feat Hs].
    unfold shape_at at 1. rewrite Hs. simpl nth.
    destruct (Z.gtb_spec (1 + (c - 1) * lag) (Z.of_nat (time_steps trajectory)))
      as [H|Hn]; [eexists; reflexivity|].
    exfalso. apply Hno. lia. }
  split; [|split; [exact Hrej|]].
  - intros (Hc & Hl & Hn). eexists. apply trajectory_to_contexts_run; try assumption.
    destruct (time_axis_of_trajectory trajectory) as [feat Hs].
    unfold shape_at. rewrite Hs. exact Hn.
  - intros H0. apply Hrej. unfold time_steps. rewrite H0. intros (Hc & Hl & Hn). nia.
Qed.

(** X5: The contexts of a trajectory of shape [(n, *features)], with at
    least one feature axis: there are [n - (context_window_len - 1) *
    time_lag] of them, each of [context_window_len] snapshots, and snapshot
    [j] of context [i] is snapshot [i + j * time_lag] of the trajectory,
    which lies inside the trajectory. *)
Theorem trajectory_to_contexts_windows (A : Type) (trajectory : ndarray A)
        (n d : nat) (feat : list nat) (c lag : Z) :
  shape trajectory = n :: d :: feat ->
  (2 <= c)%Z -> (1 <= lag)%Z -> (1 + (c - 1) * lag <= Z.of_nat n)%Z ->
  exists res,
    trajectory_to_contexts trajectory c lag = ([], inr res) /\
    shape res = (n - Z.to_nat ((c - 1) * lag)) :: Z.to_nat c :: d :: feat /\
    (forall i j r,
        item res (i :: j :: r) = item trajectory (i + j * Z.to_nat lag :: r)) /\
    (forall i j r,
        in_bounds (i :: j :: r) (shape res) ->
        in_bounds (i + j * Z.to_nat lag :: r) (shape trajectory)).
Proof.
  intros Hs Hc Hl Hn.
  assert (Ht : match ndim trajectory with
               | 0 => reshape_1_1 trajectory
               | 1 => newaxis_last trajectory
               | _ => trajectory
               end = trajectory).
  { unfold ndim. rewrite Hs. reflexivity. }
  destruct (contexts_of_trajectory trajectory n (d :: feat) c lag)
    as (res & Hrun & Hshape & Hitem); try assumption.
  { rewrite Ht. exact Hs. }
  rewrite Ht in Hitem.
  exists res. split; [exact Hrun|]. split; [exact Hshape|]. split; [exact Hitem|].
  intros i j r Hb. rewrite Hshape in Hb. rewrite Hs.
  inversion Hb as [|? ? ? ? Hi Hb1]; subst.
  inversion Hb1 as [|? ? ? ? Hj Hb2]; subst.
  constructor; [|exact Hb2].
  assert (Hw : 1 + (Z.to_nat c - 1) * Z.to_nat lag <= n).
  { rewrite <- (window_length_nat c lag Hc Hl). lia. }
  rewrite Znat.Z2Nat.inj_mul in Hi by lia. rewrite Znat.Z2Nat.inj_sub in Hi by lia.
  change (Z.to_nat 1) with 1 in Hi. nia.
Qed.

Lemma trajectory_to_contexts_windows_witness :
  exists res : ndarray nat,
    trajectory_to_contexts (NdArray [5; 1] (fun idx => nth 0 idx 0)) 2 2 =
    ([], inr res) /\
    shape res = [3; 2; 1] /\ item res [1; 1; 0] = 3.
Proof.
  destruct (trajectory_to_contexts_windows nat
              (NdArray [5; 1] (fun idx => nth 0 idx 0)) 5 1 [] 2 2 eq_refl)
    as (res & Hrun & Hshape & Hitem & _); [lia|lia|simpl; lia|].
  exists res. split; [exact Hrun|]. split; [exact Hshape|].
  rewrite Hitem. reflexivity.
Defined.

(** X6: A trajectory of one axis, of [n] scalar snapshots, gets a feature
    axis of length 1: the contexts have shape [(n - (context_window_len - 1)
    * time_lag, context_window_len, 1)], and snapshot [j] of context [i] is
    snapshot [i + j * time_lag] of the trajectory. *)
Theorem trajectory_to_contexts_of_vector (A : Type) (trajectory : ndarray A)
        (n : nat) (c lag : Z) :
  shape trajectory = [n] ->
  (2 <= c)%Z -> (1 <= lag)%Z -> (1 + (c - 1) * lag <= Z.of_nat n)%Z ->
  exists res,
    trajectory_to_contexts trajectory c lag = ([], inr res) /\
    shape res = [n - Z.to_nat ((c - 1) * lag); Z.to_nat c; 1] /\
    forall i j k,
      item res [i; j; k] = item trajectory [i + j * Z.to_nat lag].
Proof.
  intros Hs Hc Hl Hn.
  assert (Ht : match ndim trajectory with
               | 0 => reshape_1_1 trajectory
               | 1 => newaxis_last trajectory
               | _ => trajectory
               end = newaxis_last trajectory).
  { unfold ndim. rewrite Hs. reflexivity. }
  destruct (contexts_of_trajectory trajectory n [1] c lag)
    as (res & Hrun & Hshape & Hitem); try assumption.
  { rewrite Ht. unfold newaxis_last. simpl. rewrite Hs. reflexivity. }
  rewrite Ht in Hitem.
  exists res. split; [exact Hrun|]. split; [exact Hshape|].
  intros i j k. rewrite Hitem. unfold newaxis_last. simpl.
  unfold ndim. rewrite Hs. reflexivity.
Qed.

Lemma trajectory_to_contexts_of_vector_witness :
  exists res : ndarray nat,
    trajectory_to_contexts (NdArray [6] (fun idx => 10 * nth 0 idx 0)) 3 2 =
    ([], inr res) /\
    shape res = [2; 3; 1] /\ item res [1; 2; 0] = 50.
Proof.
  destruct (trajectory_to_contexts_of_vector nat
              (NdArray [6] (fun idx => 10 * nth 0 idx 0)) 6 3 2 eq_refl)
    as (res & Hrun & Hshape & Hitem); [lia|lia|simpl; lia|].
  exists res. split; [exact Hrun|]. split; [exact Hshape|].
  rewrite Hitem. reflexivity.
Defined.



Lemma slice_second_spec {A : Type} (a : ndarray A) (n s1 : nat) (feat : list nat)
      (start stop : option Z) :
  shape a = n :: s1 :: feat ->
  shape (slice_second a start stop) =
  n :: slice_bound s1 s1 stop - slice_bound s1 0 start :: feat /\
  forall i j r,
    item (slice_second a start stop) (i :: j :: r) =
    item a (i :: slice_bound s1 0 start + j :: r).
Proof.
  intros Hs. unfold slice_second. rewrite Hs. split; reflexivity.
Qed.

Lemma stack_second_spec {A : Type} (a b : ndarray A) (n : nat) (rest : list nat) :
  shape a = n :: rest ->
  shape (stack_second a b) = n :: 2 :: rest /\
  forall i c r,
    item (stack_second a b) (i :: c :: r) =
    if c =? 0 then item a (i :: r) else item b (i :: r).
Proof.
  intros Hs. unfold stack_second. rewrite Hs. split; reflexivity.
Qed.

Lemma atleast_2d_id {A : Type} (a : ndarray A) (n s1 : nat) (feat : list nat) :
  shape a = n :: s1 :: feat -> atleast_2d a = a.
Proof. intros Hs. unfold atleast_2d. rewrite Hs. reflexivity. Qed.

(** The run of [stack_lookback] on contexts of at least two dimensions with
    a lookback length in range. *)
Lemma stack_lookback_run {A : Type} (contexts : ndarray A) (n s1 : nat)
      (feat : list nat) (L : Z) :
  shape contexts = n :: s1 :: feat ->
  (1 <= L < Z.of_nat s1)%Z ->
  exists res,
    stack_lookback contexts (Some L) =
    ((if (L <? Z.of_nat s1 - 1)%Z
      then [SnapshotsDiscarded (Z.of_nat s1 - L) (Z.of_nat s1 - L - 1)]
      else []), inr res) /\
    shape res = n :: 2 :: Z.to_nat L :: feat /\
    (forall i t r, item res (i :: 0 :: t :: r) = item contexts (i :: t :: r)) /\
    (forall i t r, item res (i :: 1 :: t :: r) = item contexts (i :: S t :: r)).
Proof.
  intros Hs HL. unfold stack_lookback.
  rewrite (atleast_2d_id contexts n s1 feat Hs).
  unfold shape_at. rewrite Hs. simpl nth.
  destruct (Z.geb_spec L (Z.of_nat s1)) as [H|_]; [lia|].
  destruct (Z.ltb_spec L 1) as [H|_]; [lia|].
  destruct (slice_second_spec contexts n s1 feat None (Some (L + 1)%Z) Hs)
    as [Hs1 Hi1].
  assert (Hb1 : slice_bound s1 s1 (Some (L + 1)%Z) = S (Z.to_nat L)).
  { unfold slice_bound. destruct (Z.ltb_spec (L + 1) 0); lia. }
  simpl slice_bound at 2 in Hs1. rewrite Hb1, Nat.sub_0_r in Hs1.
  simpl slice_bound in Hi1.
  set (_ctx := slice_second contexts None (Some (L + 1)%Z)) in *.
  destruct (slice_second_spec _ctx n (S (Z.to_nat L)) feat None (Some (-1)%Z) Hs1)
    as [Hs2 Hi2].
  assert (Hb2 : slice_bound (S (Z.to_nat L)) (S (Z.to_nat L)) (Some (-1)%Z) =
                Z.to_nat L).
  { unfold slice_bound. destruct (Z.ltb_spec (-1) 0); lia. }
  simpl slice_bound at 2 in Hs2. rewrite Hb2, Nat.sub_0_r in Hs2.
  simpl slice_bound in Hi2.
  destruct (slice_second_spec _ctx n (S (Z.to_nat L)) feat (Some 1%Z) None Hs1)
    as [Hs3 Hi3].
  assert (Hb3 : slice_bound (S (Z.to_nat L)) 0 (Some 1%Z) = 1).
  { unfold slice_bound. destruct (Z.ltb_spec 1 0); lia. }
  rewrite Hb3 in Hs3, Hi3. simpl slice_bound in Hs3.
  set (_in := slice_second _ctx None (Some (-1)%Z)) in *.
  set (_out := slice_second _ctx (Some 1%Z) None) in *.
  destruct (stack_second_spec _in _out n (Z.to_nat L :: feat) Hs2) as [Hs4 Hi4].
  exists (stack_second _in _out). split; [|split; [exact Hs4|split]].
  - destruct (L <? Z.of_nat s1 - 1)%Z; reflexivity.
  - intros i t r. rewrite Hi4. simpl. rewrite Hi2, Hi1. reflexivity.
  - intros i t r. rewrite Hi4. simpl. rewrite Hi3, Hi1. reflexivity.
Qed.

Lemma take_second_spec {A : Type} (a : ndarray A) (n s1 : nat)
      (rest : list nat) (k : Z) :
  shape a = n :: s1 :: rest ->
  (- Z.of_nat s1 <= k < Z.of_nat s1)%Z ->
  exists b,
    take_second a k = inr b /\
    shape b = n :: rest /\
    forall i r,
      item b (i :: r) =
      item a (i :: Z.to_nat (if (k <? 0)%Z then k + Z.of_nat s1 else k)%Z :: r).
Proof.
  intros Hs Hk. unfold take_second. rewrite Hs.
  set (k' := if (k <? 0)%Z then (k + Z.of_nat s1)%Z else k).
  assert (Hk' : (0 <= k' < Z.of_nat s1)%Z).
  { unfold k'. destruct (Z.ltb_spec k 0); lia. }
  destruct (Z.leb_spec 0 k') as [_|H]; [|lia].
  destruct (Z.ltb_spec k' (Z.of_nat s1)) as [_|H]; [|lia].
  simpl. eexists. split; [reflexivity|]. split; reflexivity.
Qed.

Lemma take_second_outside {A : Type} (a : ndarray A) (n s1 : nat)
      (rest : list nat) (k : Z) :
  shape a = n :: s1 :: rest ->
  ~ (- Z.of_nat s1 <= k < Z.of_nat s1)%Z ->
  take_second a k = inl WindowIndexError.
Proof.
  intros Hs Hk. unfold take_second. rewrite Hs.
  destruct (Z.ltb_spec k 0);
    destruct (Z.leb_spec 0 (k + Z.of_nat s1));
    destruct (Z.leb_spec 0 k);
    destruct (Z.ltb_spec (k + Z.of_nat s1) (Z.of_nat s1));
    destruct (Z.ltb_spec k (Z.of_nat s1)); simpl; try reflexivity; lia.
Qed.

Lemma concatenate_second_spec {A : Type} (a b : ndarray A) (n a1 b1 : nat)
      (rest : list nat) :
  shape a = n :: a1 :: rest ->
  shape b = n :: b1 :: rest ->
  shape (concatenate_second a b) = n :: a1 + b1 :: rest /\
  forall i j r,
    item (concatenate_second a b) (i :: j :: r) =
    if j <? a1 then item a (i :: j :: r) else item b (i :: j - a1 :: r).
Proof.
  intros Ha Hb. unfold concatenate_second, shape_at. rewrite Ha, Hb.
  split; reflexivity.
Qed.

Lemma newaxis_second_spec {A : Type} (a : ndarray A) (n : nat) (rest : list nat) :
  shape a = n :: rest ->
  shape (newaxis_second a) = n :: 1 :: rest /\
  forall i j r, item (newaxis_second a) (i :: j :: r) = item a (i :: r).
Proof.
  intros Hs. unfold newaxis_second. rewrite Hs. split; reflexivity.
Qed.

(** The run of [unstack_lookback] on stacked contexts of shape
    [(n, 2, L + 1, *features)]. *)
Lemma unstack_lookback_run {A : Type} (x : ndarray A) (n L : nat)
      (feat : list nat) :
  shape x = n :: 2 :: S L :: feat ->
  exists res,
    unstack_lookback x = ([], inr res) /\
    shape res = n :: S (S L) :: feat /\
    (forall i t r, t <= L -> item res (i :: t :: r) = item x (i :: 0 :: t :: r)) /\
    (forall i r, item res (i :: S L :: r) = item x (i :: 1 :: L :: r)).
Proof.
  intros Hs. unfold unstack_lookback.
  assert (Hnd : ndim x = 3 + length feat) by (unfold ndim; rewrite Hs; reflexivity).
  rewrite Hnd. cbn [Nat.add Nat.eqb]. rewrite Hnd.
  change (3 + length feat <? 2) with false. cbv iota.
  unfold shape_at. rewrite Hs. cbn [nth Nat.eqb negb].
  destruct (take_second_spec x n 2 (S L :: feat) 0 Hs) as (_in & Ein & Sin & Iin);
    [lia|].
  destruct (take_second_spec x n 2 (S L :: feat) 1 Hs) as (o1 & Eo1 & So1 & Io1);
    [lia|].
  destruct (take_second_spec o1 n (S L) feat (-1) So1) as (_out & Eout & Sout & Iout);
    [lia|].
  rewrite Ein, Eo1, Eout. rewrite !wbind_wret.
  destruct (newaxis_second_spec _out n feat Sout) as [Snew Inew].
  destruct (concatenate_second_spec _in (newaxis_second _out) n (S L) 1 feat
              Sin Snew) as [Sres Ires].
  eexists. split; [reflexivity|]. split; [|split].
  - rewrite Sres. f_equal. f_equal. lia.
  - intros i t r Ht. rewrite Ires.
    destruct (Nat.ltb_spec t (S L)) as [_|H]; [|lia].
    rewrite Iin. reflexivity.
  - intros i r. rewrite Ires.
    destruct (Nat.ltb_spec (S L) (S L)) as [H|_]; [lia|].
    rewrite Inew, Iout, Io1.
    change (-1 <? 0)%Z with true. change (1 <? 0)%Z with false. cbv iota.
    replace (Z.to_nat (-1 + Z.of_nat (S L))) with L by lia. reflexivity.
Qed.

Lemma atleast_2d_shape {A : Type} (a : ndarray A) :
  exists n s1 feat, shape (atleast_2d a) = n :: s1 :: feat.
Proof.
  unfold atleast_2d. destruct (shape a) as [|n [|s1 feat]] eqn:Hs.
  - exists 1, 1, []. reflexivity.
  - exists 1, n, []. simpl. rewrite Hs. reflexivity.
  - exists n, s1, feat. exact Hs.
Qed.

Lemma atleast_2d_twice {A : Type} (a : ndarray A) :
  atleast_2d (atleast_2d a) = atleast_2d a.
Proof.
  destruct (atleast_2d_shape a) as (n & s1 & feat & Hs).
  exact (atleast_2d_id (atleast_2d a) n s1 feat Hs).
Qed.

Lemma stack_lookback_atleast_2d {A : Type} (contexts : ndarray A)
      (lookback_len : option Z) :
  stack_lookback contexts lookback_len =
  stack_lookback (atleast_2d contexts) lookback_len.
Proof. unfold stack_lookback. rewrite atleast_2d_twice. reflexivity. Qed.

Lemma stack_lookback_rejected {A : Type} (contexts : ndarray A) (L : Z) :
  ~ (1 <= L < context_len contexts)%Z ->
  exists e, stack_lookback contexts (Some L) = ([], inl (WindowValueError e)).
Proof.
  intros Hno. unfold stack_lookback. fold (context_len contexts).
  destruct (Z.geb_spec L (context_len contexts)) as [H|H1]; [eexists; reflexivity|].
  destruct (Z.ltb_spec L 1) as [H|H2]; [eexists; reflexivity|].
  exfalso. apply Hno. lia.
Qed.

Lemma stack_lookback_accepted {A : Type} (contexts : ndarray A) (L : Z) :
  (1 <= L < context_len contexts)%Z ->
  exists res,
    stack_lookback contexts (Some L) =
    ((if (L <? context_len contexts - 1)%Z
      then [SnapshotsDiscarded (context_len contexts - L)
                                (context_len contexts - L - 1)]
      else []), inr res).
Proof.
  intros HL. destruct (atleast_2d_shape contexts) as (n & s1 & feat & Hs).
  assert (Hlen : context_len contexts = Z.of_nat s1).
  { unfold context_len, shape_at. rewrite Hs. reflexivity. }
  rewrite Hlen in *. rewrite stack_lookback_atleast_2d.
  destruct (stack_lookback_run (atleast_2d contexts) n s1 feat L Hs HL)
    as (res & Hrun & _).
  exists res. exact Hrun.
Qed.

(** X8: [stack_lookback] accepts a lookback length exactly when it is at
    least 1 and less than the context length, and raises [ValueError]
    otherwise.  It warns that snapshots are discarded exactly when the
    lookback length is less than the context length minus 1.  Without a
    lookback length it takes the context length minus 1, so it accepts
    exactly the contexts of at least two snapshots, and never warns. *)
Theorem stack_lookback_accepts (A : Type) (contexts : ndarray A) (L : Z) :
  ((1 <= L < context_len contexts)%Z ->
   exists res,
     stack_lookback contexts (Some L) =
     ((if (L <? context_len contexts - 1)%Z
       then [SnapshotsDiscarded (context_len contexts - L)
                                 (context_len contexts - L - 1)]
       else []), inr res)) /\
  (~ (1 <= L < context_len contexts)%Z ->
   exists e, stack_lookback contexts (Some L) = ([], inl (WindowValueError e))) /\
  ((2 <= context_len contexts)%Z ->
   exists res, stack_lookback contexts None = ([], inr res)) /\
  ((context_len contexts < 2)%Z ->
   exists e, stack_lookback contexts None = ([], inl (WindowValueError e))).
Proof.
  assert (HNone : stack_lookback contexts None =
                  stack_lookback contexts (Some (context_len contexts - 1)%Z))
    by reflexivity.
  split; [apply stack_lookback_accepted|].
  split; [apply stack_lookback_rejected|]. split.
  - intros H2. rewrite HNone.
    destruct (stack_lookback_accepted contexts (context_len contexts - 1))
      as (res & Hrun); [lia|].
    rewrite Z.ltb_irrefl in Hrun. exists res. exact Hrun.
  - intros H2. rewrite HNone. apply stack_lookback_rejected. lia.
Qed.

(** X9: For contexts of shape [(n, context_len, *features)] and a lookback
    length [L] in range, [stack_lookback] returns an array of shape
    [(n, 2, L, *features)]: for every context, the lookback window, of the
    snapshots [0 .. L - 1], and the window one step later, of the snapshots
    [1 .. L]. *)
Theorem stack_lookback_windows (A : Type) (contexts : ndarray A) (n s1 : nat)
        (feat : list nat) (L : Z) :
  shape contexts = n :: s1 :: feat ->
  (1 <= L < Z.of_nat s1)%Z ->
  exists w res,
    stack_lookback contexts (Some L) = (w, inr res) /\
    shape res = n :: 2 :: Z.to_nat L :: feat /\
    (forall i t r, item res (i :: 0 :: t :: r) = item contexts (i :: t :: r)) /\
    (forall i t r, item res (i :: 1 :: t :: r) = item contexts (i :: S t :: r)) /\
    (forall i t r, in_bounds (i :: 1 :: t :: r) (shape res) ->
                   in_bounds (i :: S t :: r) (shape contexts)).
Proof.
  intros Hs HL.
  destruct (stack_lookback_run contexts n s1 feat L Hs HL)
    as (res & Hrun & Hshape & Hin & Hout).
  eexists. exists res. split; [exact Hrun|]. split; [exact Hshape|].
  split; [exact Hin|]. split; [exact Hout|].
  intros i t r Hb. rewrite Hshape in Hb. rewrite Hs.
  inversion Hb as [|? ? ? ? Hi Hb1]; subst.
  inversion Hb1 as [|? ? ? ? _ Hb2]; subst.
  inversion Hb2 as [|? ? ? ? Ht Hb3]; subst.
  constructor; [exact Hi|]. constructor; [lia|exact Hb3].
Qed.

Lemma stack_lookback_windows_witness :
  exists w (res : ndarray nat),
    stack_lookback (NdArray [2; 4] (fun idx => 10 * nth 0 idx 0 + nth 1 idx 0))
                   (Some 2%Z) = (w, inr res) /\
    shape res = [2; 2; 2] /\
    item res [1; 0; 1] = 11 /\ item res [1; 1; 1] = 12.
Proof.
  destruct (stack_lookback_windows nat
              (NdArray [2; 4] (fun idx => 10 * nth 0 idx 0 + nth 1 idx 0))
              2 4 [] 2 eq_refl)
    as (w & res & Hrun & Hshape & Hin & Hout & _); [simpl; lia|].
  exists w, res. split; [exact Hrun|]. split; [exact Hshape|].
  rewrite Hin, Hout. split; reflexivity.
Defined.

(** Stacking and then unstacking. *)
Lemma stack_unstack_run {A : Type} (contexts : ndarray A) (n s1 : nat)
      (feat : list nat) (L : Z) :
  shape contexts = n :: s1 :: feat ->
  (1 <= L < Z.of_nat s1)%Z ->
  exists w stacked res,
    stack_lookback contexts (Some L) = (w, inr stacked) /\
    unstack_lookback stacked = ([], inr res) /\
    shape res = n :: S (Z.to_nat L) :: feat /\
    forall i t r, t <= Z.to_nat L ->
                  item res (i :: t :: r) = item contexts (i :: t :: r).
Proof.
  intros Hs HL.
  destruct (stack_lookback_run contexts n s1 feat L Hs HL)
    as (stacked & Hrun & Hshape & Hin & Hout).
  destruct (Z.to_nat L) as [|L'] eqn:EL; [lia|].
  destruct (unstack_lookback_run stacked n L' feat Hshape)
    as (res & Hun & Hshape' & Hfirst & Hlast).
  eexists. exists stacked, res. split; [exact Hrun|]. split; [exact Hun|].
  split; [exact Hshape'|].
  intros i t r Ht. destruct (Nat.eq_dec t (S L')) as [->|Hne].
  - rewrite Hlast. apply Hout.
  - rewrite Hfirst by lia. apply Hin.
Qed.

(** X10: [unstack_lookback] undoes [stack_lookback] on what the latter
    kept: unstacking the stacked windows gives the first [L + 1] snapshots
    of every context, [contexts[:, :L + 1]]. *)
Theorem unstack_lookback_stack_lookback (A : Type) (contexts : ndarray A)
        (n s1 : nat) (feat : list nat) (L : Z) :
  shape contexts = n :: s1 :: feat ->
  (1 <= L < Z.of_nat s1)%Z ->
  exists w stacked res,
    stack_lookback contexts (Some L) = (w, inr stacked) /\
    unstack_lookback stacked = ([], inr res) /\
    arr_eq res (slice_second contexts None (Some (L + 1)%Z)).
Proof.
  intros Hs HL.
  destruct (stack_unstack_run contexts n s1 feat L Hs HL)
    as (w & stacked & res & Hrun & Hun & Hshape & Hitem).
  exists w, stacked, res. split; [exact Hrun|]. split; [exact Hun|].
  destruct (slice_second_spec contexts n s1 feat None (Some (L + 1)%Z) Hs)
    as [Hs1 Hi1].
  assert (Hb1 : slice_bound s1 s1 (Some (L + 1)%Z) = S (Z.to_nat L)).
  { unfold slice_bound. destruct (Z.ltb_spec (L + 1) 0); lia. }
  simpl slice_bound at 2 in Hs1. rewrite Hb1, Nat.sub_0_r in Hs1.
  simpl slice_bound in Hi1.
  split; [rewrite Hshape, Hs1; reflexivity|].
  intros idx Hb. rewrite Hshape in Hb.
  inversion Hb as [|i ? r0 ? Hi Hb1']; subst.
  inversion Hb1' as [|t ? r ? Ht Hb2]; subst.
  rewrite Hi1. apply Hitem. lia.
Qed.

Lemma unstack_lookback_stack_lookback_witness :
  exists w stacked (res : ndarray nat),
    stack_lookback (NdArray [2; 4] (fun idx => 10 * nth 0 idx 0 + nth 1 idx 0))
                   (Some 2%Z) = (w, inr stacked) /\
    unstack_lookback stacked = ([], inr res) /\
    shape res = [2; 3].
Proof.
  destruct (unstack_lookback_stack_lookback nat
              (NdArray [2; 4] (fun idx => 10 * nth 0 idx 0 + nth 1 idx 0))
              2 4 [] 2 eq_refl)
    as (w & stacked & res & Hrun & Hun & Hshape & _); [simpl; lia|].
  exists w, stacked, res. split; [exact Hrun|]. split; [exact Hun|].
  exact Hshape.
Defined.

(** X11: With the default lookback length nothing is lost: for contexts of
    at least two dimensions and at least two snapshots, [stack_lookback]
    followed by [unstack_lookback] returns the contexts, and logs
    nothing. *)
Theorem unstack_lookback_inverts_default_stack (A : Type)
        (contexts : ndarray A) (n s1 : nat) (feat : list nat) :
  shape contexts = n :: s1 :: feat ->
  2 <= s1 ->
  exists res,
    wbind (stack_lookback contexts None) (unstack_lookback (A := A)) =
    ([], inr res) /\
    arr_eq res contexts.
Proof.
  intros Hs H2.
  assert (HNone : stack_lookback contexts None =
                  stack_lookback contexts (Some (Z.of_nat s1 - 1)%Z)).
  { unfold stack_lookback. rewrite (atleast_2d_id contexts n s1 feat Hs).
    unfold shape_at. rewrite Hs. reflexivity. }
  destruct (stack_lookback_run contexts n s1 feat (Z.of_nat s1 - 1) Hs)
    as (stacked & Hrun & Hshape & Hin & Hout); [lia|].
  rewrite Z.ltb_irrefl in Hrun.
  destruct (stack_unstack_run contexts n s1 feat (Z.of_nat s1 - 1) Hs)
    as (w & stacked' & res & Hrun' & Hun & Hshape' & Hitem); [lia|].
  rewrite Hrun in Hrun'. injection Hrun' as Hw Hst. subst stacked' w.
  exists res. split.
  - rewrite HNone, Hrun. unfold wbind. rewrite Hun. reflexivity.
  - replace (S (Z.to_nat (Z.of_nat s1 - 1))) with s1 in Hshape' by lia.
    split; [rewrite Hshape', Hs; reflexivity|].
    intros idx Hb. rewrite Hshape' in Hb.
    inversion Hb as [|i ? r0 ? Hi Hb1]; subst.
    inversion Hb1 as [|t ? r ? Ht Hb2]; subst.
    apply Hitem. lia.
Qed.

Lemma unstack_lookback_inverts_default_stack_witness :
  exists res : ndarray nat,
    wbind (stack_lookback
             (NdArray [2; 3; 1] (fun idx => 10 * nth 0 idx 0 + nth 1 idx 0)) None)
          (unstack_lookback (A := nat)) = ([], inr res) /\
    shape res = [2; 3; 1].
Proof.
  destruct (unstack_lookback_inverts_default_stack nat
              (NdArray [2; 3; 1] (fun idx => 10 * nth 0 idx 0 + nth 1 idx 0))
              2 3 [1] eq_refl)
    as (res & Hrun & Hshape & _); [lia|].
  exists res. split; [exact Hrun|exact Hshape].
Defined.

(** X12: What [unstack_lookback] rejects.  An array of fewer than two
    dimensions has no second axis: [IndexError].  An array of two
    dimensions is taken for a single stacked pair, so its first axis must
    have length 2; an array of more dimensions must have a second axis of
    length 2; otherwise [ValueError].  Stacked windows of length 0 have no
    last snapshot: [IndexError]. *)
Theorem unstack_lookback_rejects (A : Type) (contexts : ndarray A) :
  (ndim contexts < 2 ->
   unstack_lookback contexts = ([], inl WindowIndexError)) /\
  (forall a b, shape contexts = [a; b] -> a <> 2 ->
               unstack_lookback contexts =
               ([], inl (WindowValueError SecondAxisNotTwo))) /\
  (forall n s L feat, shape contexts = n :: s :: L :: feat -> s <> 2 ->
                      unstack_lookback contexts =
                      ([], inl (WindowValueError SecondAxisNotTwo))) /\
  (shape contexts = [2; 0] ->
   unstack_lookback contexts = ([], inl WindowIndexError)) /\
  (forall n feat, shape contexts = n :: 2 :: 0 :: feat ->
                  unstack_lookback contexts = ([], inl WindowIndexError)).
Proof.
  assert (Hzero : forall (x : ndarray A) n feat,
             shape x = n :: 2 :: 0 :: feat ->
             (if ndim x =? 2 then newaxis_first x else x) = x ->
             unstack_lookback x = ([], inl WindowIndexError) ).
  { intros x n feat Hs Hx. unfold unstack_lookback. rewrite Hx.
    assert (Hnd : ndim x = 3 + length feat) by (unfold ndim; rewrite Hs; reflexivity).
    rewrite Hnd. change (3 + length feat <? 2) with false. cbv iota.
    unfold shape_at. rewrite Hs. cbn [nth Nat.eqb negb].
    destruct (take_second_spec x n 2 (0 :: feat) 0 Hs) as (_in & Ein & Sin & Iin);
      [lia|].
    destruct (take_second_spec x n 2 (0 :: feat) 1 Hs) as (o1 & Eo1 & So1 & Io1);
      [lia|].
    rewrite Ein, Eo1, wbind_wret.
    rewrite (take_second_outside o1 n 0 feat (-1) So1) by lia. reflexivity. }
  split; [|split; [|split; [|split]]].
  - intros Hlt. unfold unstack_lookback.
    destruct (Nat.eqb_spec (ndim contexts) 2) as [E|_]; [lia|].
    destruct (Nat.ltb_spec (ndim contexts) 2) as [_|H]; [reflexivity|lia].
  - intros a b Hs Ha. unfold unstack_lookback, ndim. rewrite Hs. simpl.
    unfold shape_at. simpl. rewrite Hs. simpl.
    destruct (Nat.eqb_spec a 2) as [E|_]; [contradiction|]. reflexivity.
  - intros n s L feat Hs Hne. unfold unstack_lookback, ndim. rewrite Hs. simpl.
    unfold shape_at. rewrite Hs. simpl.
    destruct (Nat.eqb_spec s 2) as [E|_]; [contradiction|]. reflexivity.
  - intros Hs.
    assert (Hs' : shape (newaxis_first contexts) = 1 :: 2 :: 0 :: []).
    { unfold newaxis_first. simpl. rewrite Hs. reflexivity. }
    assert (Hsame : unstack_lookback contexts =
                    unstack_lookback (newaxis_first contexts)).
    { unfold unstack_lookback, ndim. rewrite Hs', Hs. reflexivity. }
    rewrite Hsame. apply (Hzero _ 1 [] Hs').
    unfold ndim. rewrite Hs'. reflexivity.
  - intros n feat Hs. apply (Hzero _ n feat Hs).
    unfold ndim. rewrite Hs. reflexivity.
Qed.

(** X13: [unstack_lookback] on stacked windows of shape
    [(n, 2, L + 1, *features)] returns contexts of shape
    [(n, L + 2, *features)]: the whole first window, followed by the last
    snapshot of the second.  A single stacked pair, of shape [(2, L + 1)],
    is unstacked into one context, of shape [(1, L + 2)]. *)
Theorem unstack_lookback_windows (A : Type) (contexts : ndarray A) :
  (forall n L feat,
      shape contexts = n :: 2 :: S L :: feat ->
      exists res,
        unstack_lookback contexts = ([], inr res) /\
        shape res = n :: S (S L) :: feat /\
        (forall i t r, t <= L ->
                       item res (i :: t :: r) = item contexts (i :: 0 :: t :: r)) /\
        (forall i r, item res (i :: S L :: r) = item contexts (i :: 1 :: L :: r))) /\
  (forall L,
      shape contexts = [2; S L] ->
      exists res,
        unstack_lookback contexts = ([], inr res) /\
        shape res = [1; S (S L)] /\
        (forall t, t <= L -> item res [0; t] = item contexts [0; t]) /\
        item res [0; S L] = item contexts [1; L]).
Proof.
  split.
  - intros n L feat Hs. exact (unstack_lookback_run contexts n L feat Hs).
  - intros L Hs.
    assert (Hs' : shape (newaxis_first contexts) = 1 :: 2 :: S L :: []).
    { unfold newaxis_first. simpl. rewrite Hs. reflexivity. }
    assert (Hsame : unstack_lookback contexts =
                    unstack_lookback (newaxis_first contexts)).
    { unfold unstack_lookback, ndim. rewrite Hs', Hs. reflexivity. }
    destruct (unstack_lookback_run (newaxis_first contexts) 1 L [] Hs')
      as (res & Hrun & Hshape & Hfirst & Hlast).
    exists res. split; [rewrite Hsame; exact Hrun|]. split; [exact Hshape|].
    split.
    + intros t Ht. rewrite (Hfirst 0 t [] Ht). reflexivity.
    + rewrite (Hlast 0 []). reflexivity.
Qed.

Lemma unstack_lookback_windows_witness :
  exists res : ndarray nat,
    unstack_lookback
      (NdArray [1; 2; 2]
               (fun idx => 10 * nth 1 idx 0 + nth 2 idx 0)) = ([], inr res) /\
    shape res = [1; 3] /\
    item res [0; 1] = 1 /\ item res [0; 2] = 11.
Proof.
  destruct (unstack_lookback_windows nat
              (NdArray [1; 2; 2] (fun idx => 10 * nth 1 idx 0 + nth 2 idx 0)))
    as [H _].
  destruct (H 1 1 [] eq_refl) as (res & Hrun & Hshape & Hfirst & Hlast).
  exists res. split; [exact Hrun|]. split; [exact Hshape|].
  rewrite Hfirst by lia. rewrite Hlast. split; reflexivity.
Defined.

(** X14: Contexts cut from a trajectory, then stacked with the default
    lookback length: the first window of context [i] holds the snapshots
    [i + t * time_lag] of the trajectory and the second the snapshots
    [i + (t + 1) * time_lag], one time lag later. *)
Theorem stack_lookback_of_trajectory (A : Type) (trajectory : ndarray A)
        (n d : nat) (feat : list nat) (c lag : Z) :
  shape trajectory = n :: d :: feat ->
  (2 <= c)%Z -> (1 <= lag)%Z -> (1 + (c - 1) * lag <= Z.of_nat n)%Z ->
  exists res,
    wbind (trajectory_to_contexts trajectory c lag)
          (fun contexts => stack_lookback contexts None) = ([], inr res) /\
    shape res =
    (n - Z.to_nat ((c - 1) * lag)) :: 2 :: Z.to_nat (c - 1) :: d :: feat /\
    (forall i t r,
        item res (i :: 0 :: t :: r) =
        item trajectory (i + t * Z.to_nat lag :: r)) /\
    (forall i t r,
        item res (i :: 1 :: t :: r) =
        item trajectory (i + (t + 1) * Z.to_nat lag :: r)).
Proof.
  intros Hs Hc Hl Hn.
  assert (Ht : match ndim trajectory with
               | 0 => reshape_1_1 trajectory
               | 1 => newaxis_last trajectory
               | _ => trajectory
               end = trajectory).
  { unfold ndim. rewrite Hs. reflexivity. }
  destruct (contexts_of_trajectory trajectory n (d :: feat) c lag)
    as (ctx & Hrun & Hshape & Hitem); try assumption.
  { rewrite Ht. exact Hs. }
  rewrite Ht in Hitem.
  assert (HNone : stack_lookback ctx None =
                  stack_lookback ctx (Some (Z.of_nat (Z.to_nat c) - 1)%Z)).
  { unfold stack_lookback. rewrite (atleast_2d_id ctx _ _ _ Hshape).
    unfold shape_at. rewrite Hshape. reflexivity. }
  destruct (stack_lookback_run ctx _ _ _ (Z.of_nat (Z.to_nat c) - 1) Hshape)
    as (res & Hst & Hshape' & Hin & Hout); [lia|].
  rewrite Z.ltb_irrefl in Hst.
  exists res. split; [|split; [|split]].
  - rewrite Hrun. unfold wbind. rewrite HNone, Hst. reflexivity.
  - rewrite Hshape'. do 3 f_equal. lia.
  - intros i t r. rewrite Hin, Hitem. reflexivity.
  - intros i t r. rewrite Hout, Hitem. do 2 f_equal. lia.
Qed.

Lemma stack_lookback_of_trajectory_witness :
  exists res : ndarray nat,
    wbind (trajectory_to_contexts (NdArray [7; 1] (fun idx => nth 0 idx 0)) 3 2)
          (fun contexts => stack_lookback contexts None) = ([], inr res) /\
    shape res = [3; 2; 2; 1] /\
    item res [1; 0; 1; 0] = 3 /\ item res [1; 1; 1; 0] = 5.
Proof.
  destruct (stack_lookback_of_trajectory nat
              (NdArray [7; 1] (fun idx => nth 0 idx 0)) 7 1 [] 3 2 eq_refl)
    as (res & Hrun & Hshape & Hin & Hout); [lia|lia|simpl; lia|].
  exists res. split; [exact Hrun|]. split; [exact Hshape|].
  rewrite Hin, Hout. split; reflexivity.
Defined.

(** X15: [stack_lookback] undoes [unstack_lookback] on stacked windows that
    agree where they overlap: if snapshot [t] of every second window is
    snapshot [t + 1] of the first, unstacking and stacking again gives the
    stacked windows back. *)
Theorem stack_lookback_unstack_lookback (A : Type) (stacked : ndarray A)
        (n L : nat) (feat : list nat) :
  shape stacked = n :: 2 :: S L :: feat ->
  (forall i t r, t < L ->
                 item stacked (i :: 1 :: t :: r) =
                 item stacked (i :: 0 :: S t :: r)) ->
  exists res,
    wbind (unstack_lookback stacked)
          (fun contexts => stack_lookback contexts None) = ([], inr res) /\
    arr_eq res stacked.
Proof.
  intros Hs Hov.
  destruct (unstack_lookback_run stacked n L feat Hs)
    as (ctx & Hun & Hshape & Hfirst & Hlast).
  assert (HNone : stack_lookback ctx None =
                  stack_lookback ctx (Some (Z.of_nat (S (S L)) - 1)%Z)).
  { unfold stack_lookback. rewrite (atleast_2d_id ctx _ _ _ Hshape).
    unfold shape_at. rewrite Hshape. reflexivity. }
  destruct (stack_lookback_run ctx _ _ _ (Z.of_nat (S (S L)) - 1) Hshape)
    as (res & Hst & Hshape' & Hin & Hout); [lia|].
  rewrite Z.ltb_irrefl in Hst.
  replace (Z.to_nat (Z.of_nat (S (S L)) - 1)) with (S L) in Hshape' by lia.
  exists res. split.
  - rewrite Hun. unfold wbind. rewrite HNone, Hst. reflexivity.
  - split; [rewrite Hshape', Hs; reflexivity|].
    intros idx Hb. rewrite Hshape' in Hb.
    inversion Hb as [|i ? r0 ? Hi Hb1]; subst.
    inversion Hb1 as [|k ? r1 ? Hk Hb2]; subst.
    inversion Hb2 as [|t ? r ? Ht Hb3]; subst.
    assert (Hk' : k = 0 \/ k = 1) by lia.
    destruct Hk' as [->| ->].
    + rewrite Hin. apply Hfirst. lia.
    + rewrite Hout. destruct (Nat.eq_dec t L) as [->|Hne].
      * apply Hlast.
      * rewrite Hfirst by lia. symmetry. apply Hov. lia.
Qed.

Lemma stack_lookback_unstack_lookback_witness :
  exists res : ndarray nat,
    wbind (unstack_lookback
             (NdArray [1; 2; 2] (fun idx => nth 1 idx 0 + nth 2 idx 0)))
          (fun contexts => stack_lookback contexts None) = ([], inr res) /\
    shape res = [1; 2; 2].
Proof.
  destruct (stack_lookback_unstack_lookback nat
              (NdArray [1; 2; 2] (fun idx => nth 1 idx 0 + nth 2 idx 0))
              1 1 [] eq_refl)
    as (res & Hrun & Hshape & _).
  - intros i t r Ht. assert (t = 0) by lia. subst t. reflexivity.
  - exists res. split; [exact Hrun|exact Hshape].
Defined.

(** ** Powers of a square matrix *)

Section PowerFacts.

Variable A : Type.
Variables (rO rI : A) (radd rmul rsub : A -> A -> A) (ropp : A -> A).
Hypothesis Ath : ring_theory rO rI radd rmul rsub ropp eq.

Local Abbreviation mm := (matmul rO radd rmul).
Local Abbreviation pow := (iterated_product rO rI radd rmul).
Local Abbreviation id := (identity rO rI).

Lemma iterated_product_nrows (M : matrix A) k : nrows (pow M k) = nrows M.
Proof. induction k as [|k IH]; simpl; auto. Qed.

Lemma iterated_product_ncols (M : matrix A) k :
  nrows M = ncols M -> ncols (pow M k) = nrows M.
Proof. intros Hsq. destruct k; simpl; auto. Qed.

Lemma matmul_ext_l (M M' N : matrix A) :
  mat_eq M M' -> mat_eq (mm M N) (mm M' N).
Proof.
  intros (Hr & Hc & He). repeat split; auto. simpl. intros i j Hi Hj.
  rewrite <- Hc. apply (bigsum_ext A rO radd). intros k Hk.
  rewrite He by lia. reflexivity.
Qed.

Lemma matmul_ext_r (M N N' : matrix A) :
  mat_eq N N' -> ncols M = nrows N -> mat_eq (mm M N) (mm M N').
Proof.
  intros HN Hs. apply (matmul_ext A rO radd rmul); auto. apply mat_eq_refl.
Qed.

Lemma iterated_product_one (M : matrix A) : mat_eq (pow M 1) M.
Proof. simpl. apply (matmul_identity_l A rO rI radd rmul rsub ropp Ath). Qed.

(** A matrix commutes with its powers. *)
Lemma iterated_product_comm (M : matrix A) k :
  nrows M = ncols M -> mat_eq (mm M (pow M k)) (mm (pow M k) M).
Proof.
  intros Hsq. induction k as [|k IH].
  - simpl. eapply mat_eq_trans.
    + rewrite Hsq. apply (matmul_identity_r A rO rI radd rmul rsub ropp Ath).
    + apply mat_eq_sym. apply (matmul_identity_l A rO rI radd rmul rsub ropp Ath).
  - simpl. eapply mat_eq_trans.
    + apply mat_eq_sym. apply (matmul_assoc A rO rI radd rmul rsub ropp Ath).
    + apply matmul_ext_l. exact IH.
Qed.

Lemma iterated_product_add (M : matrix A) a b :
  nrows M = ncols M -> mat_eq (pow M (a + b)) (mm (pow M a) (pow M b)).
Proof.
  intros Hsq. induction b as [|b IH].
  - rewrite Nat.add_0_r. simpl. apply mat_eq_sym.
    rewrite <- (iterated_product_ncols M a Hsq).
    apply (matmul_identity_r A rO rI radd rmul rsub ropp Ath).
  - rewrite Nat.add_succ_r. simpl. eapply mat_eq_trans.
    + apply matmul_ext_l. exact IH.
    + apply (matmul_assoc A rO rI radd rmul rsub ropp Ath).
Qed.

Lemma iterated_product_ext (M M' : matrix A) k :
  mat_eq M M' -> nrows M = ncols M -> mat_eq (pow M k) (pow M' k).
Proof.
  intros HM Hsq. pose proof HM as (Hr & Hc & _). induction k as [|k IH].
  - simpl. rewrite Hr. apply mat_eq_refl.
  - simpl. apply (matmul_ext A rO radd rmul); auto.
    rewrite (iterated_product_ncols M k Hsq). reflexivity.
Qed.

(** The powers of the square are the even powers. *)
Lemma iterated_product_square (M : matrix A) k :
  nrows M = ncols M -> mat_eq (pow (mm M M) k) (pow M (k + k)).
Proof.
  intros Hsq. induction k as [|k IH].
  - simpl. apply mat_eq_refl.
  - replace (S k + S k) with (S (S (k + k))) by lia.
    change (mat_eq (mm (pow (mm M M) k) (mm M M)) (mm (mm (pow M (k + k)) M) M)).
    eapply mat_eq_trans.
    + apply matmul_ext_l. exact IH.
    + apply mat_eq_sym. apply (matmul_assoc A rO rI radd rmul rsub ropp Ath).
Qed.

(** Repeated squaring, with or without an accumulated result. *)
Lemma binary_power_spec (p : positive) :
  forall z : matrix A,
    nrows z = ncols z ->
    mat_eq (binary_power rO radd rmul z None p) (pow z (Pos.to_nat p)) /\
    forall r : matrix A,
      ncols r = nrows z ->
      mat_eq (binary_power rO radd rmul z (Some r) p) (mm r (pow z (Pos.to_nat p))).
Proof.
  induction p as [q IH|q IH|]; intros z Hsq.
  - assert (Hsq2 : nrows (mm z z) = ncols (mm z z)) by exact Hsq.
    destruct (IH (mm z z) Hsq2) as [_ IHs].
    assert (Hodd : forall r : matrix A,
               ncols r = nrows z ->
               mat_eq (binary_power rO radd rmul (mm z z) (Some (mm r z)) q)
                      (mm r (pow z (Pos.to_nat q~1)))).
    { intros r Hr. rewrite Pos2Nat.inj_xI.
      replace (S (2 * Pos.to_nat q)) with (S (Pos.to_nat q + Pos.to_nat q)) by lia.
      eapply mat_eq_trans; [apply (IHs (mm r z)); simpl; congruence|].
      eapply mat_eq_trans.
      { apply matmul_ext_r; [apply iterated_product_square; exact Hsq|].
        simpl. rewrite iterated_product_nrows. simpl. congruence. }
      eapply mat_eq_trans;
        [apply (matmul_assoc A rO rI radd rmul rsub ropp Ath)|].
      apply matmul_ext_r; [|exact Hr].
      apply iterated_product_comm. exact Hsq. }
    split.
    + simpl binary_power.
      rewrite Pos2Nat.inj_xI.
      replace (S (2 * Pos.to_nat q)) with (S (Pos.to_nat q + Pos.to_nat q)) by lia.
      eapply mat_eq_trans; [apply (IHs z); simpl; congruence|].
      eapply mat_eq_trans.
      { apply matmul_ext_r; [apply iterated_product_square; exact Hsq|].
        simpl. rewrite iterated_product_nrows. simpl. congruence. }
      apply iterated_product_comm. exact Hsq.
    + intros r Hr. simpl binary_power. apply Hodd. exact Hr.
  - assert (Hsq2 : nrows (mm z z) = ncols (mm z z)) by exact Hsq.
    destruct (IH (mm z z) Hsq2) as [IHn IHs].
    rewrite Pos2Nat.inj_xO.
    replace (2 * Pos.to_nat q) with (Pos.to_nat q + Pos.to_nat q) by lia.
    split.
    + simpl binary_power. eapply mat_eq_trans; [exact IHn|].
      apply iterated_product_square. exact Hsq.
    + intros r Hr. simpl binary_power.
      eapply mat_eq_trans; [apply (IHs r); simpl; congruence|].
      apply matmul_ext_r; [apply iterated_product_square; exact Hsq|].
      rewrite iterated_product_nrows. simpl. congruence.
  - split.
    + simpl binary_power. apply mat_eq_sym. apply iterated_product_one.
    + intros r Hr. simpl binary_power. apply matmul_ext_r; [|exact Hr].
      apply mat_eq_sym. apply iterated_product_one.
Qed.

(** [matrix_power] with a positive exponent computes the power. *)
Lemma positive_power_spec (M : matrix A) (p : positive) :
  nrows M = ncols M ->
  mat_eq (positive_power rO radd rmul M p) (pow M (Pos.to_nat p)).
Proof.
  intros Hsq.
  assert (Hbin : mat_eq (binary_power rO radd rmul M None p) (pow M (Pos.to_nat p))).
  { apply binary_power_spec. exact Hsq. }
  assert (H2 : mat_eq (mm M M) (pow M 2)).
  { change (pow M 2) with (mm (pow M 1) M). apply matmul_ext_l.
    apply mat_eq_sym. apply iterated_product_one. }
  destruct p as [[q|q|]|[q|q|]|]; try exact Hbin.
  change (Pos.to_nat 3) with 3. change (pow M 3) with (mm (pow M 2) M).
  simpl positive_power. apply matmul_ext_l. exact H2.
Qed.

End PowerFacts.

(** ** Multi-step prediction *)

Lemma Rmatmul_assoc (M N P : matrix R) :
  mat_eq (Rmatmul (Rmatmul M N) P) (Rmatmul M (Rmatmul N P)).
Proof. intros; eapply matmul_assoc; try exact RTheory; eassumption. Qed.

Lemma Rmatmul_ext_l (M M' N : matrix R) :
  mat_eq M M' -> mat_eq (Rmatmul M N) (Rmatmul M' N).
Proof. apply matmul_ext_l. Qed.

Lemma Rmatmul_ext_r (M N N' : matrix R) :
  mat_eq N N' -> ncols M = nrows N -> mat_eq (Rmatmul M N) (Rmatmul M N').
Proof. apply matmul_ext_r. Qed.

Lemma readout_weights_eq (U phi_X obs_train_Y : matrix R) :
  mat_eq (Rmscale (Rmulti_dot3 (Rtranspose U) (Rtranspose phi_X) obs_train_Y)
                  (/ INR (nrows phi_X))%R)
         (readout_weights U phi_X obs_train_Y).
Proof.
  destruct (Rmulti_dot3_eq (Rtranspose U) (Rtranspose phi_X) obs_train_Y)
    as (Hr & Hc & He).
  repeat split; simpl; auto.
  intros i j Hi Hj. simpl in *. rewrite He by assumption. reflexivity.
Qed.

Section PredictFacts.

Variable inv : matrix R -> exn + matrix R.

(** The power [predict] takes of the small operator. *)
Lemma predict_power (U C_XY : matrix R) (k : nat) :
  exists M,
    matrix_power 0%R 1%R Rplus Rmult inv (Rmulti_dot3 (Rtranspose U) C_XY U)
                 (Z.of_nat (S k) - 1) = inr M /\
    mat_eq M (Riterated_product (projected_operator U C_XY) k).
Proof.
  assert (Hsq : nrows (Rmulti_dot3 (Rtranspose U) C_XY U)
                = ncols (Rmulti_dot3 (Rtranspose U) C_XY U)).
  { rewrite multi_dot3_nrows, multi_dot3_ncols. reflexivity. }
  assert (Hext : mat_eq (Riterated_product (Rmulti_dot3 (Rtranspose U) C_XY U) k)
                        (Riterated_product (projected_operator U C_XY) k)).
  { apply iterated_product_ext; [apply Rmulti_dot3_eq|exact Hsq]. }
  unfold matrix_power. rewrite <- Hsq, Nat.eqb_refl. simpl negb. cbv iota.
  replace (Z.of_nat (S k) - 1)%Z with (Z.of_nat k) by lia.
  destruct k as [|k].
  - simpl Z.of_nat. eexists. split; [reflexivity|]. exact Hext.
  - simpl Z.of_nat. eexists. split; [reflexivity|].
    eapply mat_eq_trans; [|exact Hext].
    rewrite <- (SuccNat2Pos.id_succ k).
    apply (positive_power_spec R 0%R 1%R Rplus Rmult Rminus Ropp RTheory).
    exact Hsq.
Qed.

(** [predict] for [k + 1] steps, as plain products. *)
Lemma predict_run (d r m n p : nat) (U C_XY phi_Xin phi_X obs_train_Y : matrix R)
      (k : nat) :
  predict_shapes d r m n p U C_XY phi_Xin phi_X obs_train_Y ->
  0 < n ->
  exists Y,
    predict inv (Z.of_nat (S k)) U C_XY phi_Xin phi_X obs_train_Y = ret Y /\
    mat_eq Y (Rmatmul (Rmatmul (Rmatmul phi_Xin U)
                               (Riterated_product (projected_operator U C_XY) k))
                      (readout_weights U phi_X obs_train_Y)).
Proof.
  intros (HU1 & HU2 & _ & _ & _ & _ & Hn & _) Hpos.
  destruct (predict_power U C_XY k) as (M & Hpow & HM).
  unfold predict. rewrite Hn.
  replace (n =? 0) with false by (symmetry; apply Nat.eqb_neq; lia).
  rewrite bind_ret, Hpow, bind_lift_inr.
  eexists. split; [reflexivity|].
  eapply mat_eq_trans; [apply Rmulti_dot3_eq|].
  pose proof HM as (HMr & HMc & _).
  rewrite iterated_product_nrows in HMr. simpl in HMr.
  apply Rmatmul_ext.
  - apply Rmatmul_ext_r; [exact HM|]. simpl. congruence.
  - rewrite <- Hn. apply readout_weights_eq.
  - simpl. rewrite multi_dot3_nrows. simpl. rewrite HMc.
    rewrite iterated_product_ncols by reflexivity. reflexivity.
Qed.

(** X16: [predict] for [num_steps >= 1] on a non-empty training set always
    returns, logs nothing and never inverts a matrix; its result has one row
    per initial condition and one column per observable and is
    [phi_Xin @ U @ (U.T @ C_XY @ U)^(num_steps - 1) @ (U.T @ phi_X.T @
    obs_train_Y / n)]: neither the order [multi_dot] picks nor the repeated
    squaring of [matrix_power] changes the product. *)
Theorem predict_multi_step (d r m n p : nat)
        (U C_XY phi_Xin phi_X obs_train_Y : matrix R) (k : nat) :
  predict_shapes d r m n p U C_XY phi_Xin phi_X obs_train_Y ->
  0 < n ->
  exists Y,
    predict inv (Z.of_nat (S k)) U C_XY phi_Xin phi_X obs_train_Y = ([], inr Y) /\
    nrows Y = m /\ ncols Y = p /\
    mat_eq Y (Rmatmul (Rmatmul (Rmatmul phi_Xin U)
                               (Riterated_product (projected_operator U C_XY) k))
                      (readout_weights U phi_X obs_train_Y)).
Proof.
  intros Hsh Hpos.
  destruct (predict_run d r m n p U C_XY phi_Xin phi_X obs_train_Y k Hsh Hpos)
    as (Y & Hrun & HY).
  destruct Hsh as (_ & _ & _ & _ & Hm & _ & _ & _ & _ & Hp).
  exists Y. split; [exact Hrun|].
  destruct HY as (Hr & Hc & He).
  split; [rewrite Hr; exact Hm|]. split; [rewrite Hc; exact Hp|].
  repeat split; auto.
Qed.

(** X17: Prediction is stepwise: predicting [k + 2] steps from the features
    [phi_Xin] is predicting [k + 1] steps from [phi_Xin @ G], for the
    estimator [G = U @ U.T @ C_XY]. *)
Theorem predict_steps_compose (d r m n p : nat)
        (U C_XY phi_Xin phi_X obs_train_Y : matrix R) (k : nat) :
  predict_shapes d r m n p U C_XY phi_Xin phi_X obs_train_Y ->
  0 < n ->
  exists Y Y',
    predict inv (Z.of_nat (S (S k))) U C_XY phi_Xin phi_X obs_train_Y = ret Y /\
    predict inv (Z.of_nat (S k)) U C_XY (estimator_step U C_XY phi_Xin)
            phi_X obs_train_Y = ret Y' /\
    mat_eq Y Y'.
Proof.
  intros Hsh Hpos.
  destruct (predict_run d r m n p U C_XY phi_Xin phi_X obs_train_Y (S k) Hsh Hpos)
    as (Y & Hrun & HY).
  assert (Hsh' : predict_shapes d r m n p U C_XY (estimator_step U C_XY phi_Xin)
                                phi_X obs_train_Y).
  { destruct Hsh as (H1 & H2 & H3 & H4 & H5 & H6 & H7 & H8 & H9 & H10).
    repeat split; auto. }
  destruct (predict_run d r m n p U C_XY (estimator_step U C_XY phi_Xin)
              phi_X obs_train_Y k Hsh' Hpos)
    as (Y' & Hrun' & HY').
  exists Y, Y'. split; [exact Hrun|]. split; [exact Hrun'|].
  eapply mat_eq_trans; [exact HY|].
  eapply mat_eq_trans; [|apply mat_eq_sym; exact HY'].
  destruct Hsh as (HU1 & HU2 & HC1 & HC2 & _).
  set (P := projected_operator U C_XY).
  set (X := Rmatmul phi_Xin U).
  assert (HPsq : nrows P = ncols P) by (unfold P; simpl; reflexivity).
  assert (HPr : nrows P = r) by (unfold P; simpl; exact HU2).
  apply Rmatmul_ext_l.
  (* X @ P^(k+1) = (X @ P) @ P^k = ((phi_Xin @ G) @ U) @ P^k *)
  apply mat_eq_sym.
  eapply mat_eq_trans.
  { apply Rmatmul_ext_l.
    (* (phi_Xin @ G) @ U = X @ P *)
    unfold estimator_step. fold X.
    eapply mat_eq_trans; [apply Rmatmul_ext_l; apply Rmatmul_assoc|].
    apply Rmatmul_assoc. }
  fold (projected_operator U C_XY). fold P.
  eapply mat_eq_trans; [apply Rmatmul_assoc|].
  apply Rmatmul_ext_r.
  - apply (iterated_product_comm R 0%R 1%R Rplus Rmult Rminus Ropp RTheory).
    exact HPsq.
  - unfold X. simpl. congruence.
Qed.

(** X18: What makes [predict] fail.  With an empty training set the
    division by its size raises [ZeroDivisionError], whatever the number of
    steps.  With [num_steps <= 0] the small operator is inverted, and an
    operator that cannot be inverted makes the prediction fail with the
    error of the inversion. *)
Theorem predict_failures (d r m n p : nat)
        (U C_XY phi_Xin phi_X obs_train_Y : matrix R) (num_steps : Z) :
  predict_shapes d r m n p U C_XY phi_Xin phi_X obs_train_Y ->
  (n = 0 ->
   predict inv num_steps U C_XY phi_Xin phi_X obs_train_Y
   = raise ZeroDivisionError) /\
  (0 < n -> (num_steps <= 0)%Z ->
   forall e, inv (Rmulti_dot3 (Rtranspose U) C_XY U) = inl e ->
             predict inv num_steps U C_XY phi_Xin phi_X obs_train_Y = raise e).
Proof.
  intros (HU1 & HU2 & _ & _ & _ & _ & Hn & _). split.
  - intros H0. unfold predict. rewrite Hn, H0. reflexivity.
  - intros Hpos Hneg e He. unfold predict. rewrite Hn.
    replace (n =? 0) with false by (symmetry; apply Nat.eqb_neq; lia).
    rewrite bind_ret. unfold matrix_power.
    rewrite multi_dot3_nrows, multi_dot3_ncols. simpl nrows.
    rewrite Nat.eqb_refl. simpl negb. cbv iota.
    destruct (num_steps - 1)%Z as [|q|q] eqn:E; try lia.
    rewrite He. reflexivity.
Qed.

End PredictFacts.

Lemma predict_multi_step_witness :
  exists Y,
    predict (fun _ => inl LinAlgError) 3
            example_U example_C_XY example_phi_Xin example_phi_X example_obs
    = ([], inr Y)
    /\ nrows Y = 1 /\ ncols Y = 1.
Proof.
  destruct (predict_multi_step (fun _ => inl LinAlgError) 2 1 1 2 1
              example_U example_C_XY example_phi_Xin example_phi_X example_obs 2)
    as (Y & Hrun & Hr & Hc & _).
  - repeat split.
  - lia.
  - exists Y. split; [exact Hrun|]. split; [exact Hr|exact Hc].
Defined.

Lemma predict_steps_compose_witness :
  exists Y Y',
    predict (fun _ => inl LinAlgError) 2
            example_U example_C_XY example_phi_Xin example_phi_X example_obs
    = ret Y
    /\ predict (fun _ => inl LinAlgError) 1
               example_U example_C_XY
               (estimator_step example_U example_C_XY example_phi_Xin)
               example_phi_X example_obs
       = ret Y'
    /\ mat_eq Y Y'.
Proof.
  apply (predict_steps_compose (fun _ => inl LinAlgError) 2 1 1 2 1
           example_U example_C_XY example_phi_Xin example_phi_X example_obs 0).
  - repeat split.
  - lia.
Defined.

Lemma predict_failures_witness :
  predict (fun _ => inl LinAlgError) 1
          example_U example_C_XY example_phi_Xin
          (Matrix 0 2 (fun _ _ => 0%R)) (Matrix 0 1 (fun _ _ => 0%R))
  = raise ZeroDivisionError
  /\ predict (fun _ => inl LinAlgError) 0
             example_U example_C_XY example_phi_Xin example_phi_X example_obs
     = raise LinAlgError.
Proof.
  split.
  - destruct (predict_failures (fun _ => inl LinAlgError) 2 1 1 0 1
                example_U example_C_XY example_phi_Xin
                (Matrix 0 2 (fun _ _ => 0%R)) (Matrix 0 1 (fun _ _ => 0%R)) 1)
      as [H _]; [repeat split|].
    apply H. reflexivity.
  - destruct (predict_failures (fun _ => inl LinAlgError) 2 1 1 2 1
                example_U example_C_XY example_phi_Xin example_phi_X example_obs 0)
      as [_ H]; [repeat split|].
    apply (H ltac:(lia) ltac:(lia) LinAlgError). reflexivity.
Defined.

(** ** The principal-component fit below the requested rank *)

Lemma filter_prefix {X : Type} (f : X -> bool) (l : list X) :
  forall k m, map f l = repeat true k ++ repeat false m -> filter f l = firstn k l.
Proof.
  induction l as [|a l IH]; intros k m H.
  - rewrite firstn_nil. reflexivity.
  - simpl in H. destruct k as [|k]; simpl in H.
    + destruct m as [|m]; [discriminate|]. simpl in H.
      injection H as Ha Hl. simpl. rewrite Ha.
      apply (IH 0 m). exact Hl.
    + injection H as Ha Hl. simpl. rewrite Ha. f_equal.
      apply (IH k m). exact Hl.
Qed.

(** The values the truncation keeps are the first of the selected ones. *)
Lemma kept_values_nth (w : list R) (rank : nat) (rcond : R) (p : nat) :
  rank <= length w ->
  p < length (filter (fun s => gtb Rleb s rcond) (tk_values (topk 0%R Rleb w rank))) ->
  nth p (filter (fun s => gtb Rleb s rcond) (tk_values (topk 0%R Rleb w rank))) 0%R
  = nth (nth p (tk_indices (topk 0%R Rleb w rank)) 0) w 0%R
  /\ (rcond < nth (nth p (tk_indices (topk 0%R Rleb w rank)) 0%nat) w 0)%R
  /\ p < rank.
Proof.
  intros Hr Hp.
  set (top := topk 0%R Rleb w rank) in *.
  set (kept := filter (fun s => gtb Rleb s rcond) (tk_values top)) in *.
  assert (Hlen : length (tk_indices top) = rank).
  { unfold top. rewrite topk_indices_length. lia. }
  assert (HlenS : length (tk_values top) = rank).
  { unfold top. rewrite topk_values_eq, length_map. exact Hlen. }
  pose proof (descending_mask R Rleb Rleb_trans rcond _
                (topk_values_sorted R 0%R Rleb Rleb_total Rleb_trans w rank)) as Hmask.
  fold top in Hmask. cbv zeta in Hmask. fold kept in Hmask.
  assert (Hk : length kept <= rank).
  { unfold kept. rewrite <- HlenS. apply filter_length_le. }
  assert (Hnth : nth p (tk_values top) 0%R = nth (nth p (tk_indices top) 0) w 0%R).
  { unfold top. rewrite topk_values_eq. fold top.
    rewrite (nth_indep _ 0%R (nth 0 w 0%R)) by (rewrite length_map; lia).
    apply (map_nth (fun i => nth i w 0%R)). }
  assert (Hkeep : nth p kept 0%R = nth p (tk_values top) 0%R).
  { unfold kept at 1. rewrite (filter_prefix _ _ _ _ Hmask), nth_firstn.
    replace (p <? length kept) with true by (symmetry; apply Nat.ltb_lt; exact Hp).
    reflexivity. }
  split; [rewrite Hkeep; exact Hnth|]. split; [|lia].
  rewrite <- Hnth, <- Hkeep. apply gtb_Rleb.
  assert (Hin : In (nth p kept 0%R) kept) by (apply nth_In; exact Hp).
  unfold kept in Hin at 2. apply filter_In in Hin. apply Hin.
Qed.

(** The matrix the principal-component fits return, from what the
    truncation hands them: [V] holds the eigenvectors of the [k] kept
    eigenvalues and zero columns after them. *)
Lemma truncated_fit_gram (A V0 V : matrix R) (w : list R) (rank : nat) (rcond : R) :
  eigenpairs A w V0 -> rank <= length w -> (0 <= rcond)%R ->
  let idx := tk_indices (topk 0%R Rleb w rank) in
  let kept := filter (fun s => gtb Rleb s rcond) (tk_values (topk 0%R Rleb w rank)) in
  let k := length kept in
  k <= rank -> nrows V = nrows V0 -> ncols V = rank ->
  (forall i p, p < k -> entry V i p = entry V0 i (nth p idx 0)) ->
  (forall i p, k <= p < rank -> entry V i p = 0%R) ->
  let U := Rmatmul V (Rdiag (map rsqrt kept ++ repeat 0%R (rank - k))) in
  ncols U = rank
  /\ (forall i p, k <= p < rank -> entry U i p = 0%R)
  /\ mat_eq (Rmatmul (Rmatmul (Rtranspose U) A) U) (partial_identity k rank).
Proof.
  intros Heig Hw Hrc idx kept k Hk HnV HmV Hcols Hzero U.
  pose proof Heig as (HnV0 & HcV0 & _ & _).
  assert (Hidx : length idx = rank).
  { unfold idx. rewrite topk_indices_length. lia. }
  set (s := map rsqrt kept ++ repeat 0%R (rank - k)) in *.
  assert (Hls : length s = rank).
  { unfold s. rewrite length_app, length_map, repeat_length. fold k. lia. }
  assert (HVs : ncols V = length s) by congruence.
  assert (Hrange : forall j, j < rank -> nth j idx 0 < length w).
  { intros j Hj. apply (topk_indices_range R 0%R Rleb w rank).
    apply nth_In. fold idx. lia. }
  (* the scale factors *)
  assert (Hsj : forall j, j < k -> nth j s 0%R = rsqrt (nth (nth j idx 0) w 0%R)).
  { intros j Hj. unfold s.
    rewrite app_nth1 by (rewrite length_map; exact Hj).
    rewrite (nth_indep _ 0%R (rsqrt 0%R)) by (rewrite length_map; exact Hj).
    rewrite (map_nth rsqrt). f_equal.
    apply (kept_values_nth w rank rcond j Hw Hj). }
  assert (Hs0 : forall j, k <= j -> nth j s 0%R = 0%R).
  { intros j Hj. unfold s.
    rewrite app_nth2 by (rewrite length_map; exact Hj).
    apply nth_repeat. }
  assert (Hpos : forall j, j < k -> (0 < nth (nth j idx 0%nat) w 0)%R).
  { intros j Hj. apply Rle_lt_trans with rcond; [exact Hrc|].
    apply (kept_values_nth w rank rcond j Hw Hj). }
  (* the entries of the Gram matrix *)
  assert (HG : forall i j, i < rank -> j < rank ->
             entry (Rmatmul (Rmatmul (Rtranspose (Rmatmul V (Rdiag s))) A)
                            (Rmatmul V (Rdiag s))) i j
             = if ((i =? j) && (i <? k))%bool then 1%R else 0%R).
  { intros i j Hi Hj.
    rewrite (quadratic_form_scaled V A s i j HVs) by lia.
    destruct (Nat.ltb_spec i k) as [Hik|Hik].
    2: { rewrite (Hs0 i Hik), andb_false_r. ring. }
    destruct (Nat.ltb_spec j k) as [Hjk|Hjk].
    2: { rewrite (Hs0 j Hjk).
         replace (i =? j) with false by (symmetry; apply Nat.eqb_neq; lia).
         simpl. ring. }
    rewrite andb_true_r.
    change (entry (Rmatmul (Rmatmul (Rtranspose V) A) V) i j)
      with (Rbigsum (ncols A)
              (fun b => (Rbigsum (nrows V) (fun a => (entry V a i * entry A a b)%R)
                         * entry V b j)%R)).
    rewrite (Rbigsum_ext _ _
               (fun b => (Rbigsum (nrows V0)
                            (fun a => (entry V0 a (nth i idx 0%nat) * entry A a b)%R)
                          * entry V0 b (nth j idx 0%nat))%R)).
    2: { intros b _. rewrite HnV, (Hcols b j Hjk). f_equal.
         apply Rbigsum_ext. intros a _. now rewrite (Hcols a i Hik). }
    rewrite (eigen_quadratic_form A V0 w _ _ Heig (Hrange i Hi) (Hrange j Hj)).
    rewrite !Hsj by assumption.
    destruct (Nat.eqb_spec i j) as [->|Hij].
    - rewrite Nat.eqb_refl.
      set (x := nth (nth j idx 0) w 0%R).
      replace (rsqrt x * rsqrt x * (x * 1))%R with (rsqrt x * rsqrt x * x)%R by ring.
      apply rsqrt_normalizes. now apply Hpos.
    - replace (nth i idx 0 =? nth j idx 0) with false; [ring|].
      symmetry. apply Nat.eqb_neq. intros E. apply Hij.
      apply (NoDup_nth idx 0); try lia; try exact E.
      apply topk_indices_NoDup. }
  subst U.
  split; [simpl; exact Hls|]. split.
  - intros i p Hp. rewrite (Rmatmul_diag_r V s i p HVs) by lia.
    rewrite (Hzero i p Hp). ring.
  - split; [simpl; exact Hls|]. split; [simpl; exact Hls|].
    intros i j Hi Hj. simpl nrows in Hi. simpl ncols in Hj.
    rewrite Hls in Hi, Hj. rewrite (HG i j Hi Hj). reflexivity.
Qed.

Section RankDeficientFit.

Variable eigh : matrix R -> option (matrix R) -> exn + (list R * matrix R).
Variable eigsh : matrix R -> nat -> option (matrix R) -> exn + (list R * matrix R).

Local Abbreviation fit_pcr := (fit_principal_component_regression eigh eigsh).
Local Abbreviation regularized C_X tikhonov_reg :=
  (Rmadd C_X (Rsmul tikhonov_reg (Ridentity (nrows C_X)))).

(** X19: The principal-component fit below the requested rank.  When the
    solver returns orthonormal eigenpairs of [C_X + lambda I] and only [k]
    of the [rank] selected eigenvalues are above the (non-negative)
    tolerance, the fit warns once that [rank - k] degrees of freedom are
    ignored (and not at all when [k = rank]), and returns [U] of shape
    [(d, rank)] whose columns from [k] on are zero and with
    [U.T @ (C_X + lambda I) @ U] the identity on the first [k] coordinates
    and zero elsewhere. *)
Theorem pcr_below_requested_rank
        d C_X tikhonov_reg rank svd_solver rcond w V0 :
  nrows C_X = d -> ncols C_X = d -> rank <= d -> (0 <= rcond)%R ->
  (if String.eqb svd_solver "arnoldi"
   then eigsh (regularized C_X tikhonov_reg) rank None
   else eigh (regularized C_X tikhonov_reg) None) = inr (w, V0) ->
  eigenpairs (regularized C_X tikhonov_reg) w V0 ->
  rank <= length w ->
  let k := length (filter (fun s => gtb Rleb s rcond)
                          (tk_values (topk 0%R Rleb w rank))) in
  exists U,
    fit_pcr C_X tikhonov_reg (Some rank) svd_solver rcond
    = ((if k =? rank then [] else [Warning k rank (rank - k)]), inr U)
    /\ k <= rank /\ nrows U = d /\ ncols U = rank
    /\ (forall i p, k <= p < rank -> entry U i p = 0%R)
    /\ mat_eq (Rmatmul (Rmatmul (Rtranspose U) (regularized C_X tikhonov_reg)) U)
              (partial_identity k rank).
Proof.
  intros Hd1 Hd2 Hr Hrc Hs Heig Hw k.
  pose proof Heig as (HnV0 & HcV0 & _ & _).
  destruct (fit_pcr_run eigh eigsh C_X tikhonov_reg rank svd_solver rcond w V0
              (eq_ind_r (fun n => rank <= n) Hr Hd1) Hs Hw HcV0)
    as (V & _ & Hfit & Hk & HnV & HmV & Hcols & Hzero).
  fold k in Hfit, Hk, Hcols, Hzero.
  destruct (truncated_fit_gram (regularized C_X tikhonov_reg) V0 V w rank rcond
              Heig Hw Hrc Hk HnV HmV Hcols Hzero)
    as (Hm & Hz & HG).
  eexists. split; [exact Hfit|]. split; [exact Hk|].
  split; [simpl; rewrite HnV, HnV0; exact Hd1|].
  split; [exact Hm|]. split; [exact Hz|exact HG].
Qed.

End RankDeficientFit.

Section RandomizedRankDeficientFit.

Variable ambient : Type.
Variable random_state : Type.
Variable seeded_random_state : Z -> random_state.
Variable global_random_state : ambient -> random_state.
Variable randomized_svd_from :
  random_state -> matrix R -> nat -> nat -> nat ->
  exn + (matrix R * list R * matrix R).

Local Abbreviation fit_rand_pcr :=
  (fit_rand_principal_component_regression
     seeded_random_state global_random_state randomized_svd_from).
Local Abbreviation rsvd :=
  (randomized_svd seeded_random_state global_random_state randomized_svd_from).
Local Abbreviation regularized C_X tikhonov_reg :=
  (Rmadd C_X (Rsmul tikhonov_reg (Ridentity (nrows C_X)))).

(** X20: The randomized principal-component fit, when the randomized
    decomposition is exact: if [randomized_svd] returns singular values and
    left singular vectors that are orthonormal eigenpairs of
    [C_X + lambda I], and [k] of the [rank] selected values are above the
    (non-negative) tolerance, the fit warns once that [rank - k] degrees of
    freedom are ignored (not at all when [k = rank]) and returns [U] of
    shape [(d, rank)] whose columns from [k] on are zero, with
    [U.T @ (C_X + lambda I) @ U] the identity on the first [k] coordinates
    and zero elsewhere.  The right singular vectors are not used. *)
Theorem rand_pcr_weighted_orthonormality
        env d C_X tikhonov_reg rank n_oversamples iterated_power rcond rng_seed
        w V0 Vt :
  nrows C_X = d -> ncols C_X = d -> rank <= d -> (0 <= rcond)%R ->
  rsvd env (regularized C_X tikhonov_reg) rank n_oversamples iterated_power rng_seed
  = inr (V0, w, Vt) ->
  eigenpairs (regularized C_X tikhonov_reg) w V0 ->
  rank <= length w ->
  let k := length (filter (fun s => gtb Rleb s rcond)
                          (tk_values (topk 0%R Rleb w rank))) in
  exists U,
    fit_rand_pcr env C_X tikhonov_reg (Some rank) n_oversamples iterated_power
                 rcond rng_seed
    = ((if k =? rank then [] else [Warning k rank (rank - k)]), inr U)
    /\ k <= rank /\ nrows U = d /\ ncols U = rank
    /\ (forall i p, k <= p < rank -> entry U i p = 0%R)
    /\ mat_eq (Rmatmul (Rmatmul (Rtranspose U) (regularized C_X tikhonov_reg)) U)
              (partial_identity k rank).
Proof.
  intros Hd1 Hd2 Hr Hrc Hs Heig Hw k.
  pose proof Heig as (HnV0 & HcV0 & _ & _).
  destruct (rank_reveal_real w V0 rank rcond Hw HcV0)
    as (V & Hrun & HnV & HmV & Hcols & Hzero & _).
  fold k in Hrun, Hcols, Hzero.
  assert (Hk : k <= rank).
  { unfold k. etransitivity; [apply filter_length_le|].
    rewrite topk_values_eq, length_map, topk_indices_length. lia. }
  destruct (truncated_fit_gram (regularized C_X tikhonov_reg) V0 V w rank rcond
              Heig Hw Hrc Hk HnV HmV Hcols Hzero)
    as (Hm & Hz & HG).
  eexists. split.
  { unfold fit_rand_principal_component_regression.
    rewrite assert_true by (apply Nat.leb_le; rewrite Hd1; exact Hr).
    rewrite Hs, bind_lift_inr. cbv iota beta. rewrite Hrun.
    apply (bind_inr_ret _ (filter (fun s => gtb Rleb s rcond)
                                  (tk_values (topk 0%R Rleb w rank)), V)
             (fun x => Rmatmul (snd x)
                         (Rdiag (map rsqrt (fst x)
                                     ++ repeat 0%R (rank - length (fst x)))))). }
  split; [exact Hk|].
  split; [simpl; rewrite HnV, HnV0; exact Hd1|].
  split; [exact Hm|]. split; [exact Hz|exact HG].
Qed.

End RandomizedRankDeficientFit.

Lemma Rleb_false (x y : R) : (y < x)%R -> Rleb x y = false.
Proof.
  intros H. apply not_true_iff_false. rewrite Rleb_le. lra.
Qed.

Lemma deficient_kept :
  filter (fun s => gtb Rleb s default_rcond) (tk_values (topk 0%R Rleb [1; 0]%R 2))
  = [1%R].
Proof.
  unfold topk, argsort, sort_keys. simpl.
  rewrite (Rleb_false 1 0) by lra. simpl.
  rewrite (gtb_Rleb_true 1 default_rcond) by (unfold default_rcond; lra).
  unfold gtb. rewrite (Rleb_true 0 default_rcond) by (unfold default_rcond; lra).
  reflexivity.
Qed.

Lemma deficient_eigenpairs :
  eigenpairs (Rmadd deficient_C_X (Rsmul 0%R (Ridentity (nrows deficient_C_X))))
             [1; 0]%R (Ridentity 2).
Proof.
  split; [reflexivity|]. split; [reflexivity|]. split.
  - intros a i Ha Hi. simpl in Ha, Hi.
    destruct a as [|[|a]]; try lia; destruct i as [|[|i]]; try lia; simpl; lra.
  - intros i j Hi Hj. simpl in Hi, Hj.
    destruct i as [|[|i]]; try lia; destruct j as [|[|j]]; try lia; simpl; lra.
Qed.

Lemma pcr_below_requested_rank_witness :
  exists U,
    fit_principal_component_regression deficient_eigh failing_eigsh
      deficient_C_X 0 (Some 2) "full" default_rcond
    = ([Warning 1 2 1], inr U)
    /\ nrows U = 2 /\ ncols U = 2
    /\ entry U 0 1 = 0%R /\ entry U 1 1 = 0%R
    /\ mat_eq (Rmatmul (Rmatmul (Rtranspose U)
                                (Rmadd deficient_C_X
                                       (Rsmul 0%R (Ridentity (nrows deficient_C_X)))))
                       U)
              (partial_identity 1 2).
Proof.
  destruct (pcr_below_requested_rank deficient_eigh failing_eigsh 2
              deficient_C_X 0%R 2 "full"%string default_rcond
              [1; 0]%R (Ridentity 2))
    as (U & Hfit & _ & Hn & Hm & Hz & HG).
  - reflexivity.
  - reflexivity.
  - lia.
  - unfold default_rcond. lra.
  - reflexivity.
  - exact deficient_eigenpairs.
  - simpl. lia.
  - rewrite deficient_kept in Hfit, Hz, HG. simpl length in Hfit, Hz, HG.
    exists U. split; [exact Hfit|]. split; [exact Hn|]. split; [exact Hm|].
    split; [apply Hz; lia|]. split; [apply Hz; lia|exact HG].
Defined.

Lemma rand_pcr_weighted_orthonormality_witness :
  exists U,
    fit_rand_principal_component_regression
      (fun _ : Z => tt) (fun _ : unit => tt) deficient_randomized_svd
      tt deficient_C_X 0 (Some 2) 0 0 default_rcond (Some 7%Z)
    = ([Warning 1 2 1], inr U)
    /\ nrows U = 2 /\ ncols U = 2
    /\ entry U 0 1 = 0%R /\ entry U 1 1 = 0%R
    /\ mat_eq (Rmatmul (Rmatmul (Rtranspose U)
                                (Rmadd deficient_C_X
                                       (Rsmul 0%R (Ridentity (nrows deficient_C_X)))))
                       U)
              (partial_identity 1 2).
Proof.
  destruct (rand_pcr_weighted_orthonormality unit unit
              (fun _ : Z => tt) (fun _ : unit => tt) deficient_randomized_svd
              tt 2 deficient_C_X 0%R 2 0 0 default_rcond (Some 7%Z)
              [1; 0]%R (Ridentity 2) (Ridentity 2))
    as (U & Hfit & _ & Hn & Hm & Hz & HG).
  - reflexivity.
  - reflexivity.
  - lia.
  - unfold default_rcond. lra.
  - reflexivity.
  - exact deficient_eigenpairs.
  - simpl. lia.
  - rewrite deficient_kept in Hfit, Hz, HG. simpl length in Hfit, Hz, HG.
    exists U. split; [exact Hfit|]. split; [exact Hn|]. split; [exact Hm|].
    split; [apply Hz; lia|]. split; [apply Hz; lia|exact HG].
Defined.

(** ** The reduced-rank fit without regularization *)

Lemma Rbigsum_zero n (f : nat -> R) :
  (forall k, k < n -> f k = 0%R) -> Rbigsum n f = 0%R.
Proof. intros; eapply bigsum_zero; try exact RTheory; eassumption. Qed.

Section UnregularizedReducedRank.

Variable eigh : matrix R -> option (matrix R) -> exn + (list R * matrix R).
Variable eigsh : matrix R -> nat -> option (matrix R) -> exn + (list R * matrix R).
Variable spd_neg_pow : matrix R -> R -> exn + matrix R.

Local Abbreviation fit_rrr := (fit_reduced_rank_regression eigh eigsh spd_neg_pow).

(** X21: With [tikhonov_reg = 0] the reduced-rank fit takes the path
    without regularization, which truncates at [rcond = 2.2e-16]: once
    [spd_neg_pow] has returned [C_X^(-1/2)] and the solver at least [rank]
    eigenpairs of [B @ B.T] for [B = C_X^(-1/2) @ C_XY], the fit returns [U]
    of [rank] columns; the first [k] are [C_X^(-1/2)] times the
    eigenvectors of the [k] selected eigenvalues above [rcond], the others
    are zero, and the fit warns once that [rank - k] degrees of freedom are
    ignored, or not at all when [k = rank]. *)
Theorem unregularized_rrr_truncates C_X C_XY rank svd_solver rsqrt_C_X w V0 :
  spd_neg_pow C_X (-0.5) = inr rsqrt_C_X ->
  (if String.eqb svd_solver "arnoldi"
   then eigsh (Rmatmul (Rmatmul rsqrt_C_X C_XY)
                       (Rtranspose (Rmatmul rsqrt_C_X C_XY))) (rank + 3) None
   else eigh (Rmatmul (Rmatmul rsqrt_C_X C_XY)
                      (Rtranspose (Rmatmul rsqrt_C_X C_XY))) None) = inr (w, V0) ->
  rank <= length w -> ncols V0 = length w ->
  let idx := tk_indices (topk 0%R Rleb w rank) in
  let k := length (filter (fun s => gtb Rleb s default_rcond)
                          (tk_values (topk 0%R Rleb w rank))) in
  exists U,
    fit_rrr C_X C_XY 0 rank svd_solver
    = ((if k =? rank then [] else [Warning k rank (rank - k)]), inr U)
    /\ k <= rank /\ nrows U = nrows rsqrt_C_X /\ ncols U = rank
    /\ (forall i p, k <= p < rank -> entry U i p = 0%R)
    /\ (forall i p, p < k ->
          entry U i p
          = Rbigsum (ncols rsqrt_C_X)
                    (fun b => (entry rsqrt_C_X i b * entry V0 b (nth p idx 0%nat))%R)).
Proof.
  intros Hspd Hs Hw Hc idx k.
  destruct (rank_reveal_real w V0 rank default_rcond Hw Hc)
    as (V & Hrun & HnV & HmV & Hcols & Hzero & _).
  fold idx in Hcols. fold k in Hrun, Hcols, Hzero.
  assert (Hk : k <= rank).
  { unfold k. etransitivity; [apply filter_length_le|].
    rewrite topk_values_eq, length_map, topk_indices_length. lia. }
  exists (Rmatmul rsqrt_C_X V). split.
  { unfold fit_reduced_rank_regression.
    destruct (Req_dec_T 0 0) as [_|H]; [|contradiction].
    unfold _fit_reduced_rank_regression_noreg.
    rewrite Hspd, bind_lift_inr. cbv zeta. rewrite Hs, bind_lift_inr.
    cbv iota beta. rewrite Hrun.
    apply (bind_inr_ret _ (filter (fun s => gtb Rleb s default_rcond)
                                  (tk_values (topk 0%R Rleb w rank)), V)
             (fun x => Rmatmul rsqrt_C_X (snd x))). }
  split; [exact Hk|]. split; [reflexivity|]. split; [exact HmV|]. split.
  - intros i p Hp. simpl.
    apply Rbigsum_zero. intros b _. rewrite (Hzero b p Hp). ring.
  - intros i p Hp. simpl. apply Rbigsum_ext. intros b _.
    rewrite (Hcols b p Hp). reflexivity.
Qed.

End UnregularizedReducedRank.

Lemma unregularized_rrr_truncates_witness :
  exists U,
    fit_reduced_rank_regression (eigenpair_eigh 0 1) failing_eigsh
      identity_spd_neg_pow (one_by_one 1) (one_by_one 0) 0 1 "full"
    = ([Warning 0 1 1], inr U)
    /\ nrows U = 1 /\ ncols U = 1 /\ entry U 0 0 = 0%R.
Proof.
  destruct (unregularized_rrr_truncates (eigenpair_eigh 0 1) failing_eigsh
              identity_spd_neg_pow (one_by_one 1) (one_by_one 0) 1 "full"%string
              (one_by_one 1) [0%R] (one_by_one 1))
    as (U & Hfit & _ & Hn & Hm & Hz & _).
  - reflexivity.
  - reflexivity.
  - simpl. lia.
  - reflexivity.
  - assert (Hk : filter (fun s => gtb Rleb s default_rcond)
                        (tk_values (topk 0%R Rleb [0%R] 1)) = []).
    { simpl. unfold gtb.
      rewrite (Rleb_true 0 default_rcond) by (unfold default_rcond; lra).
      reflexivity. }
    rewrite Hk in Hfit, Hz. simpl length in Hfit, Hz.
    exists U. split; [exact Hfit|]. split; [exact Hn|]. split; [exact Hm|].
    apply Hz. lia.
Defined.

(** ** Left and right eigenvectors that stay paired *)






Section PairedEigenvectors.

Variable eig : matrix R -> exn + (list complex * matrix complex * matrix complex).


End PairedEigenvectors.


(** ** Modes *)

Section ModeFacts.

Variable eig : matrix R -> exn + (list complex * matrix complex * matrix complex).

(** X23: The modes are built on the right eigenvectors that
    [estimator_eig] returns.  For [m] initial conditions and [n > 0]
    training points, [estimator_modes] returns an array of shape
    [(rank, m, n)] whose entry [[k, i, j]] is the right eigenfunction [k] of
    [estimator_eig] evaluated (with [evaluate_eigenfunction]) at initial
    condition [i], times [lv_obs[k, j]], where [lv_obs] is
    [(phi_X / n) @ U @ lv] for the left eigenvectors [lv] of the solver,
    reordered and divided by the denominators [l_norm] that [estimator_eig]
    divides by. *)
Theorem estimator_modes_factors d r m n U C_XY phi_X phi_Xin w lv0 rv0 :
  eig_shapes d r U C_XY w lv0 rv0 ->
  eig (Rmulti_dot3 (Rtranspose U) C_XY U) = inr (w, lv0, rv0) ->
  nrows phi_X = n -> ncols phi_X = d -> nrows phi_Xin = m -> ncols phi_Xin = d ->
  0 < n ->
  let l_perm := argsort Cleb (map Cconj w) in
  let lv_full := Cmulti_dot3 (to_complex (Rtranspose C_XY)) (to_complex U) lv0 in
  let Y := Matrix (nrows lv_full) (length l_perm)
                  (fun i j => entry lv_full i (nth j l_perm 0)) in
  let Z := Matrix (nrows lv0) (length l_perm)
                  (fun i j => entry lv0 i (nth j l_perm 0)) in
  exists values lv rv modes,
    estimator_eig eig U C_XY = ret (values, lv, rv)
    /\ estimator_modes eig U C_XY phi_X phi_Xin = ret modes
    /\ shape modes = [r; m; n]
    /\ let l_norm := sum_axis0 C0 Cadd (hadamard Cmul Y rv) in
       let lv_obs :=
         transpose (Cmulti_dot3 (to_complex (Rsmul (/ INR n)%R phi_X))
                                (to_complex U) (div_cols Z l_norm)) in
       lv = div_cols Y l_norm
       /\ forall k i j,
            item modes [k; i; j]
            = Cmul (entry (evaluate_eigenfunction phi_Xin rv) i k)
                   (entry lv_obs k j).
Proof.
  intros (HU1 & HU2 & HC1 & HC2 & Hw & Hl1 & Hl2 & Hr1 & Hr2) He Hn Hnd Hm Hmd Hpos
         l_perm lv_full Y Z.
  pose proof (estimator_eig_run eig U C_XY w lv0 rv0 He
                (eq_trans Hl2 (eq_sym Hw)) (eq_trans Hr2 (eq_sym Hw))) as Hrun.
  cbv zeta in Hrun.
  eexists. eexists. eexists. eexists.
  split; [exact Hrun|]. split.
  { unfold estimator_modes. rewrite He, bind_lift_inr. cbv iota beta.
    rewrite (take_cols_argsort Cleb w (Cmatmul (to_complex U) rv0))
      by (simpl; congruence).
    rewrite bind_lift_inr.
    rewrite (take_cols_argsort Cleb (map Cconj w)
               (Cmulti_dot3 (to_complex (Rtranspose C_XY)) (to_complex U) lv0))
      by (rewrite multi_dot3_ncols, length_map; congruence).
    rewrite bind_lift_inr.
    rewrite (take_cols_argsort Cleb (map Cconj w) lv0)
      by (rewrite length_map; congruence).
    rewrite bind_lift_inr.
    rewrite Hn. replace (n =? 0) with false by (symmetry; apply Nat.eqb_neq; lia).
    rewrite bind_ret. reflexivity. }
  split.
  { simpl. rewrite multi_dot3_nrows. simpl.
    rewrite argsort_length. congruence. }
  cbv zeta. split; [reflexivity|].
  intros k i j. reflexivity.
Qed.

End ModeFacts.

Lemma estimator_modes_factors_witness :
  exists values lv rv modes,
    estimator_eig (eigentriple_eig (Cplx 2 0)) (one_by_one 1) (one_by_one 2)
    = ret (values, lv, rv)
    /\ estimator_modes (eigentriple_eig (Cplx 2 0)) (one_by_one 1) (one_by_one 2)
                       example_obs (one_by_one 3)
       = ret modes
    /\ shape modes = [1; 1; 2].
Proof.
  destruct (estimator_modes_factors (eigentriple_eig (Cplx 2 0)) 1 1 1 2
              (one_by_one 1) (one_by_one 2) example_obs (one_by_one 3)
              [Cplx 2 0] (one_by_one_complex C1) (one_by_one_complex C1))
    as (values & lv & rv & modes & Heig & Hmodes & Hshape & _).
  - repeat split.
  - reflexivity.
  - reflexivity.
  - reflexivity.
  - reflexivity.
  - reflexivity.
  - lia.
  - exists values, lv, rv, modes. auto.
Defined.

(** ** The randomized reduced-rank fit *)

Lemma Rtranspose_matmul (P S : matrix R) :
  ncols P = nrows S ->
  mat_eq (Rtranspose (Rmatmul P S)) (Rmatmul (Rtranspose S) (Rtranspose P)).
Proof.
  intros H. repeat split. intros i j _ _. simpl. rewrite <- H.
  apply Rbigsum_ext. intros c _. ring.
Qed.

(** The quadratic form of [A] on the columns of [P @ S], when [A @ P] is
    [B]: it is the quadratic form of [P.T @ B] on the columns of [S]. *)
Lemma quadratic_form_through_solve (A P B S : matrix R) :
  mat_eq (Rmatmul A P) B -> nrows P = nrows A -> ncols P = nrows S ->
  mat_eq (Rmatmul (Rmatmul (Rtranspose (Rmatmul P S)) A) (Rmatmul P S))
         (Rmatmul (Rmatmul (Rtranspose S) (Rmatmul (Rtranspose P) B)) S).
Proof.
  intros Hsolve HP HS.
  set (X := Rmatmul (Rtranspose P) A).
  (* (P S).T A (P S) = S.T (X (P S)) *)
  eapply mat_eq_trans.
  { apply Rmatmul_ext_l. eapply mat_eq_trans.
    - apply Rmatmul_ext_l. apply Rtranspose_matmul. exact HS.
    - apply Rmatmul_assoc. }
  fold X.
  eapply mat_eq_trans; [apply Rmatmul_assoc|].
  (* X (P S) = (P.T B) S *)
  assert (HX : mat_eq (Rmatmul X (Rmatmul P S))
                      (Rmatmul (Rmatmul (Rtranspose P) B) S)).
  { eapply mat_eq_trans; [apply mat_eq_sym, Rmatmul_assoc|].
    apply Rmatmul_ext_l. unfold X.
    eapply mat_eq_trans; [apply Rmatmul_assoc|].
    apply Rmatmul_ext_r; [exact Hsolve|]. simpl. exact HP. }
  eapply mat_eq_trans.
  { apply Rmatmul_ext_r; [exact HX|]. simpl. symmetry. exact HS. }
  apply mat_eq_sym. apply Rmatmul_assoc.
Qed.

Section RandomizedReducedRank.

Variable eigh : matrix R -> option (matrix R) -> exn + (list R * matrix R).
Variable solve : matrix R -> matrix R -> exn + matrix R.
Variable ambient : Type.
Variable generator : Type.
Variable seeded_generator : Z -> generator.
Variable fresh_entropy : ambient -> Z.
Variable standard_normal : generator -> nat * nat -> matrix R.

Local Abbreviation fit_rand_rrr :=
  (fit_rand_reduced_rank_regression
     eigh solve seeded_generator fresh_entropy standard_normal).
Local Abbreviation regularized C_X tikhonov_reg :=
  (Rmadd C_X (Rsmul tikhonov_reg (Ridentity (nrows C_X)))).

(** The run of the randomized fit, once its solvers have answered. *)
Lemma fit_rand_rrr_run env C_X C_XY tikhonov_reg rank n_oversamples
      iterated_power rng_seed sketch sketch_p w V0 :
  let A := regularized C_X tikhonov_reg in
  let _crcov := Rmatmul C_XY (Rtranspose C_XY) in
  let F_0 := Rmatmul (Rtranspose sketch_p) sketch in
  let F_1 := Rmatmul (Rmatmul (Rtranspose sketch_p) _crcov) sketch_p in
  power_iterations solve iterated_power A _crcov
    (standard_normal (default_rng seeded_generator fresh_entropy env rng_seed)
                     (nrows A, rank + n_oversamples)) = inr sketch ->
  solve A sketch = inr sketch_p ->
  eigh F_1 (Some F_0) = inr (w, V0) ->
  ncols V0 = length w ->
  let idx := tk_indices (topk 0%R Rleb w rank) in
  let W := Rmatmul V0 (Rdiag (map rinv (weighted_norm V0 F_0))) in
  fit_rand_rrr env C_X C_XY tikhonov_reg rank n_oversamples iterated_power rng_seed
  = ret (Rmatmul sketch_p
           (Matrix (nrows W) (length idx) (fun i j => entry W i (nth j idx 0)))).
Proof.
  intros A _crcov F_0 F_1 Hpow Hsolve Heigh Hc idx W.
  unfold fit_rand_reduced_rank_regression.
  fold A. fold _crcov. rewrite Hpow, bind_lift_inr.
  rewrite Hsolve, bind_lift_inr. fold F_0. fold F_1.
  rewrite Heigh, bind_lift_inr. cbv iota beta. fold W.
  rewrite (take_cols_topk_real w W rank)
    by (unfold W; simpl; rewrite length_map, weighted_norm_length; exact Hc).
  rewrite bind_lift_inr. reflexivity.
Qed.

(** X24: The randomized reduced-rank fit with an exact linear solver.
    When [solve] returns [sketch_p] with [(C_X + lambda I) @ sketch_p] the
    sketch, and the dense solver returns eigenvectors [V0] for the sketched
    problem, the fit returns [min (rank, number of eigenvalues)] columns,
    and column [j] has norm 1 weighted by the regularized covariance
    whenever the weighted norm of its eigenvector under [F_0] is not
    zero. *)
Theorem rand_rrr_unit_weighted_norm env C_X C_XY tikhonov_reg rank n_oversamples
        iterated_power rng_seed sketch sketch_p w V0 :
  let A := regularized C_X tikhonov_reg in
  let _crcov := Rmatmul C_XY (Rtranspose C_XY) in
  let F_0 := Rmatmul (Rtranspose sketch_p) sketch in
  let F_1 := Rmatmul (Rmatmul (Rtranspose sketch_p) _crcov) sketch_p in
  power_iterations solve iterated_power A _crcov
    (standard_normal (default_rng seeded_generator fresh_entropy env rng_seed)
                     (nrows A, rank + n_oversamples)) = inr sketch ->
  solve A sketch = inr sketch_p ->
  mat_eq (Rmatmul A sketch_p) sketch ->
  nrows sketch_p = nrows C_X ->
  eigh F_1 (Some F_0) = inr (w, V0) ->
  nrows V0 = ncols sketch_p -> ncols V0 = length w ->
  let idx := tk_indices (topk 0%R Rleb w rank) in
  exists U,
    fit_rand_rrr env C_X C_XY tikhonov_reg rank n_oversamples iterated_power rng_seed
    = ([], inr U)
    /\ nrows U = nrows C_X /\ ncols U = Nat.min rank (length w)
    /\ forall j, j < ncols U ->
         nth (nth j idx 0) (weighted_norm V0 F_0) 0%R <> 0%R ->
         nth j (weighted_norm U A) 0%R = 1%R.
Proof.
  intros A _crcov F_0 F_1 Hpow Hsolve Hexact HnP Heigh HnV Hc idx.
  pose proof (fit_rand_rrr_run env C_X C_XY tikhonov_reg rank n_oversamples
                iterated_power rng_seed sketch sketch_p w V0 Hpow Hsolve Heigh Hc)
    as Hrun.
  cbv zeta in Hrun. fold A in Hrun. fold F_0 in Hrun. fold idx in Hrun.
  set (s := map rinv (weighted_norm V0 F_0)) in *.
  set (W := Rmatmul V0 (Rdiag s)) in *.
  set (S := Matrix (nrows W) (length idx) (fun i j => entry W i (nth j idx 0))) in *.
  assert (Hlen : length idx = Nat.min rank (length w)).
  { unfold idx. apply topk_indices_length. }
  assert (Hs : ncols V0 = length s).
  { unfold s. now rewrite length_map, weighted_norm_length. }
  exists (Rmatmul sketch_p S). split; [exact Hrun|].
  split; [exact HnP|]. split; [exact Hlen|].
  intros j Hj Hnz. simpl in Hj.
  assert (Hij : nth j idx 0 < length w).
  { apply (topk_indices_range R 0%R Rleb w rank). apply nth_In. exact Hj. }
  rewrite weighted_norm_nth by (simpl; exact Hj).
  destruct (quadratic_form_through_solve A sketch_p sketch S Hexact)
    as (_ & _ & He).
  { exact HnP. }
  { simpl. symmetry. exact HnV. }
  rewrite He by (simpl; exact Hj). fold F_0.
  change (entry (Rmatmul (Rmatmul (Rtranspose S) F_0) S) j j)
    with (entry (Rmatmul (Rmatmul (Rtranspose W) F_0) W) (nth j idx 0) (nth j idx 0)).
  unfold W.
  rewrite (quadratic_form_scaled V0 F_0 s _ _ Hs) by (rewrite <- Hs, Hc; exact Hij).
  assert (Esj : nth (nth j idx 0) s 0%R
                = rinv (nth (nth j idx 0) (weighted_norm V0 F_0) 0%R)).
  { unfold s. rewrite (nth_indep _ 0%R (rinv 0%R))
      by (rewrite length_map, weighted_norm_length, Hc; exact Hij).
    apply (map_nth rinv). }
  rewrite Esj.
  rewrite weighted_norm_nth in * by (rewrite Hc; exact Hij).
  rewrite rinv_sqrt_normalizes by (now apply sqrt_nonzero_pos).
  apply sqrt_1.
Qed.

End RandomizedReducedRank.

Lemma rand_rrr_unit_weighted_norm_witness :
  exists U,
    fit_rand_reduced_rank_regression (eigenpair_eigh 1 1) halving_solve
      (fun z => z) example_fresh_entropy example_standard_normal
      true (one_by_one 1) (one_by_one 1) 1 1 0 0 (Some 1%Z)
    = ([], inr U)
    /\ nrows U = 1 /\ ncols U = 1
    /\ nth 0 (weighted_norm U (Rmadd (one_by_one 1)
                                     (Rsmul 1%R (Ridentity (nrows (one_by_one 1))))))
           0%R = 1%R.
Proof.
  destruct (rand_rrr_unit_weighted_norm (eigenpair_eigh 1 1) halving_solve
              bool Z (fun z => z) example_fresh_entropy example_standard_normal
              true (one_by_one 1) (one_by_one 1) 1%R 1 0 0 (Some 1%Z)
              (example_standard_normal 1%Z (1, 1))
              (Rmscale (example_standard_normal 1%Z (1, 1)) (/ 2)%R)
              [1%R] (one_by_one 1))
    as (U & Hfit & Hn & Hm & Hnorm).
  - reflexivity.
  - reflexivity.
  - repeat split. intros i j Hi Hj. simpl in Hi.
    assert (i = 0) by lia. subst i. simpl. lra.
  - reflexivity.
  - reflexivity.
  - reflexivity.
  - reflexivity.
  - exists U. split; [exact Hfit|]. split; [exact Hn|]. split; [exact Hm|].
    apply (Hnorm 0).
    + rewrite Hm. simpl. lia.
    + simpl. apply Rgt_not_eq. apply sqrt_lt_R0. lra.
Defined.

(** ** Prediction, row by row and observable by observable *)

Lemma Rbigsum_plus n (f g : nat -> R) :
  Rbigsum n (fun k => (f k + g k)%R) = (Rbigsum n f + Rbigsum n g)%R.
Proof. intros; eapply bigsum_plus; try exact RTheory; eassumption. Qed.

Lemma Rmatmul_entry (M N : matrix R) (i j : nat) :
  entry (Rmatmul M N) i j
  = Rbigsum (ncols M) (fun b => (entry M i b * entry N b j)%R).
Proof. reflexivity. Qed.

Lemma readout_weights_plus (U phi_X obs1 obs2 : matrix R) (i j : nat) :
  entry (readout_weights U phi_X (Rmadd obs1 obs2)) i j
  = (entry (readout_weights U phi_X obs1) i j
     + entry (readout_weights U phi_X obs2) i j)%R.
Proof.
  unfold readout_weights. simpl.
  rewrite (Rbigsum_ext _ _
             (fun k => (Rbigsum (nrows U)
                          (fun k0 => (entry U k0 i * entry phi_X k k0)%R)
                        * entry obs1 k j
                        + Rbigsum (nrows U)
                            (fun k0 => (entry U k0 i * entry phi_X k k0)%R)
                          * entry obs2 k j)%R)).
  2: { intros k _. ring. }
  rewrite Rbigsum_plus. unfold Rdiv. ring.
Qed.

Section PredictStructure.

Variable inv : matrix R -> exn + matrix R.

(** X25: Initial conditions are predicted one by one: the row of the
    prediction for an initial condition depends on the features of that
    initial condition only.  Two batches that hold the same features in the
    rows [i] and [i'] get the same prediction in these rows. *)
Theorem predict_row_by_row (d r m m' n p : nat)
        (U C_XY phi_Xin phi_Xin' phi_X obs_train_Y : matrix R) (k i i' : nat) :
  predict_shapes d r m n p U C_XY phi_Xin phi_X obs_train_Y ->
  predict_shapes d r m' n p U C_XY phi_Xin' phi_X obs_train_Y ->
  0 < n -> i < m -> i' < m' ->
  (forall c, c < d -> entry phi_Xin i c = entry phi_Xin' i' c) ->
  exists Y Y',
    predict inv (Z.of_nat (S k)) U C_XY phi_Xin phi_X obs_train_Y = ret Y /\
    predict inv (Z.of_nat (S k)) U C_XY phi_Xin' phi_X obs_train_Y = ret Y' /\
    forall j, j < p -> entry Y i j = entry Y' i' j.
Proof.
  intros Hsh Hsh' Hpos Hi Hi' Hrow.
  destruct (predict_run inv d r m n p U C_XY phi_Xin phi_X obs_train_Y k Hsh Hpos)
    as (Y & Hrun & HY).
  destruct (predict_run inv d r m' n p U C_XY phi_Xin' phi_X obs_train_Y k Hsh' Hpos)
    as (Y' & Hrun' & HY').
  exists Y, Y'. split; [exact Hrun|]. split; [exact Hrun'|].
  intros j Hj.
  destruct Hsh as (_ & _ & _ & _ & Hm & Hd & _ & _ & _ & Hp).
  destruct Hsh' as (_ & _ & _ & _ & Hm' & Hd' & _ & _ & _ & _).
  destruct HY as (Hr & Hc & He). destruct HY' as (Hr' & Hc' & He').
  rewrite He by (simpl in *; lia). rewrite He' by (simpl in *; lia).
  simpl. apply Rbigsum_ext. intros b _. f_equal.
  apply Rbigsum_ext. intros a _. f_equal.
  rewrite Hd, Hd'. apply Rbigsum_ext. intros c Hcd.
  rewrite (Hrow c Hcd). reflexivity.
Qed.

(** X26: Prediction is additive in the observable: the prediction of the
    sum of two observables is the sum of their predictions. *)
Theorem predict_additive_in_observable (d r m n p : nat)
        (U C_XY phi_Xin phi_X obs1 obs2 : matrix R) (k : nat) :
  predict_shapes d r m n p U C_XY phi_Xin phi_X obs1 ->
  predict_shapes d r m n p U C_XY phi_Xin phi_X obs2 ->
  0 < n ->
  exists Y1 Y2 Y,
    predict inv (Z.of_nat (S k)) U C_XY phi_Xin phi_X obs1 = ret Y1 /\
    predict inv (Z.of_nat (S k)) U C_XY phi_Xin phi_X obs2 = ret Y2 /\
    predict inv (Z.of_nat (S k)) U C_XY phi_Xin phi_X (Rmadd obs1 obs2) = ret Y /\
    mat_eq Y (Rmadd Y1 Y2).
Proof.
  intros Hsh1 Hsh2 Hpos.
  assert (Hsh : predict_shapes d r m n p U C_XY phi_Xin phi_X (Rmadd obs1 obs2)).
  { destruct Hsh1 as (H1 & H2 & H3 & H4 & H5 & H6 & H7 & H8 & H9 & H10).
    repeat split; auto. }
  destruct (predict_run inv d r m n p U C_XY phi_Xin phi_X obs1 k Hsh1 Hpos)
    as (Y1 & Hrun1 & HY1).
  destruct (predict_run inv d r m n p U C_XY phi_Xin phi_X obs2 k Hsh2 Hpos)
    as (Y2 & Hrun2 & HY2).
  destruct (predict_run inv d r m n p U C_XY phi_Xin phi_X (Rmadd obs1 obs2) k
              Hsh Hpos)
    as (Y & Hrun & HY).
  exists Y1, Y2, Y. split; [exact Hrun1|]. split; [exact Hrun2|].
  split; [exact Hrun|].
  destruct Hsh1 as (_ & _ & _ & _ & Hm & _ & _ & _ & _ & Hp1).
  destruct Hsh2 as (_ & _ & _ & _ & _ & _ & _ & _ & _ & Hp2).
  destruct HY as (Hr & Hc & He). destruct HY1 as (Hr1 & Hc1 & He1).
  destruct HY2 as (Hr2 & Hc2 & He2).
  simpl in Hr, Hc, Hr1, Hc1, Hr2, Hc2.
  split; [simpl; congruence|]. split; [simpl; congruence|].
  intros i j Hi Hj. simpl entry at 2.
  rewrite He by assumption.
  rewrite He1 by (simpl; congruence).
  rewrite He2 by (simpl; congruence).
  set (Q := Rmatmul (Rmatmul phi_Xin U)
                   (Riterated_product (projected_operator U C_XY) k)).
  rewrite !Rmatmul_entry.
  rewrite (Rbigsum_ext (ncols Q)
             (fun b => (entry Q i b
                        * entry (readout_weights U phi_X (Rmadd obs1 obs2)) b j)%R)
             (fun b => (entry Q i b * entry (readout_weights U phi_X obs1) b j
                        + entry Q i b * entry (readout_weights U phi_X obs2) b j)%R)).
  2: { intros b _. rewrite readout_weights_plus. ring. }
  rewrite Rbigsum_plus. reflexivity.
Qed.

End PredictStructure.

Lemma predict_row_by_row_witness :
  exists Y Y',
    predict (fun _ => inl LinAlgError) 2
            example_U example_C_XY example_phi_Xin example_phi_X example_obs
    = ret Y
    /\ predict (fun _ => inl LinAlgError) 2
               example_U example_C_XY
               (of_rows 0%R 2 [[0; 0]; [5; 6]]%R) example_phi_X example_obs
       = ret Y'
    /\ entry Y 0 0 = entry Y' 1 0.
Proof.
  destruct (predict_row_by_row (fun _ => inl LinAlgError) 2 1 1 2 2 1
              example_U example_C_XY example_phi_Xin
              (of_rows 0%R 2 [[0; 0]; [5; 6]]%R) example_phi_X example_obs 1 0 1)
    as (Y & Y' & Hrun & Hrun' & Hrow).
  - repeat split.
  - repeat split.
  - lia.
  - lia.
  - lia.
  - intros c Hc. destruct c as [|[|c]]; try lia; reflexivity.
  - exists Y, Y'. split; [exact Hrun|]. split; [exact Hrun'|].
    apply Hrow. lia.
Defined.

Lemma predict_additive_in_observable_witness :
  exists Y1 Y2 Y,
    predict (fun _ => inl LinAlgError) 2
            example_U example_C_XY example_phi_Xin example_phi_X example_obs
    = ret Y1
    /\ predict (fun _ => inl LinAlgError) 2
               example_U example_C_XY example_phi_Xin example_phi_X
               (of_rows 0%R 1 [[1]; [0]]%R)
       = ret Y2
    /\ predict (fun _ => inl LinAlgError) 2
               example_U example_C_XY example_phi_Xin example_phi_X
               (Rmadd example_obs (of_rows 0%R 1 [[1]; [0]]%R))
       = ret Y
    /\ mat_eq Y (Rmadd Y1 Y2).
Proof.
  apply (predict_additive_in_observable (fun _ => inl LinAlgError) 2 1 1 2 1
           example_U example_C_XY example_phi_Xin example_phi_X example_obs
           (of_rows 0%R 1 [[1]; [0]]%R) 1).
  - repeat split.
  - repeat split.
  - lia.
Defined.
